(** * django-migrate-sql: the SQL state graph and the change planner

    A shallow embedding of [migrate_sql/graph.py] and
    [migrate_sql/autodetector.py], followed by the properties of the
    dependency graph, the snapshot differ, the change orderer and the plan
    emitter.

    Python dictionaries are finite maps ([gmap]), Python sets are finite sets
    ([gset]); wherever the code iterates over a set, the iteration order is
    the parameter [set_iter].  Exceptions are the [Err] results of the
    [result] monad. *)

From Stdlib Require Import String Ascii ZArith List.
From stdpp Require Import base option list gmap sets strings sorting relations.

Open Scope string_scope.
Open Scope list_scope.

#[local] Set Warnings "-register-all,-clear-no-such-hyp".

(** ** Python values carried by the SQL payloads *)

Module PyVal.

(** The payload of [RunSQL]: a string, or a list of strings and
    [(sql, params)] 2-tuples, where [params] is a list or a tuple. *)
Inductive pyval : Type :=
| PNone
| PStr (s : string)
| PInt (z : Z)
| PList (items : list pyval)
| PTuple (items : list pyval).

(** Python's [==] on these values: a list never equals a tuple. *)
Fixpoint py_eq (a b : pyval) : bool :=
  let fix seq_eq (l m : list pyval) : bool :=
    match l, m with
    | [], [] => true
    | x :: l', y :: m' => py_eq x y && seq_eq l' m'
    | _, _ => false
    end in
  match a, b with
  | PNone, PNone => true
  | PStr s, PStr t => String.eqb s t
  | PInt x, PInt y => Z.eqb x y
  | PList l, PList m => seq_eq l m
  | PTuple l, PTuple m => seq_eq l m
  | _, _ => false
  end.

(** Python's truth value, as tested by [if old_node.reverse_sql:]. *)
Definition truthy (v : pyval) : bool :=
  match v with
  | PNone => false
  | PStr s => negb (String.eqb s "")
  | PInt z => negb (Z.eqb z 0)
  | PList [] | PTuple [] => false
  | PList (_ :: _) | PTuple (_ :: _) => true
  end.

(** The values obtained by iterating a sequence: what a comparison "as
    ordered tuples" would look at. *)
Fixpoint iterated (v : pyval) : pyval :=
  match v with
  | PList l | PTuple l => PTuple (map iterated l)
  | _ => v
  end.

End PyVal.
Export PyVal.

(** ** Exceptions *)

Inductive dep_role : Type := RoleChild | RoleParent.

(** A key is the pair [(app_label, name)]. *)
Abbreviation Key := (string * string)%type.

Inductive error : Type :=
| KeyError (k : Key)
| NodeNotFoundError (app_label : string) (role : dep_role) (node : Key)
| RecursionError.

Inductive result (A : Type) : Type :=
| Ok (a : A)
| Err (e : error).
Arguments Ok {A} a.
Arguments Err {A} e.

#[global] Instance result_ret : MRet result := fun A a => Ok a.
#[global] Instance result_bind : MBind result := fun A B f m =>
  match m with
  | Ok a => f a
  | Err e => Err e
  end.

(** [d[k]] on a dictionary. *)
Definition getitem {V} (d : gmap Key V) (k : Key) : result V :=
  match d !! k with
  | Some v => Ok v
  | None => Err (KeyError k)
  end.

(** ** migrate_sql/graph.py *)

Module Graph.

(** [SqlItemNode = namedtuple('SqlItemNode', ('sql', 'reverse_sql'))] *)
Record SqlItemNode : Type := mkSqlItemNode {
  sql : pyval;
  reverse_sql : pyval
}.

(** The host's [Node(key)]: it hashes and compares as its key, so a set of
    nodes is the set of their keys; a node of the set is reached again
    through [node_map]. *)
Record Node : Type := mkNode {
  key : Key;
  children : gset Key;
  parents : gset Key
}.

Definition new_node (k : Key) : Node :=
  {| key := k; children := ∅; parents := ∅ |}.

Definition add_child (c : Key) (n : Node) : Node :=
  {| key := key n; children := children n ∪ {[c]}; parents := parents n |}.

Definition add_parent (p : Key) (n : Node) : Node :=
  {| key := key n; children := children n; parents := parents n ∪ {[p]} |}.

Record SqlStateGraph : Type := mkGraph {
  nodes : gmap Key SqlItemNode;
  node_map : gmap Key Node;
  dependencies : list (string * Key * Key)
}.

(** [SqlStateGraph()] *)
Definition empty_graph : SqlStateGraph :=
  {| nodes := ∅; node_map := ∅; dependencies := [] |}.

Definition remove_node (g : SqlStateGraph) (k : Key) : SqlStateGraph :=
  if decide (k ∈ dom (nodes g) ∧ k ∈ dom (node_map g)) then
    {| nodes := delete k (nodes g);
       node_map := delete k (node_map g);
       dependencies := dependencies g |}
  else g.

Definition add_node (g : SqlStateGraph) (k : Key) (sql_item : SqlItemNode)
  : SqlStateGraph :=
  let node := new_node k in
  {| nodes := <[k := sql_item]> (nodes g);
     node_map := <[k := node]> (node_map g);
     dependencies := dependencies g |}.

Definition add_lazy_dependency (g : SqlStateGraph) (app_label : string)
    (child parent : Key) : SqlStateGraph :=
  {| nodes := nodes g;
     node_map := node_map g;
     dependencies := dependencies g ++ [(app_label, child, parent)] |}.

(** [list.remove(x)]: drops the first element equal to [x]. *)
Fixpoint list_remove_first {A} `{EqDecision A} (x : A) (l : list A) : list A :=
  match l with
  | [] => []
  | y :: l' => if decide (y = x) then l' else y :: list_remove_first x l'
  end.

Definition remove_lazy_dependencies (g : SqlStateGraph) (app_label : string)
    (child : Key) : SqlStateGraph :=
  let remove_deps :=
    filter (fun dep => dep.1.1 = app_label ∧ dep.1.2 = child) (dependencies g) in
  {| nodes := nodes g;
     node_map := node_map g;
     dependencies :=
       foldl (fun deps dep => list_remove_first dep deps) (dependencies g) remove_deps |}.

(** One round of the loop of [resolve_dependencies]. *)
Definition resolve_one (g : SqlStateGraph) (dep : string * Key * Key)
  : result SqlStateGraph :=
  let '(app_label, child, parent) := dep in
  if decide (child ∉ dom (nodes g)) then
    Err (NodeNotFoundError app_label RoleChild child)
  else if decide (parent ∉ dom (nodes g)) then
    Err (NodeNotFoundError app_label RoleParent parent)
  else
    cn ← getitem (node_map g) child;
    pn ← getitem (node_map g) parent;
    let nm1 := <[child := add_parent (key pn) cn]> (node_map g) in
    pn' ← getitem nm1 parent;
    cn' ← getitem nm1 child;
    let nm2 := <[parent := add_child (key cn') pn']> nm1 in
    Ok {| nodes := nodes g; node_map := nm2; dependencies := dependencies g |}.

(** The loop itself.  The graph is modified in place, so the links made
    before an exception stay: the graph comes back with the outcome. *)
Fixpoint resolve_loop (deps : list (string * Key * Key)) (g : SqlStateGraph)
  : SqlStateGraph * result unit :=
  match deps with
  | [] => (g, Ok tt)
  | dep :: rest =>
      match resolve_one g dep with
      | Ok g' => resolve_loop rest g'
      | Err e => (g, Err e)
      end
  end.

Definition resolve_dependencies (g : SqlStateGraph) : SqlStateGraph * result unit :=
  resolve_loop (dependencies g) g.

(** What [build_current_graph] reads from the application registry: the
    declarations of [config.custom_sql], when the attribute is there. *)
Record SqlItem : Type := mkSqlItem {
  item_name : string;
  item_sql : pyval;
  item_reverse_sql : pyval;
  item_dependencies : list Key
}.

Record AppConfig : Type := mkAppConfig {
  label : string;
  custom_sql : option (list SqlItem)
}.

Definition register_item (app_label : string) (g : SqlStateGraph)
    (sql_item : SqlItem) : SqlStateGraph :=
  let k := (app_label, item_name sql_item) in
  let g := add_node g k
             (mkSqlItemNode (item_sql sql_item) (item_reverse_sql sql_item)) in
  foldl (fun g dep => add_lazy_dependency g app_label k dep)
    g (item_dependencies sql_item).

Definition build_current_graph (configs : list AppConfig)
  : result SqlStateGraph :=
  let graph :=
    foldl (fun g config =>
             match custom_sql config with
             | None => g
             | Some items => foldl (register_item (label config)) g items
             end) empty_graph configs in
  match resolve_dependencies graph with
  | (g, Ok _) => Ok g
  | (_, Err e) => Err e
  end.

(** The two dictionaries of a graph go together, and every node is filed
    under its own key. *)
Definition wf_graph (g : SqlStateGraph) : Prop :=
  dom (nodes g) ⊆ dom (node_map g) ∧
  map_Forall (fun k n => key n = k) (node_map g).

End Graph.
Export Graph.

(** ** The host's graph node: ancestors and descendants *)

Module HostNode.

(** Python compares keys as tuples of strings: first the label, then the
    name, each by code point. *)
Definition key_leb (a b : Key) : bool :=
  match String.compare a.1 b.1 with
  | Lt => true
  | Eq => String.leb a.2 b.2
  | Gt => false
  end.

(** [sorted(s)] on a set of nodes. *)
Definition sorted (s : gset Key) : list Key :=
  merge_sort (fun a b : Key => key_leb a b) (elements s).

(** [OrderedSet(l)] read back as a list: the first occurrence of every
    element, in order. *)
Fixpoint ordered_set_from (seen : list Key) (l : list Key) : list Key :=
  match l with
  | [] => []
  | x :: l' =>
      if decide (x ∈ seen) then ordered_set_from seen l'
      else x :: ordered_set_from (x :: seen) l'
  end.

Definition ordered_set (l : list Key) : list Key := ordered_set_from [] l.

(** The loop [for p in ...: acc.extendleft(reversed(visit(p)))]: the list
    of every visited node goes in front of what is there. *)
Fixpoint extend_left (visit : Key -> result (list Key)) (ps : list Key)
    (acc : list Key) : result (list Key) :=
  match ps with
  | [] => Ok acc
  | p :: ps' => l ← visit p; extend_left visit ps' (l ++ acc)
  end.

(** Modelled from the spec: [Node.ancestors()] and [Node.descendants()]
    belong to the host's migration graph ([django.db.migrations.graph]),
    which is not among the sources.  Both are the plain depth-first
    reachability traversal of section 4.1, over the parent edges and over
    the child edges: the list starts from the node's own key, the list of
    every neighbour (in sorted order) is put in front of it, and
    duplicates are dropped keeping the first occurrence.  The key of the
    node itself therefore comes last, which is what the [[:-1]] slices of
    [sort_sql_changes] cut off.  There is no guard against cycles: the
    recursion depth is bounded by the interpreter only, which is [fuel]
    here, and running out of it is [RecursionError].  The host keeps the
    two lists on the node once computed; no edge changes between the
    resolution of the graph and the end of ordering, so the kept lists are
    the computed ones. *)
Fixpoint walk (edges : Node -> gset Key) (fuel : nat) (nm : gmap Key Node)
    (n : Node) : result (list Key) :=
  match fuel with
  | O => Err RecursionError
  | S fuel' =>
      acc ← extend_left
               (fun p => pn ← getitem nm p; walk edges fuel' nm pn)
               (sorted (edges n)) [key n];
      Ok (ordered_set acc)
  end.

Definition ancestors := walk parents.
Definition descendants := walk children.

(** [edge_of edges nm a b]: the node filed under [a] has [b] in its
    edge set. *)
Definition edge_of (edges : Node -> gset Key) (nm : gmap Key Node)
    (a b : Key) : Prop :=
  ∃ n, nm !! a = Some n ∧ b ∈ edges n.

(** [a] is reached from [k] by one or more parent edges. *)
Definition proper_ancestor (nm : gmap Key Node) (a k : Key) : Prop :=
  tc (edge_of parents nm) k a.

(** [d] is reached from [k] by one or more child edges. *)
Definition proper_descendant (nm : gmap Key Node) (d k : Key) : Prop :=
  tc (edge_of children nm) k d.

(** Every edge leads to a registered node. *)
Definition closed (edges : Node -> gset Key) (nm : gmap Key Node) : Prop :=
  map_Forall (fun _ n => set_Forall (fun p => p ∈ dom nm) (edges n)) nm.

(** Every node is filed under its own key and every edge leads to a
    registered node of strictly smaller measure. *)
Definition measured (edges : Node -> gset Key) (nm : gmap Key Node)
    (mu : Key -> nat) : Prop :=
  map_Forall
    (fun k n => key n = k ∧
                set_Forall (fun p => p ∈ dom nm ∧ mu p < mu k) (edges n)) nm.

(** A directed acyclic graph of [depth] layers: parents lie on lower
    layers, children on higher ones. *)
Definition layered (rank : Key -> nat) (depth : nat) (nm : gmap Key Node)
  : Prop :=
  map_Forall
    (fun k n =>
       key n = k ∧ rank k < depth ∧
       set_Forall (fun p => p ∈ dom nm ∧ rank p < rank k) (parents n) ∧
       set_Forall (fun c => c ∈ dom nm ∧ rank k < rank c) (children n)) nm.

End HostNode.
Export HostNode.

(** ** Plan steps *)

Module Operations.

Inductive op_class : Type := CreateSQL | AlterSQL | ReverseAlterSQL | DeleteSQL.

(** Modelled from the spec: [migrate_sql/operations.py] is not among the
    sources.  A plan step is an action tag, the name of the construct, the
    forward and the reverse payload; [AlterSQL] and [CreateSQL] also take
    the [dependencies] keyword.  The classes define no equality of their
    own, so [==] on two steps is the identity of the objects: [op_id] is
    the identity of the step, given at construction. *)
Record operation : Type := mkOperation {
  op_id : nat;
  op_cls : op_class;
  op_name : string;
  op_sql : pyval;
  op_reverse_sql : pyval;
  op_dependencies : option (gset Key)
}.

(** [a == b] on two steps. *)
Definition op_eqb (a b : operation) : bool := Nat.eqb (op_id a) (op_id b).

(** The second component of a dependency tuple: the [SQL_BLOB] marker of
    this package, or the model name of a dependency of the host. *)
Inductive dep_domain : Type :=
| SQL_BLOB
| HostModel (model_name : string).

(** The fourth component: [latest_operations.get(...)] for the markers of
    this package, a value of the host otherwise. *)
Inductive dep_info : Type :=
| InfoNone
| InfoOperation (op : operation)
| InfoHost (v : pyval).

Record dependency : Type := mkDependency {
  dep_app : string;
  dep_dom : dep_domain;
  dep_name : string;
  dep_inf : dep_info
}.

(** [info == operation] *)
Definition info_eqb (info : dep_info) (op : operation) : bool :=
  match info with
  | InfoOperation o => op_eqb o op
  | InfoNone | InfoHost _ => false
  end.

(** What [add_operation(app_label, operation, dependencies=deps)] of the
    host records. *)
Record step : Type := mkStep {
  step_app : string;
  step_op : operation;
  step_deps : list dependency
}.

End Operations.
Export Operations.

(** ** migrate_sql/autodetector.py *)

Module Autodetector.

(** [next((i for i, k in enumerate(l) if p(k)), len(l))] *)
Fixpoint first_index {A} (p : A -> bool) (l : list A) : nat :=
  match l with
  | [] => 0
  | x :: l' => if p x then 0 else S (first_index p l')
  end.

(** [l.insert(pos, x)] *)
Definition list_insert {A} (pos : nat) (x : A) (l : list A) : list A :=
  take pos l ++ x :: drop pos l.

(** A [for] loop whose body may raise. *)
Fixpoint for_each {S} (body : S -> Key -> result S) (keys : list Key) (s : S)
  : result S :=
  match keys with
  | [] => Ok s
  | k :: rest => s' ← body s k; for_each body rest s'
  end.

(** The object [MigrationAutodetector] during [generate_changed_sql]: its
    two graphs, the steps handed to the host's [add_operation] so far, the
    local dictionary [latest_operations], and the number of steps
    constructed so far (the identity of the next one). *)
Record planner : Type := mkPlanner {
  from_sql_graph : SqlStateGraph;
  to_sql_graph : SqlStateGraph;
  generated_operations : list step;
  latest_operations : gmap Key operation;
  next_id : nat
}.

(** Every step known to the planner was constructed before the next one
    will be, and no two recorded steps share an identity. *)
Definition fresh_ids (s : planner) : Prop :=
  (∀ st, st ∈ generated_operations s -> op_id (step_op st) < next_id s) ∧
  (∀ k o, latest_operations s !! k = Some o -> op_id o < next_id s) ∧
  NoDup ((fun st => op_id (step_op st)) <$> generated_operations s).

(** [__init__]: [custom_sql] is the attribute of the from state, if any. *)
Definition init (custom_sql : option SqlStateGraph) (to_graph : SqlStateGraph)
  : result planner :=
  let from_graph := default empty_graph custom_sql in
  match resolve_dependencies from_graph with
  | (g, Ok _) =>
      Ok {| from_sql_graph := g; to_sql_graph := to_graph;
            generated_operations := []; latest_operations := ∅; next_id := 0 |}
  | (_, Err e) => Err e
  end.

(** [(sql_dep[0], SQL_BLOB, sql_dep[1], latest_operations.get(sql_dep))] *)
Definition marker (latest : gmap Key operation) (sql_dep : Key) : dependency :=
  {| dep_app := sql_dep.1;
     dep_dom := SQL_BLOB;
     dep_name := sql_dep.2;
     dep_inf := match latest !! sql_dep with
                | Some op => InfoOperation op
                | None => InfoNone
                end |}.

(** The body of the loop of lines 45-56. *)
Definition changed_step (from_graph to_graph : SqlStateGraph)
    (changed_keys : gset Key) (k : Key) : result (gset Key) :=
  old_node ← getitem (nodes from_graph) k;
  new_node ← getitem (nodes to_graph) k;
  if py_eq (sql old_node) (sql new_node) then Ok changed_keys
  else Ok (changed_keys ∪ {[k]}).

(** The equality of two constructs in the words of the spec: forward and
    reverse payloads, sequences compared by the values they iterate. *)
Definition spec_construct_eq (a b : SqlItemNode) : bool :=
  py_eq (iterated (sql a)) (iterated (sql b)) &&
  py_eq (iterated (reverse_sql a)) (iterated (reverse_sql b)).

(** What a step says, apart from its identity and its markers. *)
Definition step_summary (st : step)
  : string * op_class * string * pyval * pyval :=
  (step_app st, op_cls (step_op st), op_name (step_op st),
   op_sql (step_op st), op_reverse_sql (step_op st)).

(** The teardown step of the spec for one key of the plan order: a
    [ReverseAlterSQL] of the old reverse statement, undone by the old
    forward statement, when the key is changed and the old reverse
    statement is not empty. *)
Definition spec_teardown (from_nodes : gmap Key SqlItemNode)
    (changed_keys : gset Key) (k : Key)
  : option (string * op_class * string * pyval * pyval) :=
  if decide (k ∈ changed_keys) then
    old_node ← from_nodes !! k;
    if truthy (reverse_sql old_node)
    then Some (k.1, ReverseAlterSQL, k.2, reverse_sql old_node, sql old_node)
    else None
  else None.

(** [check_dependency]; [host_check] is the method of the base class. *)
Definition check_dependency (host_check : operation -> dependency -> bool)
    (op : operation) (dep : dependency) : bool :=
  match dep_dom dep with
  | SQL_BLOB => info_eqb (dep_inf dep) op
  | HostModel _ => host_check op dep
  end.

(** What is known of the order in which Python iterates over a set:
    every element comes once. *)
Definition iterates (set_iter : gset Key -> list Key) : Prop :=
  ∀ s, set_iter s ≡ₚ elements s.

Section Planner.

(** The order in which Python iterates over a set. *)
Variable set_iter : gset Key -> list Key.

(** The inner loop of [sort_sql_changes], lines 32-35. *)
Fixpoint cascade (all_keys : gset Key) (pos : nat) (descs : list Key)
    (result_keys : list Key) (changed_keys : gset Key)
  : list Key * gset Key :=
  match descs with
  | [] => (result_keys, changed_keys)
  | desc :: rest =>
      if decide ((desc ∉ all_keys) ∧ (desc ∉ result_keys)) then
        cascade all_keys pos rest
          (list_insert pos desc result_keys) (changed_keys ∪ {[desc]})
      else cascade all_keys pos rest result_keys changed_keys
  end.

(** The body of the outer loop, lines 24-35; [depth] is the recursion
    budget of the interpreter. *)
Definition sort_step (depth : nat) (to_graph : SqlStateGraph)
    (all_keys : gset Key) (st : list Key * gset Key) (k : Key)
  : result (list Key * gset Key) :=
  let '(result_keys, changed_keys) := st in
  node ← getitem (node_map to_graph) k;
  full ← ancestors depth (node_map to_graph) node;
  let ancs := rev (removelast full) in
  let pos := first_index (fun x => bool_decide (x ∈ ancs)) result_keys in
  let result_keys := list_insert pos k result_keys in
  if decide (k ∈ changed_keys) then
    dfull ← descendants depth (node_map to_graph) node;
    let descs := rev (removelast dfull) in
    Ok (cascade all_keys pos descs result_keys changed_keys)
  else Ok (result_keys, changed_keys).

(** The earliest-ancestor rule of the spec applied to any key [k]: the
    index of the first element of [result_keys] that is a proper
    ancestor of [k], or the length of [result_keys]. *)
Definition spec_earliest_ancestor_position (depth : nat)
    (to_graph : SqlStateGraph) (result_keys : list Key) (k : Key)
  : result nat :=
  node ← getitem (node_map to_graph) k;
  full ← ancestors depth (node_map to_graph) node;
  Ok (first_index (fun x => bool_decide (x ∈ removelast full)) result_keys).

(** [sort_sql_changes]: the order, and [changed_keys] as the call
    leaves it. *)
Definition sort_sql_changes (depth : nat) (to_graph : SqlStateGraph)
    (new_keys changed_keys : gset Key) : result (list Key * gset Key) :=
  let all_keys := new_keys ∪ changed_keys in
  for_each (sort_step depth to_graph all_keys) (set_iter all_keys)
    ([], changed_keys).

(** The body of the first loop of [generate_changed_sql], lines 62-82. *)
Definition teardown_step (changed_keys : gset Key) (s : planner) (k : Key)
  : result planner :=
  if decide (k ∉ changed_keys) then Ok s
  else
    let '(app_label, sql_name) := k in
    let g := from_sql_graph s in
    old_node ← getitem (nodes g) k;
    let operation :=
      mkOperation (next_id s) ReverseAlterSQL sql_name
        (reverse_sql old_node) (sql old_node) None in
    fnode ← getitem (node_map g) k;
    (* sql_deps is the very set of the node: add() changes the node *)
    let fnode' := add_child k fnode in
    let sql_deps := children fnode' in
    let g' := {| nodes := nodes g;
                 node_map := <[k := fnode']> (node_map g);
                 dependencies := dependencies g |} in
    let deps := map (marker (latest_operations s)) (set_iter sql_deps) in
    let generated :=
      if truthy (reverse_sql old_node)
      then generated_operations s ++ [mkStep app_label operation deps]
      else generated_operations s in
    Ok {| from_sql_graph := g';
          to_sql_graph := to_sql_graph s;
          generated_operations := generated;
          latest_operations := <[k := operation]> (latest_operations s);
          next_id := S (next_id s) |}.

(** The body of the second loop, lines 84-102. *)
Definition rebuild_step (changed_keys : gset Key) (s : planner) (k : Key)
  : result planner :=
  let '(app_label, sql_name) := k in
  let g := to_sql_graph s in
  new_node ← getitem (nodes g) k;
  let operation_cls :=
    if decide (k ∈ changed_keys) then AlterSQL else CreateSQL in
  tnode ← getitem (node_map g) k;
  let operation :=
    mkOperation (next_id s) operation_cls sql_name
      (sql new_node) (reverse_sql new_node) (Some (parents tnode)) in
  (* sql_deps is the very set of the node: add() changes the node *)
  let tnode' := add_parent k tnode in
  let sql_deps := parents tnode' in
  let g' := {| nodes := nodes g;
               node_map := <[k := tnode']> (node_map g);
               dependencies := dependencies g |} in
  let deps := map (marker (latest_operations s)) (set_iter sql_deps) in
  Ok {| from_sql_graph := from_sql_graph s;
        to_sql_graph := g';
        generated_operations :=
          generated_operations s ++ [mkStep app_label operation deps];
        latest_operations := <[k := operation]> (latest_operations s);
        next_id := S (next_id s) |}.

(** The body of the third loop, lines 104-110. *)
Definition delete_step (s : planner) (k : Key) : result planner :=
  let '(app_label, sql_name) := k in
  old_node ← getitem (nodes (from_sql_graph s)) k;
  let operation :=
    mkOperation (next_id s) DeleteSQL sql_name
      (reverse_sql old_node) (sql old_node) None in
  Ok {| from_sql_graph := from_sql_graph s;
        to_sql_graph := to_sql_graph s;
        generated_operations :=
          generated_operations s ++ [mkStep app_label operation []];
        latest_operations := latest_operations s;
        next_id := S (next_id s) |}.

(** Lines 39-56: the three key sets of the differ. *)
Definition diff_keys (from_graph to_graph : SqlStateGraph)
  : result (gset Key * gset Key * gset Key) :=
  let from_keys := dom (nodes from_graph) in
  let to_keys := dom (nodes to_graph) in
  let new_keys := to_keys ∖ from_keys in
  let deleted_keys := from_keys ∖ to_keys in
  changed_keys ← for_each (changed_step from_graph to_graph)
                    (set_iter (from_keys ∩ to_keys)) ∅;
  Ok (new_keys, deleted_keys, changed_keys).

(** [generate_changed_sql]: the planner it leaves, with the order
    and the final [changed_keys]. *)
Definition generate_changed_sql (depth : nat) (s : planner)
  : result (planner * list Key * gset Key) :=
  '(new_keys, deleted_keys, changed_keys) ←
    diff_keys (from_sql_graph s) (to_sql_graph s);
  '(keys, changed_keys) ←
    sort_sql_changes depth (to_sql_graph s) new_keys changed_keys;
  let s0 := {| from_sql_graph := from_sql_graph s;
               to_sql_graph := to_sql_graph s;
               generated_operations := generated_operations s;
               latest_operations := ∅;
               next_id := next_id s |} in
  s1 ← for_each (teardown_step changed_keys) keys s0;
  s2 ← for_each (rebuild_step changed_keys) (rev keys) s1;
  s3 ← for_each delete_step (set_iter deleted_keys) s2;
  Ok (s3, keys, changed_keys).

End Planner.

End Autodetector.
Export Autodetector.

(** ** Small snapshots used to exercise the statements *)

Module Examples.

Definition top_books : Key := ("test_app", "top_books").
Definition top_authors : Key := ("test_app", "top_authors").

Definition books_v1 : SqlItemNode :=
  mkSqlItemNode (PStr "CREATE FUNCTION top_books() -- 1")
                (PStr "DROP FUNCTION top_books()").
Definition books_v2 : SqlItemNode :=
  mkSqlItemNode (PStr "CREATE FUNCTION top_books(int) -- 2")
                (PStr "DROP FUNCTION top_books(int)").
Definition authors_v1 : SqlItemNode :=
  mkSqlItemNode (PStr "CREATE FUNCTION top_authors() -- 1")
                (PStr "DROP FUNCTION top_authors()").

Definition one_book : SqlStateGraph :=
  add_node empty_graph top_authors authors_v1.

Definition two_books : SqlStateGraph :=
  add_node one_book top_books books_v1.

(** [top_authors] is declared to depend on [top_books]. *)
Definition two_books_pending : SqlStateGraph :=
  add_lazy_dependency two_books "test_app" top_authors top_books.

(** One application declaring [top_books] twice. *)
Definition duplicate_config : list AppConfig :=
  [ mkAppConfig "test_app"
      (Some [ mkSqlItem "top_books" (sql books_v1) (reverse_sql books_v1) [];
              mkSqlItem "top_books" (sql books_v2) (reverse_sql books_v2) [] ]) ].

(** A changed construct [kind] with two unchanged dependents, [rate] and
    [sale], that do not depend on each other. *)
Definition kind : Key := ("app", "kind").
Definition rate : Key := ("app", "rate").
Definition sale : Key := ("app", "sale").

Definition construct (forward backward : string) : SqlItemNode :=
  mkSqlItemNode (PStr forward) (PStr backward).

Definition diamond (kind_sql : string) : SqlStateGraph :=
  (resolve_dependencies
     (add_lazy_dependency
        (add_lazy_dependency
           (add_node
              (add_node
                 (add_node empty_graph kind (construct kind_sql "DROP TYPE kind"))
                 rate (construct "CREATE TYPE rate" "DROP TYPE rate"))
              sale (construct "CREATE TYPE sale" "DROP TYPE sale"))
           "app" rate kind)
        "app" sale kind)).1.

Definition diamond_from : SqlStateGraph := diamond "CREATE TYPE kind -- 1".
Definition diamond_to : SqlStateGraph := diamond "CREATE TYPE kind -- 2".

Definition diamond_rank (k : Key) : nat := if decide (k = kind) then 0 else 1.

(** Two constructs declared to depend on each other. *)
Definition loop : SqlStateGraph :=
  (resolve_dependencies
     (add_lazy_dependency
        (add_lazy_dependency
           (add_node
              (add_node empty_graph rate
                 (construct "CREATE TYPE rate" "DROP TYPE rate"))
              sale (construct "CREATE TYPE sale" "DROP TYPE sale"))
           "app" rate sale)
        "app" sale rate)).1.

(** The same forward statement with two different reverse statements. *)
Definition reverse_only_from : SqlStateGraph :=
  add_node empty_graph top_books
    (mkSqlItemNode (sql books_v1) (PStr "DROP FUNCTION top_books()")).
Definition reverse_only_to : SqlStateGraph :=
  add_node empty_graph top_books
    (mkSqlItemNode (sql books_v1) (PStr "DROP FUNCTION IF EXISTS top_books()")).

(** The same statement with its parameters in a list and in a tuple. *)
Definition params_list : SqlItemNode :=
  mkSqlItemNode
    (PList [PTuple [PStr "SELECT * FROM book WHERE rating > %s"; PList [PInt 5]]])
    (PStr "DROP FUNCTION top_books()").
Definition params_tuple : SqlItemNode :=
  mkSqlItemNode
    (PList [PTuple [PStr "SELECT * FROM book WHERE rating > %s"; PTuple [PInt 5]]])
    (PStr "DROP FUNCTION top_books()").
Definition params_from : SqlStateGraph := add_node empty_graph top_books params_list.
Definition params_to : SqlStateGraph := add_node empty_graph top_books params_tuple.

(** A planner about to run [generate_changed_sql]. *)
Definition planning (from_graph to_graph : SqlStateGraph) : planner :=
  {| from_sql_graph := from_graph; to_sql_graph := to_graph;
     generated_operations := []; latest_operations := ∅; next_id := 0 |}.

(** [top_books] with nothing to undo it. *)
Definition no_reverse_from : SqlStateGraph :=
  add_node empty_graph top_books (mkSqlItemNode (sql books_v1) PNone).

(** Scenario A of the spec: nothing before, [top_books] after. *)
Definition only_books : SqlStateGraph := add_node empty_graph top_books books_v1.

(** A step, and the marker that waits for it. *)
Definition create_books : operation :=
  mkOperation 7 CreateSQL "top_books" (sql books_v1) (reverse_sql books_v1) (Some ∅).
Definition wait_for_books : dependency :=
  marker {[top_books := create_books]} top_books.

(** Scenario B of the spec: [top_books] before and after, changed. *)
Definition changed_books : SqlStateGraph := add_node empty_graph top_books books_v2.

(** [top_authors] declared to depend on a construct nobody registered. *)
Definition dangling : SqlStateGraph :=
  add_lazy_dependency one_book "test_app" top_authors top_books.

(** Two applications; [top_narrations] is declared before the constructs it
    depends on, one of which belongs to the application that comes last. *)
Definition two_apps : list AppConfig :=
  [ mkAppConfig "test_app"
      (Some [ mkSqlItem "top_narrations" (PStr "CREATE TYPE top_narrations")
                (PStr "DROP TYPE top_narrations")
                [("test_app2", "top_sales"); ("test_app", "top_books")];
              mkSqlItem "top_books" (sql books_v1) (reverse_sql books_v1) [] ]);
    mkAppConfig "plain_app" None;
    mkAppConfig "test_app2"
      (Some [ mkSqlItem "top_sales" (PStr "CREATE TYPE top_sales")
                (PStr "DROP TYPE top_sales") [] ]) ].

(** The same without the second application. *)
Definition one_app_short : list AppConfig := take 2 two_apps.

(** A new construct [currency], a changed one [price], and an unchanged
    [invoice] that depends on both. *)
Definition currency : Key := ("app", "currency").
Definition price : Key := ("app", "price").
Definition invoice : Key := ("app", "invoice").

Definition billing_from : SqlStateGraph :=
  (resolve_dependencies
     (add_lazy_dependency
        (add_node
           (add_node empty_graph price
              (construct "CREATE TYPE price -- 1" "DROP TYPE price"))
           invoice (construct "CREATE TYPE invoice" "DROP TYPE invoice"))
        "app" invoice price)).1.

Definition billing_to : SqlStateGraph :=
  (resolve_dependencies
     (add_lazy_dependency
        (add_lazy_dependency
           (add_node
              (add_node
                 (add_node empty_graph price
                    (construct "CREATE TYPE price -- 2" "DROP TYPE price"))
                 invoice (construct "CREATE TYPE invoice" "DROP TYPE invoice"))
              currency (construct "CREATE TYPE currency" "DROP TYPE currency"))
           "app" invoice price)
        "app" invoice currency)).1.

Definition billing_rank (k : Key) : nat := if decide (k = invoice) then 1 else 0.

End Examples.

(** ** What the declarations of the applications say *)

Module Declarations.

(** The key under which [build_current_graph] files an item. *)
Definition item_key (app_label : string) (sql_item : SqlItem) : Key :=
  (app_label, item_name sql_item).

(** The constructs declared by one application, in order. *)
Definition config_items (config : AppConfig) : list (Key * SqlItemNode) :=
  match custom_sql config with
  | None => []
  | Some items =>
      (fun it => (item_key (label config) it,
                  mkSqlItemNode (item_sql it) (item_reverse_sql it))) <$> items
  end.

(** The dependencies declared by one application, in order. *)
Definition config_dependencies (config : AppConfig) : list (string * Key * Key) :=
  match custom_sql config with
  | None => []
  | Some items =>
      items ≫= fun it =>
        (fun dep => (label config, item_key (label config) it, dep))
          <$> item_dependencies it
  end.

Definition declared_items (configs : list AppConfig) : list (Key * SqlItemNode) :=
  configs ≫= config_items.

Definition declared_dependencies (configs : list AppConfig)
  : list (string * Key * Key) :=
  configs ≫= config_dependencies.

(** Every declared dependency names a declared construct. *)
Definition targets_declared (configs : list AppConfig) : Prop :=
  Forall (fun dep => dep.2 ∈ (declared_items configs).*1)
    (declared_dependencies configs).

(** The graph holds the constructs [its] (a later one replacing an earlier
    one of the same key), a fresh node for each, and the pending
    declarations [ds]. *)
Definition filed (g : SqlStateGraph) (its : list (Key * SqlItemNode))
    (ds : list (string * Key * Key)) : Prop :=
  nodes g = list_to_map (reverse its) ∧
  node_map g =
    list_to_map (reverse ((fun kv => (kv.1, new_node kv.1)) <$> its)) ∧
  dependencies g = ds.

End Declarations.
Export Declarations.

(** ** What can be said of an order of keys *)

Module Orders.

(** No key of the list is a proper ancestor of a key that stands after it:
    every key stands before all of its ancestors that are in the list. *)
Definition dependents_first (nm : gmap Key Node) (l : list Key) : Prop :=
  StronglySorted (fun x y => ¬ proper_ancestor nm x y) l.

(** Every construct that depends on a changed one is itself new or
    changed. *)
Definition nothing_to_cascade (nm : gmap Key Node)
    (new_keys changed_keys : gset Key) : Prop :=
  ∀ k d, k ∈ changed_keys -> proper_descendant nm d k ->
         d ∈ new_keys ∪ changed_keys.

(** The ordering in the words of the spec, one key of the input set at a
    time, between two states of the loop (the result so far and the changed
    keys so far).  The key goes where the first of its proper ancestors
    stands in the result so far, or to the end when none stands there; the
    keys that were there keep their order.  The only other keys that
    arrive with it are, when the key is a changed one, its proper
    descendants that are neither in the input set nor in the result so far:
    they all arrive, wherever they are put, and they join the changed
    keys. *)
Inductive spec_ordering (nm : gmap Key Node) (all_keys : gset Key)
  : list Key -> list Key * gset Key -> list Key * gset Key -> Prop :=
| ordering_done st : spec_ordering nm all_keys [] st st
| ordering_key k ks result_keys changed_keys pos after changed_keys' final :
    (pos <= length result_keys)%nat ->
    (∀ j x, (j < pos)%nat -> result_keys !! j = Some x ->
            ¬ proper_ancestor nm x k) ->
    ((pos < length result_keys)%nat ->
       ∃ a, result_keys !! pos = Some a ∧ proper_ancestor nm a k) ->
    filter (fun x => x ∈ k :: result_keys) after =
      take pos result_keys ++ k :: drop pos result_keys ->
    (∀ d, d ∈ after ∧ (d ∉ k :: result_keys) ↔
          k ∈ changed_keys ∧ proper_descendant nm d k ∧
          (d ∉ all_keys) ∧ (d ∉ result_keys)) ->
    (∀ d, d ∈ changed_keys' ↔
          d ∈ changed_keys ∨ (d ∈ after ∧ (d ∉ k :: result_keys))) ->
    spec_ordering nm all_keys ks (after, changed_keys') final ->
    spec_ordering nm all_keys (k :: ks) (result_keys, changed_keys) final.

End Orders.
Export Orders.

(** ** What the plan should say *)

Module Plans.

(** A step with the [dependencies] of its operation. *)
Definition step_record (st : step)
  : (string * op_class * string * pyval * pyval) * option (gset Key) :=
  (step_summary st, op_dependencies (step_op st)).

(** The rebuild step of a key: [AlterSQL] for a changed key, [CreateSQL]
    otherwise, with the statements of the to graph and, as dependencies,
    the parents of the key in the to graph. *)
Definition rebuild_entry (to_graph : SqlStateGraph) (changed_keys : gset Key)
    (k : Key)
  : option ((string * op_class * string * pyval * pyval) * option (gset Key)) :=
  new_node ← nodes to_graph !! k;
  tnode ← node_map to_graph !! k;
  Some ((k.1, if decide (k ∈ changed_keys) then AlterSQL else CreateSQL, k.2,
         sql new_node, reverse_sql new_node),
        Some (parents tnode)).

(** The step of a key that is gone: the old reverse statement, undone by
    the old forward statement. *)
Definition delete_entry (from_nodes : gmap Key SqlItemNode) (k : Key)
  : option (string * op_class * string * pyval * pyval) :=
  old_node ← from_nodes !! k;
  Some (k.1, DeleteSQL, k.2, reverse_sql old_node, sql old_node).

(** The steps added to [base] since the counter stood at [first_id]: their
    identities rise along the list, and every marker they carry is of the
    kind of this package and names, if any, an operation constructed in
    between, before the step that carries it. *)
Definition chained (base : list step) (first_id : nat) (s : planner) : Prop :=
  ∃ emitted,
    generated_operations s = base ++ emitted ∧
    (first_id <= next_id s)%nat ∧
    (∀ k o, latest_operations s !! k = Some o ->
            (first_id <= op_id o < next_id s)%nat) ∧
    (∀ st, st ∈ emitted ->
           (first_id <= op_id (step_op st) < next_id s)%nat) ∧
    (∀ i j a b, emitted !! i = Some a -> emitted !! j = Some b ->
                (i < j)%nat -> (op_id (step_op a) < op_id (step_op b))%nat) ∧
    (∀ st d, st ∈ emitted -> d ∈ step_deps st ->
       dep_dom d = SQL_BLOB ∧
       ∀ o, dep_inf d = InfoOperation o ->
            (first_id <= op_id o < op_id (step_op st))%nat).

End Plans.
Export Plans.

(** * Properties *)

Close Scope string_scope.

(** ** The dependency graph *)

Module GraphFacts.

Lemma wf_empty_graph : wf_graph empty_graph.
Proof.
  split; simpl.
  - set_solver.
  - apply map_Forall_empty.
Qed.

Lemma wf_add_node g k v : wf_graph g -> wf_graph (add_node g k v).
Proof.
  intros [Hd Hk]. split; simpl.
  - rewrite !dom_insert_L. set_solver.
  - apply map_Forall_insert_2; [reflexivity | exact Hk].
Qed.

Lemma wf_remove_node g k : wf_graph g -> wf_graph (remove_node g k).
Proof.
  intros [Hd Hk]. unfold remove_node. case_decide; [|split; assumption].
  split; simpl.
  - rewrite !dom_delete_L. set_solver.
  - intros k' n Hn. apply lookup_delete_Some in Hn as [_ Hn]. exact (Hk _ _ Hn).
Qed.

Lemma wf_add_lazy_dependency g a c p :
  wf_graph g -> wf_graph (add_lazy_dependency g a c p).
Proof. intros [Hd Hk]. split; assumption. Qed.

Lemma getitem_Some {V} (d : gmap Key V) k v : d !! k = Some v -> getitem d k = Ok v.
Proof. unfold getitem. intros ->. reflexivity. Qed.

Lemma getitem_None {V} (d : gmap Key V) k : d !! k = None -> getitem d k = Err (KeyError k).
Proof. unfold getitem. intros ->. reflexivity. Qed.

(** One declaration whose two ends are registered is linked both ways. *)
Lemma resolve_one_linked g app child parent :
  wf_graph g ->
  child ∈ dom (nodes g) -> parent ∈ dom (nodes g) ->
  ∃ g', resolve_one g (app, child, parent) = Ok g' ∧
    nodes g' = nodes g ∧ dependencies g' = dependencies g ∧ wf_graph g' ∧
    ∀ k, match node_map g !! k with
         | None => node_map g' !! k = None
         | Some n =>
             node_map g' !! k =
               Some {| key := key n;
                       children := if decide (k = parent)
                                   then children n ∪ {[child]} else children n;
                       parents := if decide (k = child)
                                  then parents n ∪ {[parent]} else parents n |}
         end.
Proof.
  intros [Hd Hk] Hc Hp.
  assert (is_Some (node_map g !! child)) as [cn Hcn]
    by (apply elem_of_dom; set_solver).
  assert (is_Some (node_map g !! parent)) as [pn Hpn]
    by (apply elem_of_dom; set_solver).
  pose proof (Hk _ _ Hcn) as Kc. pose proof (Hk _ _ Hpn) as Kp. simpl in Kc, Kp.
  unfold resolve_one.
  rewrite decide_False by (intros H; exact (H Hc)).
  rewrite decide_False by (intros H; exact (H Hp)).
  rewrite (getitem_Some _ _ _ Hcn), (getitem_Some _ _ _ Hpn). simpl.
  destruct (decide (child = parent)) as [->|Hne].
  - assert (cn = pn) as -> by congruence.
    rewrite !(getitem_Some _ parent (add_parent (key pn) pn))
      by apply lookup_insert_eq.
    simpl. eexists. split; [reflexivity|]. simpl.
    split; [reflexivity|]. split; [reflexivity|]. split.
    + split; simpl.
      * rewrite !dom_insert_L. set_solver.
      * rewrite insert_insert_eq. apply map_Forall_insert_2; [exact Kp | exact Hk].
    + intros k. rewrite insert_insert_eq.
      destruct (decide (k = parent)) as [->|Hk'].
      * rewrite Hpn, lookup_insert_eq. destruct pn; simpl in *; subst; reflexivity.
      * rewrite lookup_insert_ne by congruence.
        destruct (node_map g !! k) as [n|] eqn:E; [|reflexivity].
        destruct n; reflexivity.
  - rewrite (getitem_Some _ parent pn)
      by (rewrite lookup_insert_ne by exact Hne; exact Hpn).
    rewrite (getitem_Some _ child (add_parent (key pn) cn))
      by apply lookup_insert_eq.
    simpl. eexists. split; [reflexivity|]. simpl.
    split; [reflexivity|]. split; [reflexivity|]. split.
    + split; simpl.
      * rewrite !dom_insert_L. set_solver.
      * apply map_Forall_insert_2; [exact Kp|].
        apply map_Forall_insert_2; [exact Kc | exact Hk].
    + intros k.
      destruct (decide (k = parent)) as [->|Hk1].
      * rewrite Hpn, lookup_insert_eq.
        rewrite decide_False by congruence.
        destruct pn, cn; simpl in *; subst; reflexivity.
      * rewrite lookup_insert_ne by congruence.
        destruct (decide (k = child)) as [->|Hk2].
        -- rewrite Hcn, lookup_insert_eq.
           destruct pn, cn; simpl in *; subst; reflexivity.
        -- rewrite lookup_insert_ne by congruence.
           destruct (node_map g !! k) as [n|] eqn:E; [|reflexivity].
           destruct n; reflexivity.
Qed.


(** The whole loop when nothing is missing. *)
Lemma resolve_loop_linked deps : ∀ g,
  wf_graph g ->
  Forall (fun dep => dep.1.2 ∈ dom (nodes g) ∧ dep.2 ∈ dom (nodes g)) deps ->
  ∃ g', resolve_loop deps g = (g', Ok tt) ∧
    nodes g' = nodes g ∧ dependencies g' = dependencies g ∧ wf_graph g' ∧
    ∀ k, match node_map g !! k with
         | None => node_map g' !! k = None
         | Some n =>
             ∃ n', node_map g' !! k = Some n' ∧ key n' = key n ∧
               (∀ p, p ∈ parents n' ↔ p ∈ parents n ∨ ∃ a, (a, k, p) ∈ deps) ∧
               (∀ c, c ∈ children n' ↔ c ∈ children n ∨ ∃ a, (a, c, k) ∈ deps)
         end.
Proof.
  induction deps as [|[[a c] p] deps IH]; intros g Hwf Hall.
  - exists g. simpl. repeat (split; [reflexivity || assumption|]).
    intros k. destruct (node_map g !! k) as [n|]; [|reflexivity].
    exists n. repeat split; try tauto.
    + intros [?|[? H]]; [assumption | inversion H].
    + intros [?|[? H]]; [assumption | inversion H].
  - inversion Hall as [|? ? [Hc Hp] Hrest]; subst. simpl in Hc, Hp.
    destruct (resolve_one_linked g a c p Hwf Hc Hp)
      as (g1 & E1 & N1 & D1 & W1 & M1).
    destruct (IH g1 W1) as (g' & E' & N' & D' & W' & M').
    { rewrite N1. exact Hrest. }
    exists g'. cbn [resolve_loop]. rewrite E1.
    split; [exact E'|]. split; [congruence|]. split; [congruence|].
    split; [exact W'|].
    intros k. specialize (M1 k). specialize (M' k).
    destruct (node_map g !! k) as [n|].
    + rewrite M1 in M'. destruct M' as (n' & L' & K' & P' & C').
      exists n'. split; [exact L'|]. split; [exact K'|]. simpl in *. split.
      * intros x. rewrite P'. destruct (decide (k = c)) as [->|Hne].
        -- rewrite elem_of_union, elem_of_singleton. split.
           ++ intros [[?| ->]|[a' ?]]; [tauto| |].
              ** right. exists a. left.
              ** right. exists a'. right. assumption.
           ++ intros [?|[a' H]]; [tauto|].
              apply elem_of_cons in H as [H|H].
              ** inversion H; subst. tauto.
              ** right. exists a'. assumption.
        -- split.
           ++ intros [?|[a' ?]]; [tauto|]. right. exists a'. right. assumption.
           ++ intros [?|[a' H]]; [tauto|].
              apply elem_of_cons in H as [H|H].
              ** inversion H; subst. congruence.
              ** right. exists a'. assumption.
      * intros x. rewrite C'. destruct (decide (k = p)) as [->|Hne].
        -- rewrite elem_of_union, elem_of_singleton. split.
           ++ intros [[?| ->]|[a' ?]]; [tauto| |].
              ** right. exists a. left.
              ** right. exists a'. right. assumption.
           ++ intros [?|[a' H]]; [tauto|].
              apply elem_of_cons in H as [H|H].
              ** inversion H; subst. tauto.
              ** right. exists a'. assumption.
        -- split.
           ++ intros [?|[a' ?]]; [tauto|]. right. exists a'. right. assumption.
           ++ intros [?|[a' H]]; [tauto|].
              apply elem_of_cons in H as [H|H].
              ** inversion H; subst. congruence.
              ** right. exists a'. assumption.
    + rewrite M1 in M'. exact M'.
Qed.

(** The whole loop when some declaration names an unregistered key. *)
Lemma resolve_loop_missing deps : ∀ g,
  wf_graph g ->
  Exists (fun dep => (dep.1.2 ∉ dom (nodes g)) ∨ (dep.2 ∉ dom (nodes g))) deps ->
  ∃ g' a role k child parent,
    resolve_loop deps g = (g', Err (NodeNotFoundError a role k)) ∧
    (k ∉ dom (nodes g)) ∧ (a, child, parent) ∈ deps ∧
    k = match role with RoleChild => child | RoleParent => parent end.
Proof.
  induction deps as [|[[a c] p] deps IH]; intros g Hwf Hex.
  - inversion Hex.
  - cbn [resolve_loop]. destruct (decide (c ∈ dom (nodes g))) as [Hc|Hc].
    + destruct (decide (p ∈ dom (nodes g))) as [Hp|Hp].
      * destruct (resolve_one_linked g a c p Hwf Hc Hp)
          as (g1 & E1 & N1 & D1 & W1 & M1).
        rewrite E1.
        destruct (IH g1 W1) as (g' & a' & role & k & ch & pa & E & Hk & Hin & Hr).
        { rewrite N1. inversion Hex as [? ? [H|H]|]; subst; simpl in *; tauto. }
        exists g', a', role, k, ch, pa. rewrite <- N1.
        repeat split; try assumption. right. exact Hin.
      * exists g, a, RoleParent, p, c, p. unfold resolve_one.
        rewrite decide_False by tauto. rewrite decide_True by exact Hp.
        repeat split; [exact Hp|left].
    + exists g, a, RoleChild, c, c, p. unfold resolve_one.
      rewrite decide_True by exact Hc.
      repeat split; [exact Hc|left].
Qed.

Lemma wf_resolve_dependencies g :
  wf_graph g ->
  Forall (fun dep => dep.1.2 ∈ dom (nodes g) ∧ dep.2 ∈ dom (nodes g))
    (dependencies g) ->
  wf_graph (resolve_dependencies g).1.
Proof.
  intros Hwf Hall.
  destruct (resolve_loop_linked _ g Hwf Hall) as (g' & E & _ & _ & W & _).
  unfold resolve_dependencies. rewrite E. exact W.
Qed.

(** C7: [resolve_dependencies] raises [NodeNotFoundError], carrying the
    label of the declaring application and the absent key, as soon as a
    pending declaration names a child or a parent that is not registered;
    when every named key is registered it ends normally and, for every
    pending declaration, the parent is in the parent set of the child and
    the child in the child set of the parent, nothing else being added. *)
Theorem resolve_dependencies_links_or_names_missing (g : SqlStateGraph) :
  wf_graph g ->
  (Exists (fun dep => (dep.1.2 ∉ dom (nodes g)) ∨ (dep.2 ∉ dom (nodes g)))
     (dependencies g) ->
   ∃ g' app_label role k child parent,
     resolve_dependencies g = (g', Err (NodeNotFoundError app_label role k)) ∧
     (k ∉ dom (nodes g)) ∧
     (app_label, child, parent) ∈ dependencies g ∧
     k = match role with RoleChild => child | RoleParent => parent end)
  ∧
  (Forall (fun dep => dep.1.2 ∈ dom (nodes g) ∧ dep.2 ∈ dom (nodes g))
     (dependencies g) ->
   ∃ g', resolve_dependencies g = (g', Ok tt) ∧
     nodes g' = nodes g ∧ dependencies g' = dependencies g ∧
     dom (node_map g') = dom (node_map g) ∧
     ∀ k n, node_map g !! k = Some n ->
       ∃ n', node_map g' !! k = Some n' ∧ key n' = k ∧
         (∀ p, p ∈ parents n' ↔
               p ∈ parents n ∨ ∃ a, (a, k, p) ∈ dependencies g) ∧
         (∀ c, c ∈ children n' ↔
               c ∈ children n ∨ ∃ a, (a, c, k) ∈ dependencies g)).
Proof.
  intros Hwf. split.
  - intros Hex. apply resolve_loop_missing; assumption.
  - intros Hall.
    destruct (resolve_loop_linked _ g Hwf Hall) as (g' & E & N & D & W & M).
    exists g'. split; [exact E|]. split; [exact N|]. split; [exact D|]. split.
    + apply set_eq. intros k. rewrite !elem_of_dom. specialize (M k).
      destruct (node_map g !! k) as [n|].
      * destruct M as (n' & -> & _). split; eauto.
      * rewrite M. reflexivity.
    + intros k n Hn. specialize (M k). rewrite Hn in M.
      destruct M as (n' & L & K & P & C). exists n'.
      split; [exact L|]. split; [|split; assumption].
      rewrite K. exact (proj2 Hwf _ _ Hn).
Qed.


(** C6, as the code has it: [add_node] never fails.  It files the
    construct and a fresh node without edges under the key and leaves
    every other entry and the pending declarations alone; on a fresh key
    each dictionary grows by exactly one entry, on a key already present
    the construct and the node filed under it are replaced and no entry is
    added. *)
Theorem add_node_registers_or_replaces (g : SqlStateGraph) (k : Key)
    (v : SqlItemNode) :
  nodes (add_node g k v) !! k = Some v ∧
  node_map (add_node g k v) !! k = Some (new_node k) ∧
  (∀ k', k' ≠ k ->
     nodes (add_node g k v) !! k' = nodes g !! k' ∧
     node_map (add_node g k v) !! k' = node_map g !! k') ∧
  dependencies (add_node g k v) = dependencies g ∧
  (nodes g !! k = None -> size (nodes (add_node g k v)) = S (size (nodes g))) ∧
  (node_map g !! k = None ->
     size (node_map (add_node g k v)) = S (size (node_map g))) ∧
  (is_Some (nodes g !! k) -> size (nodes (add_node g k v)) = size (nodes g)) ∧
  (is_Some (node_map g !! k) ->
     size (node_map (add_node g k v)) = size (node_map g)).
Proof.
  unfold add_node; simpl. repeat split.
  - apply lookup_insert_eq.
  - apply lookup_insert_eq.
  - apply lookup_insert_ne. congruence.
  - apply lookup_insert_ne. congruence.
  - intros H. apply map_size_insert_None. exact H.
  - intros H. apply map_size_insert_None. exact H.
  - intros H. apply map_size_insert_Some. exact H.
  - intros H. apply map_size_insert_Some. exact H.
Qed.

Lemma add_node_registers_or_replaces_witness :
  nodes Examples.one_book !! Examples.top_books = None ∧
  size (nodes (add_node Examples.one_book Examples.top_books Examples.books_v1)) = 2.
Proof.
  split; [reflexivity|].
  apply (add_node_registers_or_replaces
           Examples.one_book Examples.top_books Examples.books_v1).
  reflexivity.
Defined.

(** C6, the claim as written fails: registering a key twice raises
    nothing, neither in [add_node] nor in [build_current_graph]; the second
    construct silently takes the place of the first. *)
Lemma add_node_duplicate_key_accepted :
  Examples.top_books ∈ dom (nodes Examples.two_books) ∧
  nodes (add_node Examples.two_books Examples.top_books Examples.books_v2)
    !! Examples.top_books = Some Examples.books_v2 ∧
  size (nodes (add_node Examples.two_books Examples.top_books Examples.books_v2))
    = size (nodes Examples.two_books) ∧
  ∃ g, build_current_graph Examples.duplicate_config = Ok g ∧
       nodes g !! Examples.top_books = Some Examples.books_v2.
Proof.
  split; [compute_done|]. split; [reflexivity|]. split; [reflexivity|].
  eexists. split; reflexivity.
Qed.

(** C10: [remove_node] never raises; when the key is in both dictionaries
    its entry leaves both, otherwise both stay as they are; the pending
    declarations are never touched. *)
Theorem remove_node_frame (g : SqlStateGraph) (k : Key) :
  dependencies (remove_node g k) = dependencies g ∧
  (k ∈ dom (nodes g) ∧ k ∈ dom (node_map g) ->
     nodes (remove_node g k) = delete k (nodes g) ∧
     node_map (remove_node g k) = delete k (node_map g)) ∧
  (¬ (k ∈ dom (nodes g) ∧ k ∈ dom (node_map g)) ->
     nodes (remove_node g k) = nodes g ∧
     node_map (remove_node g k) = node_map g).
Proof.
  unfold remove_node. case_decide; simpl; repeat split; tauto.
Qed.

Lemma remove_node_frame_witness :
  (Examples.top_books ∈ dom (nodes Examples.two_books) ∧
   Examples.top_books ∈ dom (node_map Examples.two_books)) ∧
  nodes (remove_node Examples.two_books Examples.top_books)
    = delete Examples.top_books (nodes Examples.two_books) ∧
  node_map (remove_node Examples.two_books Examples.top_books)
    = delete Examples.top_books (node_map Examples.two_books).
Proof.
  split; [split; compute_done|].
  apply (remove_node_frame Examples.two_books Examples.top_books).
  split; compute_done.
Defined.

Lemma resolve_dependencies_links_or_names_missing_witness :
  wf_graph Examples.two_books_pending ∧
  ∃ g', resolve_dependencies Examples.two_books_pending = (g', Ok tt) ∧
    nodes g' = nodes Examples.two_books_pending ∧
    dependencies g' = dependencies Examples.two_books_pending ∧
    dom (node_map g') = dom (node_map Examples.two_books_pending) ∧
    ∀ k n, node_map Examples.two_books_pending !! k = Some n ->
      ∃ n', node_map g' !! k = Some n' ∧ key n' = k ∧
        (∀ p, p ∈ parents n' ↔
              p ∈ parents n ∨
              ∃ a, (a, k, p) ∈ dependencies Examples.two_books_pending) ∧
        (∀ c, c ∈ children n' ↔
              c ∈ children n ∨
              ∃ a, (a, c, k) ∈ dependencies Examples.two_books_pending).
Proof.
  assert (wf_graph Examples.two_books_pending) as Hwf.
  { repeat (apply wf_add_lazy_dependency || apply wf_add_node).
    apply wf_empty_graph. }
  split; [exact Hwf|].
  apply (resolve_dependencies_links_or_names_missing
           Examples.two_books_pending Hwf).
  unfold Examples.two_books_pending; simpl.
  repeat constructor; compute_done.
Defined.

(** A declaration naming an unregistered parent: the error carries the
    label of the application and the key. *)
Example resolve_dependencies_names_the_missing_parent :
  resolve_dependencies Examples.dangling =
    (Examples.dangling,
     Err (NodeNotFoundError "test_app" RoleParent Examples.top_books)).
Proof. reflexivity. Qed.

End GraphFacts.

(** ** The traversals of the host's node *)

Module WalkFacts.

Lemma elem_of_sorted (s : gset Key) (p : Key) : p ∈ sorted s ↔ p ∈ s.
Proof.
  unfold sorted. rewrite merge_sort_Permutation. apply elem_of_elements.
Qed.

Lemma elem_of_ordered_set_from seen l x :
  x ∈ ordered_set_from seen l ↔ x ∈ l ∧ x ∉ seen.
Proof.
  revert seen. induction l as [|y l IH]; intros seen; simpl.
  - split; [intros H; inversion H | intros [H _]; inversion H].
  - case_decide as Hy.
    + rewrite IH, elem_of_cons. split; [tauto|].
      intros [[->|?] ?]; tauto.
    + rewrite !elem_of_cons, IH, elem_of_cons. split.
      * intros [->|[? ?]]; tauto.
      * intros [[->|?] ?]; [tauto|].
        destruct (decide (x = y)); tauto.
Qed.

Lemma NoDup_ordered_set_from seen l : NoDup (ordered_set_from seen l).
Proof.
  revert seen. induction l as [|y l IH]; intros seen; simpl.
  - constructor.
  - case_decide; [apply IH|]. constructor; [|apply IH].
    rewrite elem_of_ordered_set_from, elem_of_cons. tauto.
Qed.

Lemma ordered_set_from_snoc seen l k :
  k ∉ seen -> k ∉ l ->
  ordered_set_from seen (l ++ [k]) = ordered_set_from seen l ++ [k].
Proof.
  revert seen. induction l as [|y l IH]; intros seen Hs Hl; simpl.
  - rewrite decide_False by exact Hs. reflexivity.
  - rewrite not_elem_of_cons in Hl. destruct Hl as [Hne Hl].
    case_decide.
    + apply IH; assumption.
    + simpl. f_equal. apply IH; [|assumption].
      rewrite not_elem_of_cons. tauto.
Qed.

Lemma elem_of_ordered_set l x : x ∈ ordered_set l ↔ x ∈ l.
Proof.
  unfold ordered_set. rewrite elem_of_ordered_set_from.
  split; [tauto|]. intros H. split; [exact H|]. apply not_elem_of_nil.
Qed.

Lemma extend_left_Forall2 visit ps ls : ∀ acc,
  Forall2 (fun p l => visit p = Ok l) ps ls ->
  extend_left visit ps acc = Ok (mjoin (reverse ls) ++ acc).
Proof.
  intros acc H. revert acc.
  induction H as [|p l ps ls Hp _ IH]; intros acc; simpl.
  - reflexivity.
  - rewrite Hp. simpl. rewrite IH.
    rewrite reverse_cons, join_app. simpl.
    rewrite app_nil_r, <- app_assoc. reflexivity.
Qed.

Lemma extend_left_Err visit ps e : ∀ acc,
  (∀ p, p ∈ ps -> (∃ l, visit p = Ok l) ∨ visit p = Err e) ->
  (∃ p, p ∈ ps ∧ visit p = Err e) ->
  extend_left visit ps acc = Err e.
Proof.
  induction ps as [|p ps IH]; intros acc Hall (q & Hq & Eq).
  - inversion Hq.
  - simpl. destruct (Hall p) as [[l Hl]|Hl]; [left| |].
    + rewrite Hl. simpl. apply IH.
      * intros p' Hp'. apply Hall. right. exact Hp'.
      * apply elem_of_cons in Hq as [->|Hq]; [congruence|]. eauto.
    + rewrite Hl. reflexivity.
Qed.

Lemma extend_left_Ok_or_Err visit ps e : ∀ acc,
  (∀ p, p ∈ ps -> (∃ l, visit p = Ok l) ∨ visit p = Err e) ->
  (∃ l, extend_left visit ps acc = Ok l) ∨ extend_left visit ps acc = Err e.
Proof.
  induction ps as [|p ps IH]; intros acc Hall; simpl.
  - left. eauto.
  - destruct (Hall p) as [[l Hl]|Hl]; [left| |]; rewrite Hl; simpl.
    + apply IH. intros p' Hp'. apply Hall. right. exact Hp'.
    + right. reflexivity.
Qed.

Lemma filter_keeps_order {A} (P : A -> Prop) `{∀ x, Decision (P x)}
    (l : list A) : ∀ i j x y,
  l !! j = Some y -> l !! i = Some x -> j < i -> P x -> P y ->
  ∃ i' j', j' < i' ∧ filter P l !! j' = Some y ∧ filter P l !! i' = Some x.
Proof.
  induction l as [|a l IH]; intros i j x y Hj Hi Hlt Px Py.
  - rewrite lookup_nil in Hj. discriminate.
  - destruct i as [|i]; [lia|]. simpl in Hi. destruct j as [|j].
    + simpl in Hj. injection Hj as ->.
      rewrite filter_cons_True by exact Py.
      assert (x ∈ filter P l) as Hx.
      { apply list_elem_of_filter. split; [exact Px|].
        eapply list_elem_of_lookup_2. exact Hi. }
      apply list_elem_of_lookup in Hx as [i' Hi'].
      exists (S i'), 0. split; [lia|]. split; [reflexivity|exact Hi'].
    + simpl in Hj.
      destruct (IH i j x y Hj Hi) as (i' & j' & Hlt' & Hj' & Hi');
        [lia|exact Px|exact Py|].
      destruct (decide (P a)) as [Pa|Pa].
      * rewrite filter_cons_True by exact Pa.
        exists (S i'), (S j'). split; [lia|]. split; assumption.
      * rewrite filter_cons_False by exact Pa.
        exists i', j'. split; [lia|]. split; assumption.
Qed.

Section Walk.

Variable edges : Node -> gset Key.
Variable nm : gmap Key Node.

Local Abbreviation edge := (edge_of edges nm).

Lemma tc_edge_inv k x :
  tc edge k x ↔ ∃ p, edge k p ∧ (x = p ∨ tc edge p x).
Proof.
  split.
  - intros H. inversion H as [? ? H1|? p ? H1 H2]; subst.
    + exists x. tauto.
    + exists p. tauto.
  - intros (p & H1 & [->|H2]).
    + apply tc_once. exact H1.
    + eapply tc_l; eassumption.
Qed.

(** [reached_first seen l]: whatever is reached from an element of
    [l] stands before it in [l], or is in [seen]. *)
Local Abbreviation reached_first seen l :=
  (∀ i x y, l !! i = Some x -> tc edge x y ->
            y ∈ seen ∨ ∃ j, j < i ∧ l !! j = Some y).

Lemma reached_first_app (l1 l2 : list Key) :
  reached_first (@nil Key) l1 -> reached_first (@nil Key) l2 ->
  reached_first (@nil Key) (l1 ++ l2).
Proof.
  intros H1 H2 i x y Hi Hxy. right.
  apply lookup_app_Some in Hi as [Hi|[Hge Hi]].
  - destruct (H1 i x y Hi Hxy) as [Hn|(j & Hj & Hy)].
    + inversion Hn.
    + exists j. split; [exact Hj|]. apply lookup_app_l_Some. exact Hy.
  - destruct (H2 _ x y Hi Hxy) as [Hn|(j & Hj & Hy)].
    + inversion Hn.
    + exists (length l1 + j). split; [lia|].
      rewrite lookup_app_r by lia.
      replace (length l1 + j - length l1) with j by lia. exact Hy.
Qed.

Lemma reached_first_join (ls : list (list Key)) :
  Forall (fun l => reached_first (@nil Key) l) ls ->
  reached_first (@nil Key) (mjoin ls).
Proof.
  induction 1 as [|l ls Hl _ IH].
  - intros i x y Hi. change (mjoin []) with (@nil Key) in Hi.
    rewrite lookup_nil in Hi. discriminate.
  - simpl. apply reached_first_app; assumption.
Qed.

Lemma reached_first_ordered_set_from (l : list Key) : ∀ seen,
  reached_first seen l -> reached_first seen (ordered_set_from seen l).
Proof.
  induction l as [|a l IH]; intros seen Hl; simpl.
  - intros i x y Hi. rewrite lookup_nil in Hi. discriminate.
  - case_decide as Ha.
    + apply IH. intros i x y Hi Hxy.
      destruct (Hl (S i) x y Hi Hxy) as [Hs|(j & Hj & Hy)]; [tauto|].
      destruct j as [|j]; simpl in Hy.
      * injection Hy as <-. tauto.
      * right. exists j. split; [lia|exact Hy].
    + intros i x y Hi Hxy. destruct i as [|i]; simpl in Hi.
      * injection Hi as <-.
        destruct (Hl 0 a y eq_refl Hxy) as [Hs|(j & Hj & _)]; [tauto|lia].
      * assert (reached_first (a :: seen) l) as Hl'.
        { intros i' x' y' Hi' Hxy'.
          destruct (Hl (S i') x' y' Hi' Hxy') as [Hs|(j & Hj & Hy)].
          - left. right. exact Hs.
          - destruct j as [|j]; simpl in Hy.
            + injection Hy as <-. left. left.
            + right. exists j. split; [lia|exact Hy]. }
        destruct (IH (a :: seen) Hl' i x y Hi Hxy) as [Hs|(j & Hj & Hy)].
        -- apply elem_of_cons in Hs as [->|Hs]; [|tauto].
           right. exists 0. split; [lia|reflexivity].
        -- right. exists (S j). split; [lia|exact Hy].
Qed.

Section Measured.

Variable mu : Key -> nat.
Hypothesis Hmu : measured edges nm mu.

Lemma edge_measure a b : edge a b -> is_Some (nm !! b) ∧ mu b < mu a.
Proof.
  intros (n & Hn & Hb). destruct (Hmu _ _ Hn) as [_ Hall].
  destruct (Hall _ Hb) as [Hd Hlt]. split; [|exact Hlt].
  apply elem_of_dom. exact Hd.
Qed.

Lemma tc_edge_measure a b : tc edge a b -> mu b < mu a.
Proof.
  induction 1 as [a b H|a b c H _ IH].
  - apply edge_measure. exact H.
  - apply edge_measure in H. lia.
Qed.

(** With a budget above the measure of the node, the traversal
    returns: the keys reached from the node, each once, then the
    key of the node itself. *)
Lemma walk_returns fuel : ∀ k n,
  nm !! k = Some n -> mu k < fuel ->
  ∃ l0, walk edges fuel nm n = Ok (l0 ++ [k]) ∧ NoDup (l0 ++ [k]) ∧
        (∀ x, x ∈ l0 ↔ tc edge k x) ∧
        reached_first (@nil Key) (l0 ++ [k]).
Proof.
  induction fuel as [|fuel IH]; intros k n Hn Hlt; [lia|].
  destruct (Hmu _ _ Hn) as [Hkey Hall]. simpl in Hkey.
  assert (∃ ls, Forall2 (fun p l =>
            (pn ← getitem nm p; walk edges fuel nm pn) = Ok l ∧
            (∀ x, x ∈ l ↔ x = p ∨ tc edge p x) ∧
            reached_first (@nil Key) l) (sorted (edges n)) ls)
    as [ls Hls].
  { assert (∀ p, p ∈ sorted (edges n) -> p ∈ edges n) as Hsub
      by (intros p; apply elem_of_sorted).
    induction (sorted (edges n)) as [|p ps IHps].
    - exists []. constructor.
    - destruct IHps as [ls Hls].
      { intros q Hq. apply Hsub. right. exact Hq. }
      destruct (Hall p) as [Hd Hp]; [apply Hsub; left|].
      apply elem_of_dom in Hd as [pn Hpn].
      destruct (IH p pn Hpn) as (l0 & E & _ & Hl0 & Hrf); [lia|].
      exists ((l0 ++ [p]) :: ls). constructor; [|exact Hls]. split.
      + unfold getitem. rewrite Hpn. exact E.
      + split; [|exact Hrf].
        intros x. rewrite elem_of_app, list_elem_of_singleton, Hl0. tauto. }
  assert (∀ x, x ∈ mjoin (reverse ls) ↔ tc edge k x) as Hmem.
  { intros x. rewrite tc_edge_inv. rewrite list_elem_of_join. split.
    - intros (l & Hx & Hl). rewrite elem_of_reverse in Hl.
      apply list_elem_of_lookup in Hl as [i Hi].
      destruct (Forall2_lookup_r _ _ _ _ _ Hls Hi) as (p & Hp & _ & Hpl & _).
      exists p. split; [|apply Hpl; exact Hx].
      exists n. split; [exact Hn|].
      apply elem_of_sorted. eapply list_elem_of_lookup_2. exact Hp.
    - intros (p & (n' & Hn' & Hp) & Hx).
      assert (n' = n) as -> by congruence.
      apply elem_of_sorted in Hp.
      apply list_elem_of_lookup in Hp as [i Hi].
      destruct (Forall2_lookup_l _ _ _ _ _ Hls Hi) as (l & Hl & _ & Hpl & _).
      exists l. split; [apply Hpl; exact Hx|].
      rewrite elem_of_reverse. eapply list_elem_of_lookup_2. exact Hl. }
  assert (k ∉ mjoin (reverse ls)) as Hk.
  { rewrite Hmem. intros H. apply tc_edge_measure in H. lia. }
  exists (ordered_set (mjoin (reverse ls))).
  cbn [walk].
  rewrite (extend_left_Forall2 _ _ ls).
  2:{ eapply Forall2_impl; [exact Hls|]. simpl. tauto. }
  simpl. rewrite Hkey. unfold ordered_set.
  rewrite ordered_set_from_snoc; [|apply not_elem_of_nil|exact Hk].
  split; [reflexivity|]. split; [|split].
  - apply NoDup_app. split; [apply NoDup_ordered_set_from|]. split.
    + intros x Hx Hx'. apply list_elem_of_singleton in Hx'. subst x.
      apply elem_of_ordered_set_from in Hx. tauto.
    + apply NoDup_singleton.
  - intros x. rewrite <- Hmem. apply elem_of_ordered_set.
  - assert (reached_first (@nil Key)
              (ordered_set_from [] (mjoin (reverse ls)))) as Hrf.
    { apply reached_first_ordered_set_from, reached_first_join.
      apply Forall_reverse. apply Forall_forall. intros l Hl.
      apply list_elem_of_lookup in Hl as [i Hi].
      destruct (Forall2_lookup_r _ _ _ _ _ Hls Hi) as (p & _ & _ & _ & Hrf).
      exact Hrf. }
    intros i x y Hi Hxy. right.
    apply lookup_app_Some in Hi as [Hi|[Hge Hi]].
    + destruct (Hrf i x y Hi Hxy) as [Hs|(j & Hj & Hy)]; [inversion Hs|].
      exists j. split; [exact Hj|]. apply lookup_app_l_Some. exact Hy.
    + apply list_lookup_singleton_Some in Hi as [Hi0 <-].
      assert (y ∈ ordered_set_from [] (mjoin (reverse ls))) as Hy.
      { apply elem_of_ordered_set. apply Hmem. exact Hxy. }
      apply list_elem_of_lookup in Hy as [j Hj].
      exists j. split.
      * apply lookup_lt_Some in Hj. lia.
      * apply lookup_app_l_Some. exact Hj.
Qed.

End Measured.

Section Closed.

Hypothesis Hclosed : closed edges nm.

Lemma walk_Ok_or_overflow fuel : ∀ n,
  edges n ⊆ dom nm ->
  (∃ l, walk edges fuel nm n = Ok l) ∨
  walk edges fuel nm n = Err RecursionError.
Proof.
  induction fuel as [|fuel IH]; intros n Hsub; [right; reflexivity|].
  cbn [walk].
  destruct (extend_left_Ok_or_Err
              (fun p => pn ← getitem nm p; walk edges fuel nm pn)
              (sorted (edges n)) RecursionError [key n]) as [[l ->]| ->].
  - intros p Hp. apply elem_of_sorted in Hp. apply Hsub in Hp.
    apply elem_of_dom in Hp as [pn Hpn].
    unfold getitem. rewrite Hpn. simpl. apply IH.
    intros q Hq. exact (Hclosed _ _ Hpn _ Hq).
  - left. simpl. eauto.
  - right. reflexivity.
Qed.

(** A node from which a cycle is reached exhausts every budget. *)
Lemma walk_overflow fuel : ∀ k n c,
  nm !! k = Some n -> rtc edge k c -> tc edge c c ->
  walk edges fuel nm n = Err RecursionError.
Proof.
  induction fuel as [|fuel IH]; intros k n c Hn Hkc Hcc; [reflexivity|].
  assert (∃ p, edge k p ∧ rtc edge p c) as (p & Hkp & Hpc).
  { apply rtc_inv in Hkc as [->|(p & H1 & H2)].
    - apply tc_edge_inv in Hcc as (p & H1 & [->|H2]).
      + exists p. split; [exact H1|]. apply rtc_refl.
      + exists p. split; [exact H1|]. apply tc_rtc. exact H2.
    - exists p. tauto. }
  destruct Hkp as (n' & Hn' & Hp). assert (n' = n) as -> by congruence.
  cbn [walk].
  rewrite (extend_left_Err _ _ RecursionError); [reflexivity| |].
  - intros q Hq. apply elem_of_sorted in Hq.
    pose proof (Hclosed _ _ Hn _ Hq) as Hd.
    apply elem_of_dom in Hd as [qn Hqn].
    unfold getitem. rewrite Hqn. simpl. apply walk_Ok_or_overflow.
    intros r Hr. exact (Hclosed _ _ Hqn _ Hr).
  - exists p. split; [apply elem_of_sorted; exact Hp|].
    pose proof (Hclosed _ _ Hn _ Hp) as Hd.
    apply elem_of_dom in Hd as [pn Hpn].
    unfold getitem. rewrite Hpn. simpl. eapply IH; eassumption.
Qed.

End Closed.

End Walk.

End WalkFacts.

(** ** The change orderer *)

Module OrderFacts.

Import WalkFacts.

Lemma rev_reverse {A} (l : list A) : rev l = reverse l.
Proof. unfold reverse. apply rev_alt. Qed.

Lemma layered_parents rank depth nm :
  layered rank depth nm -> measured parents nm rank.
Proof.
  intros H k n Hn. destruct (H k n Hn) as (Hk & _ & Hp & _). split; assumption.
Qed.

Lemma layered_children rank depth nm :
  layered rank depth nm ->
  measured children nm (fun k => depth - 1 - rank k).
Proof.
  intros H k n Hn. destruct (H k n Hn) as (Hk & Hd & _ & Hc).
  split; [exact Hk|]. intros c Hin. destruct (Hc c Hin) as [Hdom Hlt].
  split; [exact Hdom|]. apply elem_of_dom in Hdom as [cn Hcn].
  destruct (H c cn Hcn) as (_ & Hdc & _). simpl in *. lia.
Qed.

(** On a layered graph [ancestors()] returns the proper ancestors, each
    once, followed by the key itself. *)
Lemma ancestors_returns rank depth nm k n :
  layered rank depth nm -> nm !! k = Some n ->
  ∃ l0, ancestors depth nm n = Ok (l0 ++ [k]) ∧ NoDup l0 ∧ (k ∉ l0) ∧
        ∀ x, x ∈ l0 ↔ proper_ancestor nm x k.
Proof.
  intros H Hn. destruct (H k n Hn) as (_ & Hd & _).
  destruct (walk_returns parents nm rank (layered_parents _ _ _ H) depth k n Hn Hd)
    as (l0 & E & ND & Hm & _).
  exists l0. split; [exact E|]. apply NoDup_app in ND as (ND & Hk & _).
  split; [exact ND|]. split; [|exact Hm].
  intros Hin. apply (Hk k Hin). left.
Qed.

Lemma descendants_returns rank depth nm k n :
  layered rank depth nm -> nm !! k = Some n ->
  ∃ l0, descendants depth nm n = Ok (l0 ++ [k]) ∧ NoDup l0 ∧ (k ∉ l0) ∧
        (∀ x, x ∈ l0 ↔ proper_descendant nm x k) ∧
        (∀ i x y, l0 !! i = Some x -> proper_descendant nm y x ->
                  ∃ j, j < i ∧ l0 !! j = Some y).
Proof.
  intros H Hn. destruct (H k n Hn) as (_ & Hd & _).
  destruct (walk_returns children nm _ (layered_children _ _ _ H) depth k n Hn)
    as (l0 & E & ND & Hm & Hrf); [simpl; lia|].
  exists l0. split; [exact E|]. apply NoDup_app in ND as (ND & Hk & _).
  split; [exact ND|]. split; [|split; [exact Hm|]].
  - intros Hin. apply (Hk k Hin). left.
  - intros i x y Hi Hxy.
    destruct (Hrf i x y) as [Hs|(j & Hj & Hy)];
      [apply lookup_app_l_Some; exact Hi|exact Hxy|inversion Hs|].
    exists j. split; [exact Hj|].
    apply lookup_lt_Some in Hi.
    rewrite lookup_app_l in Hy by lia. exact Hy.
Qed.

Lemma first_index_spec {A} (p : A -> bool) (l : list A) :
  first_index p l ≤ length l ∧
  (∀ j x, j < first_index p l -> l !! j = Some x -> p x = false) ∧
  (first_index p l < length l ->
     ∃ x, l !! first_index p l = Some x ∧ p x = true).
Proof.
  induction l as [|a l (IH1 & IH2 & IH3)]; simpl.
  - repeat split; [lia | intros; lia | intros; lia].
  - destruct (p a) eqn:E.
    + repeat split; [lia | intros; lia |]. intros _. exists a. tauto.
    + repeat split; [lia | |].
      * intros [|j] x Hj Hx; simpl in Hx; [congruence|].
        apply (IH2 j); [lia | exact Hx].
      * intros Hlt. apply IH3. lia.
Qed.

(** The inner loop puts the descendants it keeps in front of what stands
    at [pos], the last one kept first. *)
Lemma cascade_shape all_keys pre post descs : ∀ mid ch,
  NoDup descs -> (∀ d, d ∈ descs -> d ∉ mid) ->
  cascade all_keys (length pre) descs (pre ++ mid ++ post) ch =
    (pre ++ reverse (filter (fun d => (d ∉ all_keys) ∧ (d ∉ pre ++ post)) descs)
         ++ mid ++ post,
     ch ∪ list_to_set
            (filter (fun d => (d ∉ all_keys) ∧ (d ∉ pre ++ post)) descs)).
Proof.
  induction descs as [|d descs IH]; intros mid ch ND Hmid.
  - cbn [cascade]. rewrite filter_nil. simpl. f_equal. set_solver.
  - apply NoDup_cons in ND as [Hd ND].
    assert (d ∉ mid) as Hdm by (apply Hmid; left).
    cbn [cascade]. destruct (decide ((d ∉ all_keys) ∧ (d ∉ pre ++ post))) as [HP|HP].
    + rewrite decide_True.
      2:{ destruct HP as [H1 H2]. split; [exact H1|].
          rewrite !elem_of_app in *. tauto. }
      unfold list_insert.
      rewrite take_app_length, drop_app_length.
      change (pre ++ d :: mid ++ post) with (pre ++ (d :: mid) ++ post).
      rewrite IH; [|exact ND|].
      2:{ intros d' Hd'. rewrite not_elem_of_cons. split.
          - intros ->. tauto.
          - apply Hmid. right. exact Hd'. }
      rewrite filter_cons_True by exact HP.
      rewrite reverse_cons, <- !app_assoc. simpl. f_equal.
      set_solver.
    + rewrite decide_False.
      2:{ intros [H1 H2]. apply HP. split; [exact H1|].
          rewrite !elem_of_app in *. tauto. }
      rewrite IH; [|exact ND|intros d' Hd'; apply Hmid; right; exact Hd'].
      rewrite filter_cons_False by exact HP. reflexivity.
Qed.

Lemma elem_of_rev {A} (l : list A) x : x ∈ rev l ↔ x ∈ l.
Proof. rewrite rev_reverse. apply elem_of_reverse. Qed.

(** One round of the outer loop on a layered graph. *)
Lemma sort_step_shape rank depth g all_keys res ch k :
  layered rank depth (node_map g) -> k ∈ dom (node_map g) ->
  ∃ pos casc,
    sort_step depth g all_keys (res, ch) k =
      Ok (take pos res ++ casc ++ k :: drop pos res, ch ∪ list_to_set casc) ∧
    pos ≤ length res ∧
    (∀ j x, j < pos -> res !! j = Some x ->
            ¬ proper_ancestor (node_map g) x k) ∧
    (pos < length res ->
       ∃ a, res !! pos = Some a ∧ proper_ancestor (node_map g) a k) ∧
    NoDup casc ∧ (k ∉ casc) ∧
    (∀ d, d ∈ casc ->
          proper_descendant (node_map g) d k ∧ (d ∉ all_keys) ∧ (d ∉ res)) ∧
    (k ∉ ch -> casc = []) ∧
    (k ∈ ch ->
       ∃ node dfull,
         node_map g !! k = Some node ∧
         descendants depth (node_map g) node = Ok dfull ∧
         casc = filter (fun d => (d ∉ all_keys) ∧ (d ∉ res)) (removelast dfull) ∧
         ∀ d, d ∈ removelast dfull ↔ proper_descendant (node_map g) d k).
Proof.
  intros Hlay Hdom. apply elem_of_dom in Hdom as [node Hnode].
  destruct (ancestors_returns _ _ _ _ _ Hlay Hnode) as (a0 & Ea & _ & _ & Ha).
  destruct (descendants_returns _ _ _ _ _ Hlay Hnode) as (d0 & Ed & NDd & Hkd & Hd).
  set (pos := first_index (fun x => bool_decide (x ∈ rev a0)) res).
  destruct (first_index_spec (fun x => bool_decide (x ∈ rev a0)) res)
    as (P1 & P2 & P3). fold pos in P1, P2, P3.
  assert (
    pos ≤ length res ∧
    (∀ j x, j < pos -> res !! j = Some x ->
            ¬ proper_ancestor (node_map g) x k) ∧
    (pos < length res ->
       ∃ a, res !! pos = Some a ∧ proper_ancestor (node_map g) a k)) as Hpos.
  { split; [exact P1|]. split.
    - intros j x Hj Hx Hanc. specialize (P2 j x Hj Hx).
      apply bool_decide_eq_false in P2. apply P2.
      apply elem_of_rev, Ha. exact Hanc.
    - intros Hlt. destruct (P3 Hlt) as (a & Hl & Hb). exists a.
      split; [exact Hl|]. apply bool_decide_eq_true in Hb.
      apply Ha, elem_of_rev. exact Hb. }
  unfold sort_step. unfold getitem at 1. rewrite Hnode. simpl.
  rewrite Ea. simpl. rewrite removelast_last. fold pos.
  destruct (decide (k ∈ ch)) as [Hin|Hnin].
  - rewrite Ed. simpl. rewrite removelast_last.
    exists pos, (filter (fun d => (d ∉ all_keys) ∧ (d ∉ res)) d0).
    split.
    + unfold list_insert. f_equal.
      pose proof (cascade_shape all_keys (take pos res) (drop pos res)
                    (rev d0) [k] ch) as Hc.
      rewrite length_take_le in Hc by exact P1.
      simpl in Hc. rewrite Hc.
      * rewrite take_drop, rev_reverse, filter_reverse, reverse_involutive.
        f_equal. apply set_eq. intros x.
        rewrite !elem_of_union, !elem_of_list_to_set, elem_of_reverse. tauto.
      * rewrite rev_reverse, reverse_Permutation. exact NDd.
      * intros d Hdin. rewrite elem_of_rev in Hdin.
        rewrite list_elem_of_singleton. intros Heq.
        rewrite Heq in Hdin. exact (Hkd Hdin).
    + destruct Hpos as (Q1 & Q2 & Q3).
      split; [exact Q1|]. split; [exact Q2|]. split; [exact Q3|].
      split; [apply NoDup_filter; exact NDd|]. split.
      * rewrite list_elem_of_filter. tauto.
      * split.
        -- intros d Hdin. apply list_elem_of_filter in Hdin as [[? ?] Hdin].
           apply Hd in Hdin. tauto.
        -- split; [tauto|]. intros _. exists node, (d0 ++ [k]).
           rewrite removelast_last. tauto.
  - exists pos, []. split.
    + unfold list_insert. simpl. f_equal. f_equal. set_solver.
    + destruct Hpos as (Q1 & Q2 & Q3).
      split; [exact Q1|]. split; [exact Q2|]. split; [exact Q3|].
      split; [constructor|]. split; [apply not_elem_of_nil|].
      split; [intros d Hdin; inversion Hdin|]. split; tauto.
Qed.

Lemma insert_block_Permutation {A} pos (res blk : list A) :
  take pos res ++ blk ++ drop pos res ≡ₚ blk ++ res.
Proof.
  rewrite <- (take_drop pos res) at 3.
  rewrite !app_assoc. apply Permutation_app_tail, Permutation_app_comm.
Qed.

Lemma iterates_elem_of set_iter s x : iterates set_iter -> x ∈ set_iter s ↔ x ∈ s.
Proof. intros H. rewrite (H s). apply elem_of_elements. Qed.

Lemma iterates_NoDup set_iter s : iterates set_iter -> NoDup (set_iter s).
Proof. intros H. rewrite (H s). apply NoDup_elements. Qed.

Lemma iterates_elements : iterates elements.
Proof. intros s. reflexivity. Qed.

(** The outer loop on a layered graph: it ends normally, the keys it is
    given and the keys it cascades to join the result, each once. *)
Lemma sort_loop_places rank depth g all_keys ks : ∀ res ch,
  layered rank depth (node_map g) -> all_keys ⊆ dom (node_map g) ->
  NoDup ks -> (∀ x, x ∈ ks -> x ∈ all_keys) ->
  NoDup res -> (∀ x, x ∈ ks -> x ∉ res) ->
  ∃ res' extra,
    for_each (sort_step depth g all_keys) ks (res, ch) = Ok (res', ch ∪ extra) ∧
    NoDup res' ∧
    (∀ x, x ∈ res' ↔ x ∈ res ∨ x ∈ ks ∨ x ∈ extra) ∧
    (∀ x, x ∈ extra -> x ∉ all_keys).
Proof.
  induction ks as [|k ks IH]; intros res ch Hlay Hdom NDks Hks NDres Hfresh.
  - exists res, ∅. simpl. split; [f_equal; f_equal; set_solver|].
    split; [exact NDres|]. split; [|set_solver].
    intros x. rewrite elem_of_nil. set_solver.
  - apply NoDup_cons in NDks as [Hk NDks].
    destruct (sort_step_shape rank depth g all_keys res ch k Hlay)
      as (pos & casc & E & _ & _ & _ & NDc & Hkc & Hc & _).
    { apply Hdom, Hks. left. }
    assert (take pos res ++ casc ++ k :: drop pos res ≡ₚ (casc ++ [k]) ++ res)
      as Hperm.
    { change (k :: drop pos res) with ([k] ++ drop pos res).
      rewrite (app_assoc casc). apply insert_block_Permutation. }
    destruct (IH (take pos res ++ casc ++ k :: drop pos res)
                 (ch ∪ list_to_set casc) Hlay Hdom NDks)
      as (res' & extra & E' & ND' & Hmem & Hex).
    + intros x Hx. apply Hks. right. exact Hx.
    + rewrite Hperm. apply NoDup_app. split; [|split; [|exact NDres]].
      * apply NoDup_app. split; [exact NDc|]. split; [|apply NoDup_singleton].
        intros x Hx Hx'. apply list_elem_of_singleton in Hx'. subst x. tauto.
      * intros x Hx Hr. apply elem_of_app in Hx as [Hx|Hx].
        -- apply Hc in Hx. tauto.
        -- apply list_elem_of_singleton in Hx. subst x.
           apply (Hfresh k); [left|exact Hr].
    + intros x Hx. rewrite Hperm, !elem_of_app, list_elem_of_singleton.
      intros [[Hc'|Hc']|Hc'].
      * apply Hc in Hc' as (_ & Hc' & _). apply Hc', Hks. right. exact Hx.
      * subst x. tauto.
      * apply (Hfresh x); [right; exact Hx|exact Hc'].
    + exists res', (list_to_set casc ∪ extra). cbn [for_each]. rewrite E.
      simpl. rewrite E'. split; [f_equal; f_equal; set_solver|].
      split; [exact ND'|]. split.
      * intros x. rewrite Hmem, Hperm, !elem_of_app, list_elem_of_singleton,
          elem_of_cons, elem_of_union, elem_of_list_to_set. tauto.
      * intros x. rewrite elem_of_union, elem_of_list_to_set.
        intros [Hx|Hx]; [|apply Hex; exact Hx].
        apply Hc in Hx. tauto.
Qed.

Lemma filter_keeps_all {A} (P : A -> Prop) `{!∀ x, Decision (P x)} (l : list A) :
  (∀ x, x ∈ l -> P x) -> filter P l = l.
Proof.
  induction l as [|x l IH]; intros HP; [reflexivity|].
  rewrite filter_cons_True by (apply HP; left). f_equal.
  apply IH. intros y Hy. apply HP. right. exact Hy.
Qed.

Lemma filter_keeps_none {A} (P : A -> Prop) `{!∀ x, Decision (P x)} (l : list A) :
  (∀ x, x ∈ l -> ¬ P x) -> filter P l = [].
Proof.
  induction l as [|x l IH]; intros HP; [reflexivity|].
  rewrite filter_cons_False by (apply HP; left).
  apply IH. intros y Hy. apply HP. right. exact Hy.
Qed.

(** The outer loop on a layered graph goes the way of [spec_ordering]. *)
Lemma sort_loop_follows_the_rule rank depth g all_keys ks : ∀ res ch,
  layered rank depth (node_map g) -> all_keys ⊆ dom (node_map g) ->
  (∀ x, x ∈ ks -> x ∈ all_keys) ->
  ∃ final,
    for_each (sort_step depth g all_keys) ks (res, ch) = Ok final ∧
    spec_ordering (node_map g) all_keys ks (res, ch) final.
Proof.
  induction ks as [|k ks IH]; intros res ch Hlay Hdom Hks.
  - exists (res, ch). split; [reflexivity|constructor].
  - destruct (sort_step_shape rank depth g all_keys res ch k Hlay)
      as (pos & casc & E & Q1 & Q2 & Q3 & _ & Hkc & Hc & Hnone & Hall).
    { apply Hdom, Hks. left. }
    set (after := take pos res ++ casc ++ k :: drop pos res) in *.
    assert (∀ x, x ∈ take pos res ∨ x ∈ drop pos res -> x ∈ res) as Hres.
    { intros x Hx. rewrite <- (take_drop pos res), elem_of_app. exact Hx. }
    assert (∀ d, d ∈ casc ↔ d ∈ after ∧ (d ∉ k :: res)) as Hcasc.
    { intros d. unfold after.
      rewrite !elem_of_app, elem_of_cons, not_elem_of_cons. split.
      - intros Hd. split; [tauto|]. split.
        + intros ->. exact (Hkc Hd).
        + apply Hc in Hd. tauto.
      - intros [[Hd|[Hd|[Hd|Hd]]] [Hne Hnr]]; [|exact Hd|tauto|].
        + destruct Hnr. apply Hres. left. exact Hd.
        + destruct Hnr. apply Hres. right. exact Hd. }
    destruct (IH after (ch ∪ list_to_set casc) Hlay Hdom)
      as (final & E' & Ho).
    { intros x Hx. apply Hks. right. exact Hx. }
    exists final. split.
    { cbn [for_each]. rewrite E. cbn [mbind result_bind]. exact E'. }
    apply (ordering_key _ _ k ks res ch pos after (ch ∪ list_to_set casc));
      [exact Q1|exact Q2|exact Q3| | | |exact Ho].
    + unfold after. rewrite !filter_app.
      rewrite filter_cons_True by left.
      rewrite (filter_keeps_all _ (take pos res)).
      2:{ intros x Hx. right. apply Hres. left. exact Hx. }
      rewrite (filter_keeps_none _ casc).
      2:{ intros x Hx. apply Hcasc in Hx. tauto. }
      rewrite (filter_keeps_all _ (drop pos res)).
      2:{ intros x Hx. right. apply Hres. right. exact Hx. }
      reflexivity.
    + intros d. rewrite <- Hcasc. split.
      * intros Hd. split; [|apply Hc; exact Hd].
        destruct (decide (k ∈ ch)) as [Hin|Hout]; [exact Hin|].
        rewrite (Hnone Hout) in Hd. inversion Hd.
      * intros (Hin & Hdesc & Hna & Hnr).
        destruct (Hall Hin) as (node & dfull & _ & _ & -> & Hfull).
        apply list_elem_of_filter. split; [tauto|]. apply Hfull. exact Hdesc.
    + intros d. rewrite <- Hcasc, elem_of_union, elem_of_list_to_set.
      reflexivity.
Qed.

(** C4: on a layered graph, [sort_sql_changes] returns an order in which
    every key of [new_keys] and of [changed_keys] as the call leaves it
    stands exactly once, and the order it returns is the one that
    [spec_ordering] describes, taking the keys in the order in which the
    set hands them out: every key of the input set is put where the first of
    its proper ancestors stands in the result so far, immediately before it,
    or at the end when none stands there. *)
Theorem sort_sql_changes_places_each_key_once set_iter rank depth g
    new_keys changed_keys :
  iterates set_iter ->
  layered rank depth (node_map g) ->
  new_keys ∪ changed_keys ⊆ dom (node_map g) ->
  ∃ result_keys grown,
    sort_sql_changes set_iter depth g new_keys changed_keys
      = Ok (result_keys, grown) ∧
    changed_keys ⊆ grown ∧
    NoDup result_keys ∧
    (∀ k, k ∈ result_keys ↔ k ∈ new_keys ∪ grown) ∧
    spec_ordering (node_map g) (new_keys ∪ changed_keys)
      (set_iter (new_keys ∪ changed_keys))
      ([], changed_keys) (result_keys, grown).
Proof.
  intros Hit Hlay Hdom.
  assert (∀ x, x ∈ set_iter (new_keys ∪ changed_keys) ->
               x ∈ new_keys ∪ changed_keys) as Hiter.
  { intros x. apply iterates_elem_of. exact Hit. }
  destruct (sort_loop_places rank depth g (new_keys ∪ changed_keys)
              (set_iter (new_keys ∪ changed_keys)) [] changed_keys Hlay Hdom)
    as (res' & extra & E & ND & Hmem & Hex).
  { apply iterates_NoDup. exact Hit. }
  { exact Hiter. }
  { constructor. }
  { intros x _. apply not_elem_of_nil. }
  destruct (sort_loop_follows_the_rule rank depth g (new_keys ∪ changed_keys)
              (set_iter (new_keys ∪ changed_keys)) [] changed_keys
              Hlay Hdom Hiter) as (final & E' & Ho).
  rewrite E in E'. injection E' as <-.
  exists res', (changed_keys ∪ extra). split; [exact E|].
  split; [set_solver|]. split; [exact ND|]. split; [|exact Ho].
  intros k. rewrite Hmem, iterates_elem_of by exact Hit.
  rewrite elem_of_nil. set_solver.
Qed.

Lemma sort_sql_changes_places_each_key_once_witness :
  iterates elements ∧
  layered Examples.diamond_rank 2 (node_map Examples.diamond_to) ∧
  ({[Examples.rate]} ∪ {[Examples.kind]} : gset Key)
    ⊆ dom (node_map Examples.diamond_to) ∧
  ∃ result_keys grown,
    sort_sql_changes elements 2 Examples.diamond_to
      {[Examples.rate]} {[Examples.kind]} = Ok (result_keys, grown) ∧
    NoDup result_keys ∧
    (∀ k, k ∈ result_keys ↔ k ∈ ({[Examples.rate]} : gset Key) ∪ grown) ∧
    spec_ordering (node_map Examples.diamond_to)
      ({[Examples.rate]} ∪ {[Examples.kind]})
      (elements ({[Examples.rate]} ∪ {[Examples.kind]} : gset Key))
      ([], {[Examples.kind]}) (result_keys, grown).
Proof.
  assert (layered Examples.diamond_rank 2 (node_map Examples.diamond_to))
    as Hlay by compute_done.
  assert (({[Examples.rate]} ∪ {[Examples.kind]} : gset Key)
            ⊆ dom (node_map Examples.diamond_to)) as Hdom by compute_done.
  split; [exact iterates_elements|]. split; [exact Hlay|].
  split; [exact Hdom|].
  destruct (sort_sql_changes_places_each_key_once elements
              Examples.diamond_rank 2 Examples.diamond_to
              {[Examples.rate]} {[Examples.kind]} iterates_elements Hlay Hdom)
    as (result_keys & grown & E & _ & ND & Hmem & Ho).
  exists result_keys, grown. split; [exact E|]. split; [exact ND|].
  split; [exact Hmem|exact Ho].
Defined.

(** One round of the outer loop for a key of [changed_keys]: the proper
    descendants of the key that are neither in the input set nor in the
    result are all inserted, each once, at the index computed for the key
    itself, so that they stand in one block immediately before it, in the
    order of [descendants()], and they join [changed_keys]. *)
Lemma cascade_goes_in_front_of_the_changed_key rank depth g all_keys
    res ch k :
  layered rank depth (node_map g) -> k ∈ dom (node_map g) -> k ∈ ch ->
  ∃ pos node dfull casc,
    node_map g !! k = Some node ∧
    descendants depth (node_map g) node = Ok dfull ∧
    casc = filter (fun d => (d ∉ all_keys) ∧ (d ∉ res)) (removelast dfull) ∧
    sort_step depth g all_keys (res, ch) k =
      Ok (take pos res ++ casc ++ k :: drop pos res, ch ∪ list_to_set casc) ∧
    pos ≤ length res ∧
    (∀ j x, j < pos -> res !! j = Some x ->
            ¬ proper_ancestor (node_map g) x k) ∧
    (pos < length res ->
       ∃ a, res !! pos = Some a ∧ proper_ancestor (node_map g) a k) ∧
    NoDup casc ∧
    (∀ d, d ∈ casc ↔
          proper_descendant (node_map g) d k ∧ (d ∉ all_keys) ∧ (d ∉ res)) ∧
    (∀ i d1 d2, casc !! i = Some d1 -> d2 ∈ casc ->
                proper_descendant (node_map g) d2 d1 ->
                ∃ j, j < i ∧ casc !! j = Some d2).
Proof.
  intros Hlay Hdom Hin.
  destruct (sort_step_shape rank depth g all_keys res ch k Hlay Hdom)
    as (pos & casc & E & Q1 & Q2 & Q3 & NDc & _ & Hc & _ & Hch).
  destruct (Hch Hin) as (node & dfull & Hnode & Ed & Hf & Hall).
  destruct (descendants_returns _ _ _ _ _ Hlay Hnode)
    as (d0 & Ed' & NDd & Hkd & Hd & Hord).
  assert (removelast dfull = d0) as Hrl.
  { rewrite Ed in Ed'. injection Ed' as ->. apply removelast_last. }
  exists pos, node, dfull, casc.
  split; [exact Hnode|]. split; [exact Ed|]. split; [exact Hf|].
  split; [exact E|]. split; [exact Q1|]. split; [exact Q2|].
  split; [exact Q3|]. split; [exact NDc|]. split.
  - intros d. split; [apply Hc|]. intros (H1 & H2 & H3).
    rewrite Hf. apply list_elem_of_filter. split; [tauto|].
    apply Hall. exact H1.
  - intros i d1 d2 Hi H2 Hdesc.
    assert (d1 ∈ casc) as H1 by (eapply list_elem_of_lookup_2; exact Hi).
    rewrite Hf, Hrl in H1, H2, Hi.
    apply list_elem_of_filter in H1 as [P1 H1].
    apply list_elem_of_filter in H2 as [P2 H2].
    apply list_elem_of_lookup in H1 as [i0 Hi0].
    destruct (Hord i0 d1 d2 Hi0 Hdesc) as (j0 & Hlt & Hj0).
    destruct (filter_keeps_order
                (fun d => (d ∉ all_keys) ∧ (d ∉ res)) d0 i0 j0 d1 d2
                Hj0 Hi0 Hlt P1 P2) as (i' & j' & Hlt' & Hj' & Hi').
    assert (i' = i) as ->.
    { eapply NoDup_lookup; [|exact Hi'|exact Hi].
      apply NoDup_filter. exact NDd. }
    exists j'. rewrite Hf, Hrl. split; [exact Hlt'|exact Hj'].
Qed.


(** C3, where the code leaves the claim: a cascaded descendant is not
    placed by its own earliest-ancestor rule, it takes the index computed
    for the changed key.  [currency] is new, [price] is changed, and the
    unchanged [invoice] depends on both.  The set hands out [currency]
    first; when [price] has been put behind it, the first placed ancestor
    of [invoice] is [currency], at index 0, which is where the rule of the
    claim puts [invoice]: in front of both.  The code puts it at index 1,
    the index of [price], behind its own ancestor [currency].  The plan
    then alters [invoice] before it creates [currency], and the marker of
    that step that stands for [currency] names no operation. *)
Theorem cascade_puts_a_dependent_behind_its_ancestor :
  sort_step 2 Examples.billing_to {[Examples.currency; Examples.price]}
    ([], {[Examples.price]}) Examples.currency
    = Ok ([Examples.currency], {[Examples.price]}) ∧
  sort_step 2 Examples.billing_to {[Examples.currency; Examples.price]}
    ([Examples.currency], {[Examples.price]}) Examples.price
    = Ok ([Examples.currency; Examples.invoice; Examples.price],
          {[Examples.price; Examples.invoice]}) ∧
  sort_sql_changes elements 2 Examples.billing_to
    {[Examples.currency]} {[Examples.price]}
    = Ok ([Examples.currency; Examples.invoice; Examples.price],
          {[Examples.price; Examples.invoice]}) ∧
  proper_ancestor (node_map Examples.billing_to)
    Examples.currency Examples.invoice ∧
  spec_earliest_ancestor_position 2 Examples.billing_to
    [Examples.currency; Examples.price] Examples.invoice = Ok 0 ∧
  list_insert 0 Examples.invoice [Examples.currency; Examples.price]
    = [Examples.invoice; Examples.currency; Examples.price] ∧
  ∃ s' keys grown alter_invoice,
    generate_changed_sql elements 2
      (Examples.planning Examples.billing_from Examples.billing_to)
      = Ok (s', keys, grown) ∧
    (fun st => (op_cls (step_op st), op_name (step_op st)))
      <$> generated_operations s' =
      [ (ReverseAlterSQL, "invoice"%string);
        (ReverseAlterSQL, "price"%string);
        (AlterSQL, "price"%string);
        (AlterSQL, "invoice"%string);
        (CreateSQL, "currency"%string) ] ∧
    generated_operations s' !! 3 = Some alter_invoice ∧
    marker ∅ Examples.currency ∈ step_deps alter_invoice.
Proof.
  split; [vm_compute; reflexivity|]. split; [vm_compute; reflexivity|].
  split; [vm_compute; reflexivity|]. split.
  { apply tc_once. eexists. split; [vm_compute; reflexivity|]. compute_done. }
  split; [vm_compute; reflexivity|]. split; [reflexivity|].
  eexists _, _, _, _. split; [vm_compute; reflexivity|].
  split; [vm_compute; reflexivity|]. split; [vm_compute; reflexivity|].
  vm_compute. left.
Qed.

Lemma sort_step_Ok_or_overflow depth g all_keys st k :
  closed parents (node_map g) -> closed children (node_map g) ->
  k ∈ dom (node_map g) ->
  (∃ st', sort_step depth g all_keys st k = Ok st') ∨
  sort_step depth g all_keys st k = Err RecursionError.
Proof.
  intros Hp Hc Hdom. apply elem_of_dom in Hdom as [node Hnode].
  destruct st as [res ch]. unfold sort_step, getitem. rewrite Hnode.
  simpl.
  destruct (walk_Ok_or_overflow parents (node_map g) Hp depth node)
    as [[l El]|El].
  { intros p Hin. exact (Hp _ _ Hnode _ Hin). }
  - unfold ancestors. rewrite El. simpl. case_decide.
    + destruct (walk_Ok_or_overflow children (node_map g) Hc depth node)
        as [[l' El']|El'].
      { intros c Hin. exact (Hc _ _ Hnode _ Hin). }
      * unfold descendants. rewrite El'. simpl. left. eauto.
      * unfold descendants. rewrite El'. simpl. right. reflexivity.
    + left. eauto.
  - unfold ancestors. rewrite El. right. reflexivity.
Qed.

Lemma sort_step_overflow depth g all_keys st k c :
  closed parents (node_map g) -> k ∈ dom (node_map g) ->
  rtc (edge_of parents (node_map g)) k c ->
  tc (edge_of parents (node_map g)) c c ->
  sort_step depth g all_keys st k = Err RecursionError.
Proof.
  intros Hp Hdom Hkc Hcc. apply elem_of_dom in Hdom as [node Hnode].
  destruct st as [res ch]. unfold sort_step, getitem at 1. rewrite Hnode.
  simpl. unfold ancestors.
  rewrite (walk_overflow parents (node_map g) Hp depth k node c Hnode Hkc Hcc).
  reflexivity.
Qed.

(** C9, as the code has it: nothing looks for a repeated key.  When a
    key to be ordered reaches a cycle of the parent edges, the traversal
    of its ancestors recurses until the budget of the interpreter is
    spent, whatever the budget: ordering ends with [RecursionError]. *)
Theorem cyclic_dependency_exhausts_the_recursion_budget set_iter depth g
    new_keys changed_keys k c :
  iterates set_iter ->
  closed parents (node_map g) -> closed children (node_map g) ->
  new_keys ∪ changed_keys ⊆ dom (node_map g) ->
  k ∈ new_keys ∪ changed_keys ->
  rtc (edge_of parents (node_map g)) k c ->
  tc (edge_of parents (node_map g)) c c ->
  sort_sql_changes set_iter depth g new_keys changed_keys = Err RecursionError.
Proof.
  intros Hit Hp Hc Hdom Hk Hkc Hcc. unfold sort_sql_changes.
  assert (k ∈ set_iter (new_keys ∪ changed_keys)) as Hin
    by (apply iterates_elem_of; assumption).
  assert (∀ x, x ∈ set_iter (new_keys ∪ changed_keys) ->
               x ∈ dom (node_map g)) as Hsub.
  { intros x Hx. apply Hdom. eapply iterates_elem_of; eassumption. }
  generalize ([] : list Key, changed_keys).
  induction (set_iter (new_keys ∪ changed_keys)) as [|x ks IH]; intros st.
  - inversion Hin.
  - cbn [for_each]. destruct (decide (x = k)) as [->|Hne].
    + rewrite (sort_step_overflow depth g _ st k c Hp); try assumption.
      * reflexivity.
      * apply Hsub. left.
    + destruct (sort_step_Ok_or_overflow depth g (new_keys ∪ changed_keys)
                  st x Hp Hc) as [[st' ->]| ->].
      * apply Hsub. left.
      * simpl. apply IH.
        -- apply elem_of_cons in Hin as [Heq|Hin]; [congruence|exact Hin].
        -- intros y Hy. apply Hsub. right. exact Hy.
      * reflexivity.
Qed.

Lemma cyclic_dependency_exhausts_the_recursion_budget_witness :
  iterates elements ∧
  closed parents (node_map Examples.loop) ∧
  closed children (node_map Examples.loop) ∧
  (({[Examples.rate]} ∪ {[Examples.sale]} : gset Key)
     ⊆ dom (node_map Examples.loop)) ∧
  Examples.rate ∈ ({[Examples.rate]} ∪ {[Examples.sale]} : gset Key) ∧
  rtc (edge_of parents (node_map Examples.loop)) Examples.rate Examples.rate ∧
  tc (edge_of parents (node_map Examples.loop)) Examples.rate Examples.rate ∧
  sort_sql_changes elements 1000 Examples.loop
    {[Examples.rate]} {[Examples.sale]} = Err RecursionError.
Proof.
  assert (closed parents (node_map Examples.loop)) as Hp by compute_done.
  assert (closed children (node_map Examples.loop)) as Hc by compute_done.
  assert (({[Examples.rate]} ∪ {[Examples.sale]} : gset Key)
            ⊆ dom (node_map Examples.loop)) as Hdom by compute_done.
  assert (Examples.rate ∈ ({[Examples.rate]} ∪ {[Examples.sale]} : gset Key))
    as Hin by compute_done.
  assert (tc (edge_of parents (node_map Examples.loop))
             Examples.rate Examples.rate) as Hcc.
  { apply tc_l with Examples.sale; [|apply tc_once].
    - eexists. split; [reflexivity|compute_done].
    - eexists. split; [reflexivity|compute_done]. }
  split; [exact iterates_elements|]. split; [exact Hp|]. split; [exact Hc|].
  split; [exact Hdom|]. split; [exact Hin|].
  split; [apply rtc_refl|]. split; [exact Hcc|].
  exact (cyclic_dependency_exhausts_the_recursion_budget elements 1000
           Examples.loop {[Examples.rate]} {[Examples.sale]}
           Examples.rate Examples.rate iterates_elements Hp Hc Hdom Hin
           (rtc_refl _ _) Hcc).
Defined.

(** C9, the claim as written fails: on two constructs that depend on
    each other, ordering with the default budget of the interpreter does
    not stop at a repeated key; it ends when the budget is spent. *)
Lemma cyclic_dependency_is_not_detected :
  (∃ n, node_map Examples.loop !! Examples.rate = Some n ∧
        Examples.sale ∈ parents n) ∧
  (∃ n, node_map Examples.loop !! Examples.sale = Some n ∧
        Examples.rate ∈ parents n) ∧
  sort_sql_changes elements 1000 Examples.loop
    {[Examples.rate; Examples.sale]} ∅ = Err RecursionError ∧
  sort_sql_changes elements 3 Examples.loop
    {[Examples.rate; Examples.sale]} ∅ = Err RecursionError.
Proof.
  split; [eexists; split; [reflexivity|compute_done]|].
  split; [eexists; split; [reflexivity|compute_done]|].
  split; vm_compute; reflexivity.
Qed.

End OrderFacts.

(** ** The snapshot differ and the plan emitter *)

Module PlanFacts.

Import OrderFacts.

Lemma pyval_nested_ind (P : pyval -> Prop) :
  P PNone -> (∀ s, P (PStr s)) -> (∀ z, P (PInt z)) ->
  (∀ l, Forall P l -> P (PList l)) ->
  (∀ l, Forall P l -> P (PTuple l)) ->
  ∀ v, P v.
Proof.
  intros HN HS HI HL HT. fix IH 1. intros [|s|z|l|l].
  - exact HN.
  - apply HS.
  - apply HI.
  - apply HL. induction l as [|x l IHl]; constructor; [apply IH|exact IHl].
  - apply HT. induction l as [|x l IHl]; constructor; [apply IH|exact IHl].
Qed.

(** [==] on payloads is equality of the values. *)
Lemma py_eq_eq (a b : pyval) : py_eq a b = true ↔ a = b.
Proof.
  revert b. induction a as [|s|z|l IH|l IH] using pyval_nested_ind;
    intros [|s'|z'|l'|l']; simpl; try (split; [discriminate|congruence]);
    try (split; congruence).
  - rewrite String.eqb_eq. split; congruence.
  - rewrite Z.eqb_eq. split; congruence.
  - revert l'. induction IH as [|x l Hx _ IHl]; intros [|y l'];
      try (split; [discriminate|congruence]); [tauto|].
    rewrite andb_true_iff, Hx, (IHl l'). split.
    + intros [-> H]. injection H as ->. reflexivity.
    + intros H. injection H as -> ->. tauto.
  - revert l'. induction IH as [|x l Hx _ IHl]; intros [|y l'];
      try (split; [discriminate|congruence]); [tauto|].
    rewrite andb_true_iff, Hx, (IHl l'). split.
    + intros [-> H]. injection H as ->. reflexivity.
    + intros H. injection H as -> ->. tauto.
Qed.

Lemma changed_loop from_graph to_graph ks : ∀ ch,
  (∀ k, k ∈ ks -> is_Some (nodes from_graph !! k) ∧ is_Some (nodes to_graph !! k)) ->
  ∃ ch', for_each (changed_step from_graph to_graph) ks ch = Ok ch' ∧
    ∀ k, k ∈ ch' ↔
         k ∈ ch ∨
         (k ∈ ks ∧ ∃ old new, nodes from_graph !! k = Some old ∧
                              nodes to_graph !! k = Some new ∧
                              py_eq (sql old) (sql new) = false).
Proof.
  induction ks as [|k ks IH]; intros ch Hks.
  - exists ch. split; [reflexivity|]. intros k. rewrite elem_of_nil. tauto.
  - destruct (Hks k) as [[old Ho] [new Hn]]; [left|].
    cbn [for_each]. unfold changed_step, getitem. rewrite Ho, Hn. simpl.
    destruct (py_eq (sql old) (sql new)) eqn:E; simpl.
    + destruct (IH ch) as (ch' & E' & Hm).
      { intros x Hx. apply Hks. right. exact Hx. }
      exists ch'. split; [exact E'|]. intros x. rewrite Hm, elem_of_cons.
      split; [tauto|]. intros [?|[[->|?] Hx]]; [tauto| |tauto].
      destruct Hx as (o & n & H1 & H2 & H3). congruence.
    + destruct (IH (ch ∪ {[k]})) as (ch' & E' & Hm).
      { intros x Hx. apply Hks. right. exact Hx. }
      exists ch'. split; [exact E'|]. intros x.
      rewrite Hm, elem_of_cons, elem_of_union, elem_of_singleton.
      split; [|tauto]. intros [[?| ->]|?]; [tauto| |tauto].
      right. split; [tauto|]. eauto.
Qed.

(** C1, as the code has it: a key of both snapshots is in
    [changed_keys] exactly when the two forward payloads differ under
    [==], where a list of parameters never equals a tuple; the reverse
    payloads are not looked at. *)
Theorem changed_keys_compare_forward_payloads set_iter from_graph to_graph :
  iterates set_iter ->
  ∃ changed_keys,
    diff_keys set_iter from_graph to_graph =
      Ok (dom (nodes to_graph) ∖ dom (nodes from_graph),
          dom (nodes from_graph) ∖ dom (nodes to_graph), changed_keys) ∧
    changed_keys ⊆ dom (nodes from_graph) ∩ dom (nodes to_graph) ∧
    ∀ k old new,
      nodes from_graph !! k = Some old -> nodes to_graph !! k = Some new ->
      (k ∈ changed_keys ↔ py_eq (sql old) (sql new) = false) ∧
      (k ∈ changed_keys ↔ sql old ≠ sql new).
Proof.
  intros Hit. unfold diff_keys.
  destruct (changed_loop from_graph to_graph
              (set_iter (dom (nodes from_graph) ∩ dom (nodes to_graph))) ∅)
    as (ch & E & Hm).
  { intros k Hk. apply (iterates_elem_of _ _ _ Hit) in Hk.
    apply elem_of_intersection in Hk as [H1 H2].
    split; apply elem_of_dom; assumption. }
  exists ch. rewrite E. simpl. split; [reflexivity|]. split.
  - intros k Hk. apply Hm in Hk as [Hk|[Hk _]]; [set_solver|].
    apply (iterates_elem_of _ _ _ Hit) in Hk. exact Hk.
  - intros k old new Ho Hn.
    assert (k ∈ ch ↔ py_eq (sql old) (sql new) = false) as Hiff.
    { rewrite Hm. split.
      - intros [Hk|[_ (o & n & H1 & H2 & H3)]]; [set_solver|congruence].
      - intros H. right. split; [|eauto].
        apply (iterates_elem_of _ _ _ Hit), elem_of_intersection.
        split; apply elem_of_dom; eauto. }
    split; [exact Hiff|]. rewrite Hiff, <- py_eq_eq.
    destruct (py_eq (sql old) (sql new)); split; congruence.
Qed.

Lemma changed_keys_compare_forward_payloads_witness :
  iterates elements ∧
  ∃ changed_keys,
    diff_keys elements Examples.diamond_from Examples.diamond_to =
      Ok (dom (nodes Examples.diamond_to) ∖ dom (nodes Examples.diamond_from),
          dom (nodes Examples.diamond_from) ∖ dom (nodes Examples.diamond_to),
          changed_keys) ∧
    changed_keys
      ⊆ dom (nodes Examples.diamond_from) ∩ dom (nodes Examples.diamond_to).
Proof.
  split; [exact iterates_elements|].
  destruct (changed_keys_compare_forward_payloads elements
              Examples.diamond_from Examples.diamond_to iterates_elements)
    as (ch & E & Hsub & _).
  exists ch. split; [exact E|exact Hsub].
Defined.

(** C1, the claim as written fails twice: a construct whose reverse
    statement alone differs is not in [changed_keys], and a construct
    whose parameters moved from a list to a tuple with the same values
    is. *)
Lemma changed_keys_ignore_reverse_and_tell_list_from_tuple :
  (spec_construct_eq Examples.books_v1
     (mkSqlItemNode (sql Examples.books_v1)
        (PStr "DROP FUNCTION IF EXISTS top_books()")) = false ∧
   diff_keys elements Examples.reverse_only_from Examples.reverse_only_to
     = Ok (∅, ∅, ∅)) ∧
  (spec_construct_eq Examples.params_list Examples.params_tuple = true ∧
   diff_keys elements Examples.params_from Examples.params_to
     = Ok (∅, ∅, {[Examples.top_books]})).
Proof. repeat split; vm_compute; reflexivity. Qed.

(** C8: a marker of this package is satisfied by a step exactly when
    the step recorded in it is that very step (the same object); the
    markers of the host go to the check of the host.  In particular the
    marker made for a key is satisfied exactly by the latest step
    recorded for the key. *)
Theorem check_dependency_by_identity host_check (op : operation)
    (dep : dependency) :
  (dep_dom dep = SQL_BLOB ->
     (check_dependency host_check op dep = true ↔
      ∃ o, dep_inf dep = InfoOperation o ∧ op_id o = op_id op)) ∧
  (∀ m, dep_dom dep = HostModel m ->
     check_dependency host_check op dep = host_check op dep) ∧
  (∀ latest k,
     check_dependency host_check op (marker latest k) = true ↔
     ∃ o, latest !! k = Some o ∧ op_id o = op_id op).
Proof.
  unfold check_dependency. split; [|split].
  - intros Hdom. rewrite Hdom. destruct (dep_inf dep) as [|o|v]; simpl.
    + split; [discriminate|]. intros (o & Ho & _). discriminate.
    + unfold op_eqb. rewrite Nat.eqb_eq. split.
      * intros Hid. exists o. tauto.
      * intros (o' & Ho' & Hid). injection Ho' as <-. exact Hid.
    + split; [discriminate|]. intros (o & Ho & _). discriminate.
  - intros m Hdom. rewrite Hdom. reflexivity.
  - intros latest k. simpl. destruct (latest !! k) as [o|]; simpl.
    + unfold op_eqb. rewrite Nat.eqb_eq. split.
      * intros Hid. exists o. tauto.
      * intros (o' & Ho' & Hid). injection Ho' as <-. exact Hid.
    + split; [discriminate|]. intros (o & Ho & _). discriminate.
Qed.

Lemma check_dependency_by_identity_witness :
  dep_dom Examples.wait_for_books = SQL_BLOB ∧
  (check_dependency (fun _ _ => false) Examples.create_books
     Examples.wait_for_books = true ↔
   ∃ o, dep_inf Examples.wait_for_books = InfoOperation o ∧
        op_id o = op_id Examples.create_books).
Proof.
  split; [reflexivity|].
  apply (check_dependency_by_identity (fun _ _ => false)
           Examples.create_books Examples.wait_for_books).
  reflexivity.
Defined.

Lemma teardown_step_skip set_iter changed_keys s k :
  k ∉ changed_keys -> teardown_step set_iter changed_keys s k = Ok s.
Proof. intros H. unfold teardown_step. rewrite decide_True by exact H. reflexivity. Qed.

Lemma teardown_step_changed set_iter changed_keys s k old fnode :
  k ∈ changed_keys ->
  nodes (from_sql_graph s) !! k = Some old ->
  node_map (from_sql_graph s) !! k = Some fnode ->
  teardown_step set_iter changed_keys s k =
    Ok {| from_sql_graph :=
            {| nodes := nodes (from_sql_graph s);
               node_map := <[k := add_child k fnode]> (node_map (from_sql_graph s));
               dependencies := dependencies (from_sql_graph s) |};
          to_sql_graph := to_sql_graph s;
          generated_operations :=
            generated_operations s ++
            (if truthy (reverse_sql old)
             then [mkStep k.1
                     (mkOperation (next_id s) ReverseAlterSQL k.2
                        (reverse_sql old) (sql old) None)
                     (map (marker (latest_operations s))
                        (set_iter (children (add_child k fnode))))]
             else []);
          latest_operations :=
            <[k := mkOperation (next_id s) ReverseAlterSQL k.2
                     (reverse_sql old) (sql old) None]> (latest_operations s);
          next_id := S (next_id s) |}.
Proof.
  intros Hin Ho Hf. unfold teardown_step.
  rewrite decide_False by (intros H; exact (H Hin)).
  destruct k as [app_label sql_name]. unfold getitem. rewrite Ho, Hf. simpl.
  destruct (truthy (reverse_sql old)); [reflexivity|].
  rewrite app_nil_r. reflexivity.
Qed.

(** C5: in the teardown pass over the plan order, a key of
    [changed_keys] gives a [ReverseAlterSQL] step, made of the old reverse
    statement and undone by the old forward statement, exactly when the old
    reverse statement is not empty; with or without a step, the operation
    is recorded as the latest one of the key. *)
Theorem teardown_pass_emits_iff_reverse_sql set_iter changed_keys keys : ∀ s,
  (∀ k, k ∈ keys -> k ∈ changed_keys ->
        is_Some (nodes (from_sql_graph s) !! k) ∧
        is_Some (node_map (from_sql_graph s) !! k)) ->
  ∃ s' emitted,
    for_each (teardown_step set_iter changed_keys) keys s = Ok s' ∧
    nodes (from_sql_graph s') = nodes (from_sql_graph s) ∧
    dom (node_map (from_sql_graph s')) = dom (node_map (from_sql_graph s)) ∧
    to_sql_graph s' = to_sql_graph s ∧
    generated_operations s' = generated_operations s ++ emitted ∧
    step_summary <$> emitted =
      omap (spec_teardown (nodes (from_sql_graph s)) changed_keys) keys ∧
    (∀ k, k ∈ keys -> k ∈ changed_keys ->
       ∃ op old,
         latest_operations s' !! k = Some op ∧
         nodes (from_sql_graph s) !! k = Some old ∧
         op_cls op = ReverseAlterSQL ∧ op_name op = k.2 ∧
         op_sql op = reverse_sql old ∧ op_reverse_sql op = sql old) ∧
    (∀ k, ¬ (k ∈ keys ∧ k ∈ changed_keys) ->
       latest_operations s' !! k = latest_operations s !! k).
Proof.
  induction keys as [|k keys IH]; intros s Hok.
  - exists s, []. cbn [for_each]. rewrite app_nil_r.
    repeat split; try reflexivity.
    intros k Hk. inversion Hk.
  - cbn [for_each].
    destruct (decide (k ∈ changed_keys)) as [Hin|Hk].
    + destruct (Hok k) as [[old Ho] [fnode Hf]]; [left|exact Hin|].
      rewrite (teardown_step_changed _ _ _ _ old fnode Hin Ho Hf).
      cbn [mbind result_bind].
      match goal with
      | |- context [for_each _ keys ?s1] => set (s1' := s1)
      end.
      destruct (IH s1') as (s' & em & E & HN & HD & HT & HG & HS & HL & HF).
      { intros x Hx Hc. subst s1'. simpl.
        destruct (Hok x) as [H1 H2]; [right; exact Hx|exact Hc|].
        split; [exact H1|]. rewrite lookup_insert. case_decide; [eauto|exact H2]. }
      subst s1'. simpl in HN, HD, HT, HG, HS, HL, HF.
      exists s'.
      exists ((if truthy (reverse_sql old)
               then [mkStep k.1
                       (mkOperation (next_id s) ReverseAlterSQL k.2
                          (reverse_sql old) (sql old) None)
                       (map (marker (latest_operations s))
                          (set_iter (children (add_child k fnode))))]
               else []) ++ em).
      split; [exact E|]. split; [exact HN|]. split.
      { rewrite HD, dom_insert_L.
        assert (k ∈ dom (node_map (from_sql_graph s)))
          by (apply elem_of_dom; eauto).
        set_solver. }
      split; [exact HT|]. split.
      { rewrite HG, <- app_assoc. reflexivity. }
      split.
      { rewrite fmap_app, HS. simpl. unfold spec_teardown at 2.
        rewrite decide_True by exact Hin. rewrite Ho. simpl.
        destruct (truthy (reverse_sql old)); reflexivity. }
      split.
      * intros x Hx Hc.
        destruct (decide (x ∈ keys)) as [Hxk|Hxk]; [apply HL; assumption|].
        apply elem_of_cons in Hx as [->|Hx]; [|tauto].
        rewrite HF by tauto. rewrite lookup_insert_eq.
        eexists. exists old. split; [reflexivity|]. split; [exact Ho|].
        simpl. tauto.
      * intros x Hx. rewrite HF.
        -- apply lookup_insert_ne. intros <-. apply Hx. split; [left|exact Hin].
        -- intros [H1 H2]. apply Hx. split; [right; exact H1|exact H2].
    + rewrite teardown_step_skip by exact Hk. cbn [mbind result_bind].
      destruct (IH s) as (s' & em & E & HN & HD & HT & HG & HS & HL & HF).
      { intros x Hx. apply Hok. right. exact Hx. }
      exists s', em. split; [exact E|]. split; [exact HN|]. split; [exact HD|].
      split; [exact HT|]. split; [exact HG|]. split.
      * rewrite HS. simpl. unfold spec_teardown at 2.
        rewrite decide_False by exact Hk. reflexivity.
      * split.
        -- intros x Hx Hc. apply HL; [|exact Hc].
           apply elem_of_cons in Hx as [->|Hx]; [tauto|exact Hx].
        -- intros x Hx. apply HF. intros [H1 H2]. apply Hx.
           split; [right; exact H1|exact H2].
Qed.

Lemma teardown_pass_emits_iff_reverse_sql_witness :
  (∀ k, k ∈ [Examples.sale; Examples.rate; Examples.kind] ->
        k ∈ ({[Examples.kind; Examples.rate; Examples.sale]} : gset Key) ->
        is_Some (nodes Examples.diamond_from !! k) ∧
        is_Some (node_map Examples.diamond_from !! k)) ∧
  ∃ s' emitted,
    for_each (teardown_step elements {[Examples.kind; Examples.rate; Examples.sale]})
      [Examples.sale; Examples.rate; Examples.kind]
      (Examples.planning Examples.diamond_from Examples.diamond_to) = Ok s' ∧
    generated_operations s' = emitted ∧
    step_summary <$> emitted =
      omap (spec_teardown (nodes Examples.diamond_from)
              {[Examples.kind; Examples.rate; Examples.sale]})
        [Examples.sale; Examples.rate; Examples.kind].
Proof.
  assert (∀ k, k ∈ [Examples.sale; Examples.rate; Examples.kind] ->
        k ∈ ({[Examples.kind; Examples.rate; Examples.sale]} : gset Key) ->
        is_Some (nodes Examples.diamond_from !! k) ∧
        is_Some (node_map Examples.diamond_from !! k)) as Hok.
  { intros k Hk _.
    repeat (apply elem_of_cons in Hk as [->|Hk]; [split; compute_done|]).
    inversion Hk. }
  split; [exact Hok|].
  destruct (teardown_pass_emits_iff_reverse_sql elements
              {[Examples.kind; Examples.rate; Examples.sale]}
              [Examples.sale; Examples.rate; Examples.kind]
              (Examples.planning Examples.diamond_from Examples.diamond_to) Hok)
    as (s' & em & E & _ & _ & _ & HG & HS & _).
  exists s', em. split; [exact E|]. split; [exact HG|exact HS].
Defined.

(** A changed construct without reverse statement: no step, but the
    operation is the latest one of the key. *)
Example teardown_without_reverse_sql :
  ∃ s', teardown_step elements {[Examples.top_books]}
          (Examples.planning Examples.no_reverse_from Examples.only_books)
          Examples.top_books = Ok s' ∧
        generated_operations s' = [] ∧
        latest_operations s' !! Examples.top_books =
          Some (mkOperation 0 ReverseAlterSQL "top_books" PNone
                  (sql Examples.books_v1) None).
Proof. eexists. split; [reflexivity|]. split; reflexivity. Qed.

(** Whenever the rebuild loop reaches a key, the node of the key in the to
    graph gets the key as one of its own parents; the constructs and the
    pending declarations stay. *)
Lemma rebuild_step_adds_key_to_own_parents set_iter changed_keys s k s' :
  rebuild_step set_iter changed_keys s k = Ok s' ->
  (∃ n, node_map (to_sql_graph s') !! k = Some n ∧ k ∈ parents n) ∧
  nodes (to_sql_graph s') = nodes (to_sql_graph s) ∧
  dependencies (to_sql_graph s') = dependencies (to_sql_graph s) ∧
  from_sql_graph s' = from_sql_graph s.
Proof.
  intros E. unfold rebuild_step in E. destruct k as [app_label sql_name].
  destruct (getitem (nodes (to_sql_graph s)) (app_label, sql_name))
    as [new|]; [|discriminate].
  destruct (getitem (node_map (to_sql_graph s)) (app_label, sql_name))
    as [tnode|]; [|discriminate].
  simpl in E. injection E as <-. simpl. repeat split.
  eexists. split; [apply lookup_insert_eq|]. simpl. set_solver.
Qed.

(** Whenever the teardown loop reaches a changed key, the node of the key in
    the from graph gets the key as one of its own children. *)
Lemma teardown_step_adds_key_to_own_children set_iter changed_keys s k s' :
  k ∈ changed_keys ->
  teardown_step set_iter changed_keys s k = Ok s' ->
  (∃ n, node_map (from_sql_graph s') !! k = Some n ∧ k ∈ children n) ∧
  nodes (from_sql_graph s') = nodes (from_sql_graph s) ∧
  dependencies (from_sql_graph s') = dependencies (from_sql_graph s) ∧
  to_sql_graph s' = to_sql_graph s.
Proof.
  intros Hin E. unfold teardown_step in E.
  rewrite decide_False in E by (intros H; exact (H Hin)).
  destruct k as [app_label sql_name].
  destruct (getitem (nodes (from_sql_graph s)) (app_label, sql_name))
    as [old|]; [|discriminate].
  destruct (getitem (node_map (from_sql_graph s)) (app_label, sql_name))
    as [fnode|]; [|discriminate].
  simpl in E. injection E as <-. simpl. repeat split.
  eexists. split; [apply lookup_insert_eq|]. simpl. set_solver.
Qed.

(** C2, evaluated: planning writes into both snapshots.  Creating
    [top_books] from nothing leaves the node of [top_books] in the to
    graph with itself as a parent; altering [kind] leaves the node of
    [kind] in the from graph with itself as a child.  The construct
    dictionaries are not touched. *)
Theorem planning_adds_keys_to_their_own_edge_sets :
  (∃ p keys changed,
     generate_changed_sql elements 2
       (Examples.planning empty_graph Examples.only_books)
       = Ok (p, keys, changed) ∧
     step_summary <$> generated_operations p =
       [("test_app", CreateSQL, "top_books",
         sql Examples.books_v1, reverse_sql Examples.books_v1)] ∧
     parents <$> node_map Examples.only_books !! Examples.top_books = Some ∅ ∧
     parents <$> node_map (to_sql_graph p) !! Examples.top_books
       = Some {[Examples.top_books]} ∧
     nodes (to_sql_graph p) = nodes Examples.only_books) ∧
  (∃ p keys changed,
     generate_changed_sql elements 2
       (Examples.planning Examples.diamond_from Examples.diamond_to)
       = Ok (p, keys, changed) ∧
     children <$> node_map Examples.diamond_from !! Examples.kind
       = Some {[Examples.rate; Examples.sale]} ∧
     children <$> node_map (from_sql_graph p) !! Examples.kind
       = Some {[Examples.rate; Examples.sale; Examples.kind]} ∧
     parents <$> node_map Examples.diamond_to !! Examples.rate
       = Some {[Examples.kind]} ∧
     parents <$> node_map (to_sql_graph p) !! Examples.rate
       = Some {[Examples.kind; Examples.rate]} ∧
     nodes (from_sql_graph p) = nodes Examples.diamond_from ∧
     nodes (to_sql_graph p) = nodes Examples.diamond_to).
Proof.
  split.
  - eexists _, _, _. split; [vm_compute; reflexivity|].
    repeat split; vm_compute; reflexivity.
  - eexists _, _, _. split; [vm_compute; reflexivity|].
    repeat split; vm_compute; reflexivity.
Qed.

(** *** The identity of the steps *)

Lemma for_each_preserves {S} (P : S -> Prop) (body : S -> Key -> result S) keys :
  (∀ s k s', P s -> body s k = Ok s' -> P s') ->
  ∀ s s', P s -> for_each body keys s = Ok s' -> P s'.
Proof.
  intros Hbody. induction keys as [|k keys IH]; intros s s' Hs E.
  - injection E as <-. exact Hs.
  - cbn [for_each] in E. destruct (body s k) as [s1|e] eqn:E1; [|discriminate].
    apply (IH s1); [|exact E]. eapply Hbody; eassumption.
Qed.

Lemma fresh_ids_construct s g1 g2 (emit : bool) app k cls name fwd bwd deps marks :
  fresh_ids s ->
  fresh_ids
    {| from_sql_graph := g1; to_sql_graph := g2;
       generated_operations :=
         generated_operations s ++
         (if emit
          then [mkStep app (mkOperation (next_id s) cls name fwd bwd deps) marks]
          else []);
       latest_operations :=
         <[k := mkOperation (next_id s) cls name fwd bwd deps]> (latest_operations s);
       next_id := S (next_id s) |}.
Proof.
  intros (H1 & H2 & H3). unfold fresh_ids; simpl. split; [|split].
  - intros st Hst. apply elem_of_app in Hst as [Hst|Hst].
    + apply H1 in Hst. lia.
    + destruct emit; [|inversion Hst].
      apply list_elem_of_singleton in Hst. subst st. simpl. lia.
  - intros k' o Ho. rewrite lookup_insert in Ho. case_decide.
    + injection Ho as <-. simpl. lia.
    + apply H2 in Ho. lia.
  - rewrite fmap_app. apply NoDup_app. split; [exact H3|]. split.
    + intros i Hi Hi'. destruct emit; [|inversion Hi'].
      apply list_elem_of_singleton in Hi'. simpl in Hi'. subst i.
      apply list_elem_of_fmap in Hi as (st & Hid & Hst). apply H1 in Hst. lia.
    + destruct emit; simpl; [apply NoDup_singleton|constructor].
Qed.

Lemma teardown_step_fresh set_iter changed_keys s k s' :
  fresh_ids s -> teardown_step set_iter changed_keys s k = Ok s' -> fresh_ids s'.
Proof.
  intros Hs E. unfold teardown_step in E. case_decide.
  - injection E as <-. exact Hs.
  - destruct k as [app_label sql_name].
    destruct (getitem (nodes (from_sql_graph s)) (app_label, sql_name))
      as [old|]; [|discriminate].
    destruct (getitem (node_map (from_sql_graph s)) (app_label, sql_name))
      as [fnode|]; [|discriminate].
    simpl in E. injection E as <-.
    pose proof (fresh_ids_construct s) as Hc.
    destruct (truthy (reverse_sql old)).
    + apply (Hc _ _ true). exact Hs.
    + rewrite <- (app_nil_r (generated_operations s)).
      apply (Hc _ _ false app_label _ _ _ _ _ _ []). exact Hs.
Qed.

Lemma rebuild_step_fresh set_iter changed_keys s k s' :
  fresh_ids s -> rebuild_step set_iter changed_keys s k = Ok s' -> fresh_ids s'.
Proof.
  intros Hs E. unfold rebuild_step in E. destruct k as [app_label sql_name].
  destruct (getitem (nodes (to_sql_graph s)) (app_label, sql_name))
    as [new|]; [|discriminate].
  destruct (getitem (node_map (to_sql_graph s)) (app_label, sql_name))
    as [tnode|]; [|discriminate].
  simpl in E. injection E as <-.
  apply (fresh_ids_construct s _ _ true). exact Hs.
Qed.

Lemma delete_step_fresh s k s' :
  fresh_ids s -> delete_step s k = Ok s' -> fresh_ids s'.
Proof.
  intros (H1 & H2 & H3) E. unfold delete_step in E.
  destruct k as [app_label sql_name].
  destruct (getitem (nodes (from_sql_graph s)) (app_label, sql_name))
    as [old|]; [|discriminate].
  simpl in E. injection E as <-. unfold fresh_ids; simpl. split; [|split].
  - intros st Hst. apply elem_of_app in Hst as [Hst|Hst].
    + apply H1 in Hst. lia.
    + apply list_elem_of_singleton in Hst. subst st. simpl. lia.
  - intros k' o Ho. apply H2 in Ho. lia.
  - rewrite fmap_app. apply NoDup_app. split; [exact H3|]. split.
    + intros i Hi Hi'. apply list_elem_of_singleton in Hi'. simpl in Hi'. subst i.
      apply list_elem_of_fmap in Hi as (st & Hid & Hst). apply H1 in Hst. lia.
    + apply NoDup_singleton.
Qed.

(** The steps that a run of [generate_changed_sql] hands to the host all
    have their own identity: [==] tells any two of them apart. *)
Lemma generate_changed_sql_fresh set_iter depth s p keys changed_keys :
  (∀ st, st ∈ generated_operations s -> op_id (step_op st) < next_id s) ->
  NoDup ((fun st => op_id (step_op st)) <$> generated_operations s) ->
  generate_changed_sql set_iter depth s = Ok (p, keys, changed_keys) ->
  fresh_ids p ∧
  ∀ i j a b, generated_operations p !! i = Some a ->
             generated_operations p !! j = Some b ->
             op_eqb (step_op a) (step_op b) = true -> i = j.
Proof.
  intros H1 H3 E. unfold generate_changed_sql in E.
  destruct (diff_keys set_iter (from_sql_graph s) (to_sql_graph s))
    as [[[new_keys deleted_keys] ch0]|]; [|discriminate].
  cbn [mbind result_bind] in E.
  destruct (sort_sql_changes set_iter depth (to_sql_graph s) new_keys ch0)
    as [[ks ch]|]; [|discriminate].
  cbn [mbind result_bind] in E.
  match type of E with
  | context [for_each (teardown_step _ _) _ ?s0] => set (s0' := s0) in E
  end.
  assert (fresh_ids s0') as H0.
  { subst s0'. split; [exact H1|]. split; [|exact H3].
    intros k o Ho. simpl in Ho. rewrite lookup_empty in Ho. discriminate. }
  destruct (for_each (teardown_step set_iter ch) ks s0') as [s1|] eqn:E1;
    [|discriminate].
  cbn [mbind result_bind] in E.
  destruct (for_each (rebuild_step set_iter ch) (rev ks) s1) as [s2|] eqn:E2;
    [|discriminate].
  cbn [mbind result_bind] in E.
  destruct (for_each delete_step (set_iter deleted_keys) s2) as [s3|] eqn:E3;
    [|discriminate].
  cbn [mbind result_bind] in E. injection E as <- <- <-.
  assert (fresh_ids s1) as Hf1.
  { eapply (for_each_preserves fresh_ids); [|exact H0|exact E1].
    intros ? ? ?. apply teardown_step_fresh. }
  assert (fresh_ids s2) as Hf2.
  { eapply (for_each_preserves fresh_ids); [|exact Hf1|exact E2].
    intros ? ? ?. apply rebuild_step_fresh. }
  assert (fresh_ids s3) as Hf.
  { eapply (for_each_preserves fresh_ids); [|exact Hf2|exact E3].
    intros ? ? ?. apply delete_step_fresh. }
  split; [exact Hf|]. destruct Hf as (_ & _ & ND).
  intros i j a b Hi Hj Heq. unfold op_eqb in Heq. apply Nat.eqb_eq in Heq.
  eapply NoDup_lookup; [exact ND| |].
  - rewrite list_lookup_fmap, Hi. reflexivity.
  - rewrite list_lookup_fmap, Hj. simpl. f_equal. symmetry. exact Heq.
Qed.

(** *** The scenarios of the spec *)

(** Scenario B: a changed construct is torn down with its old statements
    and rebuilt with the new ones. *)
Example plan_of_a_changed_construct :
  ∃ p keys changed,
    generate_changed_sql elements 2
      (Examples.planning Examples.only_books Examples.changed_books)
      = Ok (p, keys, changed) ∧
    step_summary <$> generated_operations p =
      [("test_app", ReverseAlterSQL, "top_books",
        reverse_sql Examples.books_v1, sql Examples.books_v1);
       ("test_app", AlterSQL, "top_books",
        sql Examples.books_v2, reverse_sql Examples.books_v2)].
Proof. eexists _, _, _. split; vm_compute; reflexivity. Qed.

(** Scenario D: a construct that is gone is deleted with its old reverse
    statement. *)
Example plan_of_a_removed_construct :
  ∃ p keys changed,
    generate_changed_sql elements 2
      (Examples.planning Examples.only_books empty_graph)
      = Ok (p, keys, changed) ∧
    step_summary <$> generated_operations p =
      [("test_app", DeleteSQL, "top_books",
        reverse_sql Examples.books_v1, sql Examples.books_v1)].
Proof. eexists _, _, _. split; vm_compute; reflexivity. Qed.

(** Identical snapshots give an empty plan. *)
Example plan_of_identical_snapshots :
  ∃ p keys changed,
    generate_changed_sql elements 2
      (Examples.planning Examples.diamond_to Examples.diamond_to)
      = Ok (p, keys, changed) ∧
    generated_operations p = [] ∧ keys = [].
Proof. eexists _, _, _. split; [|split]; vm_compute; reflexivity. Qed.

End PlanFacts.

(** ** Further properties of the dependency graph *)

Module GraphLaws.

Import GraphFacts.

Lemma list_remove_first_split {A} `{EqDecision A} (x : A) (l : list A) :
  x ∈ l ->
  ∃ l1 l2, l = l1 ++ x :: l2 ∧ (x ∉ l1) ∧ list_remove_first x l = l1 ++ l2.
Proof.
  induction l as [|y l IH]; intros Hin; [inversion Hin|].
  simpl. destruct (decide (y = x)) as [->|Hne].
  - exists [], l. split; [reflexivity|]. split; [apply not_elem_of_nil|reflexivity].
  - apply elem_of_cons in Hin as [->|Hin]; [congruence|].
    destruct (IH Hin) as (l1 & l2 & -> & Hx & E).
    exists (y :: l1), l2. split; [reflexivity|]. split.
    + rewrite not_elem_of_cons. split; [congruence|exact Hx].
    + simpl. rewrite E. reflexivity.
Qed.

(** Taking away, one by one, the first occurrence of every element that
    satisfies [P] leaves the elements that do not, in order. *)
Lemma remove_all_first_occurrences {A} `{EqDecision A} (P : A -> Prop)
    `{∀ x, Decision (P x)} (r : list A) : ∀ l,
  r ≡ₚ filter P l ->
  foldl (fun deps dep => list_remove_first dep deps) l r
    = filter (fun x => ¬ P x) l.
Proof.
  induction r as [|x r IH]; intros l Hr.
  - simpl. symmetry in Hr. apply Permutation_nil_r in Hr.
    induction l as [|y l IHl]; [reflexivity|].
    rewrite filter_cons in Hr. destruct (decide (P y)) as [Hy|Hy]; [discriminate|].
    rewrite filter_cons_True by exact Hy. f_equal. apply IHl. exact Hr.
  - assert (x ∈ filter P l) as Hx by (rewrite <- Hr; left).
    apply list_elem_of_filter in Hx as [Px Hx].
    destruct (list_remove_first_split x l Hx) as (l1 & l2 & -> & Hx1 & E).
    simpl. rewrite E. rewrite IH.
    + rewrite !filter_app, filter_cons_False by tauto. reflexivity.
    + rewrite filter_app, filter_cons_True in Hr by exact Px.
      rewrite filter_app. eapply Permutation_cons_app_inv. exact Hr.
Qed.

(** X1: [remove_lazy_dependencies] drops every pending declaration of the
    given application for the given child, however often it is listed, and
    keeps all the others in their order; the two dictionaries are not
    touched. *)
Theorem remove_lazy_dependencies_drops_exactly (g : SqlStateGraph)
    (app_label : string) (child : Key) :
  dependencies (remove_lazy_dependencies g app_label child) =
    filter (fun dep => ¬ (dep.1.1 = app_label ∧ dep.1.2 = child))
      (dependencies g) ∧
  nodes (remove_lazy_dependencies g app_label child) = nodes g ∧
  node_map (remove_lazy_dependencies g app_label child) = node_map g.
Proof.
  unfold remove_lazy_dependencies; simpl. split; [|split; reflexivity].
  apply (remove_all_first_occurrences
           (fun dep : string * Key * Key => dep.1.1 = app_label ∧ dep.1.2 = child)).
  reflexivity.
Qed.

(** X2: a declaration that is added and then removed again leaves the
    graph as it was, provided the application had declared nothing for that
    child before. *)
Theorem remove_lazy_dependencies_undoes_add (g : SqlStateGraph)
    (app_label : string) (child parent : Key) :
  Forall (fun dep => ¬ (dep.1.1 = app_label ∧ dep.1.2 = child)) (dependencies g) ->
  remove_lazy_dependencies
    (add_lazy_dependency g app_label child parent) app_label child = g.
Proof.
  intros Hnone.
  pose proof (remove_all_first_occurrences
                (fun dep : string * Key * Key =>
                   dep.1.1 = app_label ∧ dep.1.2 = child)
                (filter (fun dep => dep.1.1 = app_label ∧ dep.1.2 = child)
                   (dependencies g ++ [(app_label, child, parent)]))
                (dependencies g ++ [(app_label, child, parent)])
                (reflexivity _)) as Hd.
  destruct g as [ns nm ds]. unfold remove_lazy_dependencies. simpl in *.
  f_equal. rewrite Hd, filter_app.
  rewrite (filter_cons_False _ (app_label, child, parent)) by (simpl; tauto).
  rewrite filter_nil, app_nil_r.
  clear Hd. induction Hnone as [|d ds Hdep _ IH]; [reflexivity|].
  rewrite filter_cons_True by exact Hdep. f_equal. exact IH.
Qed.

Lemma remove_lazy_dependencies_undoes_add_witness :
  Forall (fun dep => ¬ (dep.1.1 = "test_app"%string ∧ dep.1.2 = Examples.top_books))
    (dependencies Examples.two_books_pending) ∧
  remove_lazy_dependencies
    (add_lazy_dependency Examples.two_books_pending "test_app"
       Examples.top_books Examples.top_authors)
    "test_app" Examples.top_books = Examples.two_books_pending.
Proof.
  assert (Forall (fun dep => ¬ (dep.1.1 = "test_app"%string
                                ∧ dep.1.2 = Examples.top_books))
            (dependencies Examples.two_books_pending)) as H
    by (repeat constructor; compute_done).
  split; [exact H|].
  exact (remove_lazy_dependencies_undoes_add Examples.two_books_pending
           "test_app" Examples.top_books Examples.top_authors H).
Defined.

(** X3: registering a key that is in neither dictionary and removing it
    again gives the graph back. *)
Theorem remove_node_undoes_add_node (g : SqlStateGraph) (k : Key)
    (v : SqlItemNode) :
  nodes g !! k = None -> node_map g !! k = None ->
  remove_node (add_node g k v) k = g.
Proof.
  intros Hn Hm. unfold remove_node.
  rewrite decide_True.
  - destruct g as [ns nm ds]. simpl in *.
    rewrite !delete_insert_id by assumption. reflexivity.
  - simpl. rewrite !dom_insert_L. set_solver.
Qed.

Lemma remove_node_undoes_add_node_witness :
  nodes Examples.one_book !! Examples.top_books = None ∧
  node_map Examples.one_book !! Examples.top_books = None ∧
  remove_node (add_node Examples.one_book Examples.top_books Examples.books_v1)
    Examples.top_books = Examples.one_book.
Proof.
  split; [reflexivity|]. split; [reflexivity|].
  exact (remove_node_undoes_add_node Examples.one_book Examples.top_books
           Examples.books_v1 eq_refl eq_refl).
Defined.

(** One round of the resolution loop only adds to the edge sets. *)
Lemma resolve_one_grows g dep g' :
  resolve_one g dep = Ok g' ->
  nodes g' = nodes g ∧ dependencies g' = dependencies g ∧
  ∀ k, match node_map g !! k with
       | None => node_map g' !! k = None
       | Some n => ∃ n', node_map g' !! k = Some n' ∧ key n' = key n ∧
                         parents n ⊆ parents n' ∧ children n ⊆ children n'
       end.
Proof.
  destruct dep as [[a c] p]. unfold resolve_one.
  case_decide; [discriminate|]. case_decide; [discriminate|].
  destruct (node_map g !! c) as [cn|] eqn:Hc.
  2:{ rewrite (getitem_None _ _ Hc). intros E. discriminate E. }
  rewrite (getitem_Some _ _ _ Hc). cbn [mbind result_bind].
  destruct (node_map g !! p) as [pn|] eqn:Hp.
  2:{ rewrite (getitem_None _ _ Hp). intros E. discriminate E. }
  rewrite (getitem_Some _ _ _ Hp). cbn [mbind result_bind]. unfold getitem.
  destruct (decide (c = p)) as [->|Hne].
  - rewrite !lookup_insert_eq. cbn [mbind result_bind]. intros E. injection E as <-.
    simpl. split; [reflexivity|]. split; [reflexivity|].
    intros k. rewrite insert_insert_eq. destruct (decide (k = p)) as [->|Hk].
    + rewrite Hp, lookup_insert_eq. eexists. split; [reflexivity|].
      simpl. set_solver.
    + rewrite lookup_insert_ne by congruence.
      destruct (node_map g !! k) as [n|]; [|reflexivity].
      exists n. set_solver.
  - rewrite (lookup_insert_ne _ c p) by exact Hne. rewrite Hp, lookup_insert_eq.
    cbn [mbind result_bind]. intros E. injection E as <-.
    simpl. split; [reflexivity|]. split; [reflexivity|].
    intros k. destruct (decide (k = p)) as [->|Hk1].
    + rewrite Hp, lookup_insert_eq. eexists. split; [reflexivity|].
      simpl. set_solver.
    + rewrite lookup_insert_ne by congruence.
      destruct (decide (k = c)) as [->|Hk2].
      * rewrite Hc, lookup_insert_eq. eexists. split; [reflexivity|].
        simpl. set_solver.
      * rewrite lookup_insert_ne by congruence.
        destruct (node_map g !! k) as [n|]; [|reflexivity].
        exists n. set_solver.
Qed.

Lemma resolve_loop_grows deps : ∀ g,
  nodes (resolve_loop deps g).1 = nodes g ∧
  dependencies (resolve_loop deps g).1 = dependencies g ∧
  ∀ k, match node_map g !! k with
       | None => node_map (resolve_loop deps g).1 !! k = None
       | Some n => ∃ n', node_map (resolve_loop deps g).1 !! k = Some n' ∧
                         key n' = key n ∧
                         parents n ⊆ parents n' ∧ children n ⊆ children n'
       end.
Proof.
  induction deps as [|dep deps IH]; intros g; cbn [resolve_loop].
  - simpl. split; [reflexivity|]. split; [reflexivity|].
    intros k. destruct (node_map g !! k) as [n|]; [|reflexivity].
    exists n. set_solver.
  - destruct (resolve_one g dep) as [g1|e] eqn:E1.
    + destruct (resolve_one_grows _ _ _ E1) as (N1 & D1 & M1).
      destruct (IH g1) as (N & D & M).
      split; [congruence|]. split; [congruence|].
      intros k. specialize (M1 k). specialize (M k).
      destruct (node_map g !! k) as [n|].
      * destruct M1 as (n1 & L1 & K1 & P1 & C1). rewrite L1 in M.
        destruct M as (n' & L & K & P & C). exists n'.
        split; [exact L|]. split; [congruence|]. set_solver.
      * rewrite M1 in M. exact M.
    + simpl. split; [reflexivity|]. split; [reflexivity|].
      intros k. destruct (node_map g !! k) as [n|]; [|reflexivity].
      exists n. set_solver.
Qed.

(** X4: whether it ends normally or raises, [resolve_dependencies] leaves
    the constructs and the pending declarations as they are, registers and
    drops no node, and takes no edge away: every node keeps its key, its
    parents and its children, and may only gain some. *)
Theorem resolve_dependencies_only_adds_edges (g : SqlStateGraph) :
  nodes (resolve_dependencies g).1 = nodes g ∧
  dependencies (resolve_dependencies g).1 = dependencies g ∧
  dom (node_map (resolve_dependencies g).1) = dom (node_map g) ∧
  ∀ k n, node_map g !! k = Some n ->
    ∃ n', node_map (resolve_dependencies g).1 !! k = Some n' ∧
          key n' = key n ∧
          parents n ⊆ parents n' ∧ children n ⊆ children n'.
Proof.
  unfold resolve_dependencies.
  destruct (resolve_loop_grows (dependencies g) g) as (N & D & M).
  split; [exact N|]. split; [exact D|]. split.
  - apply set_eq. intros k. rewrite !elem_of_dom. specialize (M k).
    destruct (node_map g !! k) as [n|].
    + destruct M as (n' & -> & _). split; eauto.
    + rewrite M. reflexivity.
  - intros k n Hn. specialize (M k). rewrite Hn in M. exact M.
Qed.

Lemma Node_eq (a b : Node) :
  key a = key b -> children a = children b -> parents a = parents b -> a = b.
Proof. destruct a, b. simpl. intros -> -> ->. reflexivity. Qed.

Lemma resolve_again (g g' : SqlStateGraph) :
  wf_graph g ->
  resolve_dependencies g = (g', Ok tt) ->
  resolve_dependencies g' = (g', Ok tt).
Proof.
  intros Hwf E.
  assert (Forall (fun dep => dep.1.2 ∈ dom (nodes g) ∧ dep.2 ∈ dom (nodes g))
            (dependencies g)) as Hall.
  { apply Forall_forall. intros [[a c] p] Hin. simpl.
    destruct (decide (c ∈ dom (nodes g) ∧ p ∈ dom (nodes g))) as [H|H]; [exact H|].
    exfalso.
    destruct (resolve_loop_missing (dependencies g) g Hwf)
      as (g0 & a' & role & k & ch & pa & E0 & _).
    { apply Exists_exists. exists (a, c, p). split; [exact Hin|]. simpl.
      destruct (decide (c ∈ dom (nodes g))); [|tauto].
      destruct (decide (p ∈ dom (nodes g))); tauto. }
    unfold resolve_dependencies in E. rewrite E in E0. discriminate. }
  destruct (resolve_loop_linked _ g Hwf Hall) as (g1 & E1 & N1 & D1 & W1 & M1).
  unfold resolve_dependencies in E. rewrite E in E1. injection E1 as <-.
  destruct (resolve_loop_linked (dependencies g) g' W1)
    as (g2 & E2 & N2 & D2 & W2 & M2).
  { rewrite N1. exact Hall. }
  unfold resolve_dependencies. rewrite D1, E2. f_equal.
  destruct g' as [ns' nm' ds'], g2 as [ns2 nm2 ds2]. simpl in *.
  subst ns2 ds2. f_equal. apply map_eq. intros k.
  specialize (M1 k). specialize (M2 k).
  destruct (node_map g !! k) as [n|].
  - destruct M1 as (n1 & L1 & K1 & P1 & C1). rewrite L1 in M2.
    destruct M2 as (n2 & L2 & K2 & P2 & C2). rewrite L1, L2. f_equal.
    apply Node_eq; [exact K2| |].
    + apply set_eq. intros x. rewrite C2, C1. tauto.
    + apply set_eq. intros x. rewrite P2, P1. tauto.
  - rewrite M1 in M2. rewrite M1, M2. reflexivity.
Qed.

(** X5: resolving a graph that has been resolved changes nothing: the
    second run ends normally with the very same graph. *)
Theorem resolve_dependencies_idempotent (g g' : SqlStateGraph) :
  wf_graph g ->
  resolve_dependencies g = (g', Ok tt) ->
  resolve_dependencies g' = (g', Ok tt).
Proof. apply resolve_again. Qed.

Lemma resolve_dependencies_idempotent_witness :
  wf_graph Examples.two_books_pending ∧
  resolve_dependencies Examples.two_books_pending
    = ((resolve_dependencies Examples.two_books_pending).1, Ok tt) ∧
  resolve_dependencies (resolve_dependencies Examples.two_books_pending).1
    = ((resolve_dependencies Examples.two_books_pending).1, Ok tt).
Proof.
  assert (wf_graph Examples.two_books_pending) as Hwf.
  { repeat (apply wf_add_lazy_dependency || apply wf_add_node).
    apply wf_empty_graph. }
  split; [exact Hwf|]. split; [reflexivity|].
  exact (resolve_dependencies_idempotent Examples.two_books_pending
           (resolve_dependencies Examples.two_books_pending).1 Hwf eq_refl).
Defined.

(** *** [build_current_graph] *)

Lemma filed_empty : filed empty_graph [] [].
Proof. repeat split. Qed.

Lemma filed_add_node g its ds k v :
  filed g its ds -> filed (add_node g k v) (its ++ [(k, v)]) ds.
Proof.
  intros (Hn & Hm & Hd). unfold filed, add_node; simpl.
  rewrite fmap_app. cbn [fmap list_fmap]. rewrite !reverse_snoc.
  rewrite !list_to_map_cons, Hn, Hm. simpl.
  split; [reflexivity|]. split; [reflexivity|exact Hd].
Qed.

Lemma filed_add_lazy_dependencies g its ds a c (deps : list Key) :
  filed g its ds ->
  filed (foldl (fun g dep => add_lazy_dependency g a c dep) g deps)
    its (ds ++ ((fun dep => (a, c, dep)) <$> deps)).
Proof.
  revert g ds. induction deps as [|dep deps IH]; intros g ds H.
  - simpl. rewrite app_nil_r. exact H.
  - cbn [foldl]. rewrite fmap_cons, (cons_middle _ ds), (app_assoc ds).
    apply IH. destruct H as (Hn & Hm & Hd). unfold filed; simpl.
    rewrite Hd. tauto.
Qed.

Lemma filed_register_items a (items : list SqlItem) : ∀ g its ds,
  filed g its ds ->
  filed (foldl (register_item a) g items)
    (its ++ ((fun it => (item_key a it,
                         mkSqlItemNode (item_sql it) (item_reverse_sql it)))
               <$> items))
    (ds ++ (items ≫= fun it =>
              (fun dep => (a, item_key a it, dep)) <$> item_dependencies it)).
Proof.
  induction items as [|it items IH]; intros g its ds H.
  - simpl. rewrite !app_nil_r. exact H.
  - cbn [foldl]. rewrite fmap_cons, bind_cons.
    rewrite (app_assoc ds), (cons_middle _ its), (app_assoc its).
    apply IH. unfold register_item.
    apply filed_add_lazy_dependencies, filed_add_node. exact H.
Qed.

Lemma filed_configs (configs : list AppConfig) : ∀ g its ds,
  filed g its ds ->
  filed (foldl (fun g config =>
                  match custom_sql config with
                  | None => g
                  | Some items => foldl (register_item (label config)) g items
                  end) g configs)
    (its ++ declared_items configs) (ds ++ declared_dependencies configs).
Proof.
  unfold declared_items, declared_dependencies.
  induction configs as [|c configs IH]; intros g its ds H.
  - simpl. rewrite !app_nil_r. exact H.
  - cbn [foldl]. rewrite !bind_cons, (app_assoc ds), (app_assoc its).
    apply IH. unfold config_items, config_dependencies.
    destruct (custom_sql c) as [items|].
    + apply filed_register_items. exact H.
    + rewrite !app_nil_r. exact H.
Qed.

Lemma filed_lookup_node g its ds k n :
  filed g its ds -> node_map g !! k = Some n ->
  n = new_node k ∧ k ∈ its.*1.
Proof.
  intros (_ & Hm & _) Hn. rewrite Hm in Hn.
  apply elem_of_list_to_map_2 in Hn. rewrite elem_of_reverse in Hn.
  apply list_elem_of_fmap in Hn as ([k' v] & Heq & Hin). simpl in Heq.
  injection Heq as -> ->. split; [reflexivity|].
  apply list_elem_of_fmap. exists (k', v). tauto.
Qed.

Lemma filed_dom g its ds :
  filed g its ds ->
  dom (nodes g) = list_to_set its.*1 ∧ dom (node_map g) = list_to_set its.*1.
Proof.
  intros (Hn & Hm & _). rewrite Hn, Hm, !dom_list_to_map_L.
  split; apply set_eq; intros k; rewrite !elem_of_list_to_set.
  - rewrite fmap_reverse, elem_of_reverse. reflexivity.
  - rewrite fmap_reverse, elem_of_reverse, <- list_fmap_compose.
    reflexivity.
Qed.

Lemma filed_wf g its ds : filed g its ds -> wf_graph g.
Proof.
  intros H. destruct (filed_dom _ _ _ H) as [Hn Hm]. split.
  - rewrite Hn, Hm. reflexivity.
  - intros k n Hk. destruct (filed_lookup_node _ _ _ _ _ H Hk) as [-> _].
    reflexivity.
Qed.

(** The child of every declared dependency is a declared construct. *)
Lemma declared_children (configs : list AppConfig) :
  Forall (fun dep => dep.1.2 ∈ (declared_items configs).*1)
    (declared_dependencies configs).
Proof.
  apply Forall_forall. intros dep Hdep.
  unfold declared_dependencies in Hdep.
  apply list_elem_of_bind in Hdep as (c & Hdep & Hc).
  unfold config_dependencies in Hdep.
  destruct (custom_sql c) as [items|] eqn:Hitems; [|inversion Hdep].
  apply list_elem_of_bind in Hdep as (it & Hdep & Hit).
  apply list_elem_of_fmap in Hdep as (d & -> & _). simpl.
  apply list_elem_of_fmap.
  exists (item_key (label c) it,
          mkSqlItemNode (item_sql it) (item_reverse_sql it)).
  split; [reflexivity|]. unfold declared_items.
  apply list_elem_of_bind. exists c. split; [|exact Hc].
  unfold config_items. rewrite Hitems.
  apply list_elem_of_fmap. exists it. tauto.
Qed.

(** X6: when every declared dependency names a declared construct, in
    whatever order the applications and their items come,
    [build_current_graph] returns a graph that holds exactly the declared
    constructs (the last declaration of a key standing), the declarations as
    pending list, and between two nodes exactly the declared edges, in both
    directions. *)
Theorem build_current_graph_holds_the_declarations (configs : list AppConfig) :
  targets_declared configs ->
  ∃ g, build_current_graph configs = Ok g ∧
    wf_graph g ∧
    nodes g = list_to_map (reverse (declared_items configs)) ∧
    dom (node_map g) = dom (nodes g) ∧
    dependencies g = declared_dependencies configs ∧
    ∀ k n, node_map g !! k = Some n ->
      key n = k ∧
      (∀ p, p ∈ parents n ↔ ∃ a, (a, k, p) ∈ declared_dependencies configs) ∧
      (∀ c, c ∈ children n ↔ ∃ a, (a, c, k) ∈ declared_dependencies configs).
Proof.
  intros Htargets. unfold build_current_graph.
  pose proof (filed_configs configs empty_graph [] [] filed_empty) as Hf.
  simpl in Hf.
  match type of Hf with filed ?g0 _ _ => set (graph := g0) in * end.
  pose proof (filed_wf _ _ _ Hf) as Hwf.
  destruct (filed_dom _ _ _ Hf) as [Hdn Hdm].
  destruct Hf as (Hn & Hm & Hd).
  destruct (resolve_loop_linked (dependencies graph) graph Hwf)
    as (g & E & N & D & W & M).
  { rewrite Hd, Hdn. apply Forall_forall. intros dep Hdep.
    rewrite !elem_of_list_to_set. split.
    - exact (proj1 (Forall_forall _ _) (declared_children configs) dep Hdep).
    - exact (proj1 (Forall_forall _ _) Htargets dep Hdep). }
  unfold resolve_dependencies. rewrite E. exists g.
  split; [reflexivity|]. split; [exact W|]. split; [congruence|]. split.
  { rewrite N, Hdn, <- Hdm. apply set_eq. intros k. rewrite !elem_of_dom.
    specialize (M k). destruct (node_map graph !! k) as [n|].
    - destruct M as (n' & -> & _). split; eauto.
    - rewrite M. reflexivity. }
  split; [congruence|].
  intros k n' Hk. specialize (M k).
  destruct (node_map graph !! k) as [n|] eqn:Hgk; [|congruence].
  destruct M as (n1 & L & K & P & C). assert (n1 = n') as -> by congruence.
  destruct (filed_lookup_node graph _ _ k n (conj Hn (conj Hm Hd)) Hgk) as [-> _].
  simpl in *. rewrite <- Hd. split; [exact K|]. split.
  - intros p. rewrite P. set_solver.
  - intros c. rewrite C. set_solver.
Qed.

(** X7: when some declared dependency names a construct that nobody
    declares, [build_current_graph] raises [NodeNotFoundError] about such a
    parent, with the label of an application that declares it; it never
    complains about a child. *)
Theorem build_current_graph_names_an_undeclared_parent
    (configs : list AppConfig) :
  ¬ targets_declared configs ->
  ∃ a c p,
    build_current_graph configs = Err (NodeNotFoundError a RoleParent p) ∧
    (a, c, p) ∈ declared_dependencies configs ∧
    p ∉ (declared_items configs).*1.
Proof.
  intros Htargets. unfold build_current_graph.
  pose proof (filed_configs configs empty_graph [] [] filed_empty) as Hf.
  simpl in Hf.
  match type of Hf with filed ?g0 _ _ => set (graph := g0) in * end.
  pose proof (filed_wf _ _ _ Hf) as Hwf.
  destruct (filed_dom _ _ _ Hf) as [Hdn Hdm].
  destruct Hf as (Hn & Hm & Hd).
  destruct (resolve_loop_missing (dependencies graph) graph Hwf)
    as (g & a & role & k & c & p & E & Hk & Hin & Hrole).
  { apply not_Forall_Exists in Htargets; [|intros dep; apply _].
    rewrite Hd. apply Exists_exists in Htargets as (dep & Hdep & Hmiss).
    apply Exists_exists. exists dep. split; [exact Hdep|].
    right. rewrite Hdn, elem_of_list_to_set. exact Hmiss. }
  rewrite Hd in Hin. rewrite Hdn, elem_of_list_to_set in Hk.
  unfold resolve_dependencies. rewrite E.
  destruct role; subst k.
  - exfalso. apply Hk.
    exact (proj1 (Forall_forall _ _) (declared_children configs) _ Hin).
  - exists a, c, p. split; [reflexivity|]. split; [exact Hin|exact Hk].
Qed.

Lemma build_current_graph_holds_the_declarations_witness :
  targets_declared Examples.two_apps ∧
  ∃ g, build_current_graph Examples.two_apps = Ok g ∧
    wf_graph g ∧
    nodes g = list_to_map (reverse (declared_items Examples.two_apps)) ∧
    dependencies g = declared_dependencies Examples.two_apps.
Proof.
  assert (targets_declared Examples.two_apps) as H by compute_done.
  split; [exact H|].
  destruct (build_current_graph_holds_the_declarations Examples.two_apps H)
    as (g & E & W & N & _ & D & _).
  exists g. split; [exact E|]. split; [exact W|]. split; [exact N|exact D].
Defined.

Lemma build_current_graph_names_an_undeclared_parent_witness :
  ¬ targets_declared Examples.one_app_short ∧
  ∃ a c p,
    build_current_graph Examples.one_app_short
      = Err (NodeNotFoundError a RoleParent p) ∧
    (a, c, p) ∈ declared_dependencies Examples.one_app_short ∧
    p ∉ (declared_items Examples.one_app_short).*1.
Proof.
  assert (¬ targets_declared Examples.one_app_short) as H by compute_done.
  split; [exact H|].
  exact (build_current_graph_names_an_undeclared_parent
           Examples.one_app_short H).
Defined.

(** X8: the planner made from a well-formed graph that resolves is the
    planner made from the resolved graph: [__init__] resolves once more and
    that changes nothing; with no graph on the from state it starts from the
    empty one.  In every case the to graph is taken as it is and nothing is
    planned yet. *)
Theorem init_resolves_once_more (g g' to_graph : SqlStateGraph) :
  wf_graph g ->
  resolve_dependencies g = (g', Ok tt) ->
  init (Some g) to_graph = init (Some g') to_graph ∧
  init (Some g') to_graph =
    Ok {| from_sql_graph := g'; to_sql_graph := to_graph;
          generated_operations := []; latest_operations := ∅; next_id := 0 |} ∧
  init None to_graph =
    Ok {| from_sql_graph := empty_graph; to_sql_graph := to_graph;
          generated_operations := []; latest_operations := ∅; next_id := 0 |}.
Proof.
  intros Hwf E. pose proof (resolve_again g g' Hwf E) as E'.
  unfold init. simpl. rewrite E, E'. repeat split.
Qed.

Lemma init_resolves_once_more_witness :
  wf_graph Examples.two_books_pending ∧
  resolve_dependencies Examples.two_books_pending
    = ((resolve_dependencies Examples.two_books_pending).1, Ok tt) ∧
  init (Some Examples.two_books_pending) empty_graph
    = init (Some (resolve_dependencies Examples.two_books_pending).1) empty_graph.
Proof.
  assert (wf_graph Examples.two_books_pending) as Hwf.
  { repeat (apply wf_add_lazy_dependency || apply wf_add_node).
    apply wf_empty_graph. }
  split; [exact Hwf|]. split; [reflexivity|].
  exact (proj1 (init_resolves_once_more Examples.two_books_pending
                  (resolve_dependencies Examples.two_books_pending).1
                  empty_graph Hwf eq_refl)).
Defined.

End GraphLaws.

(** ** Further properties of the change orderer *)

Module OrderLaws.

Import WalkFacts OrderFacts.

Lemma StronglySorted_lookup {A} (R : relation A) (l : list A) :
  StronglySorted R l ->
  ∀ i j x y, l !! i = Some x -> l !! j = Some y -> i < j -> R x y.
Proof.
  induction 1 as [|a l _ IH Hall]; intros i j x y Hi Hj Hlt.
  - rewrite lookup_nil in Hi. discriminate.
  - destruct j as [|j]; [lia|]. simpl in Hj. destruct i as [|i].
    + simpl in Hi. injection Hi as <-.
      rewrite Forall_forall in Hall. apply Hall.
      eapply list_elem_of_lookup_2. exact Hj.
    + simpl in Hi. apply (IH i j); [exact Hi|exact Hj|lia].
Qed.

Lemma no_proper_ancestor_of_itself rank depth nm k :
  layered rank depth nm -> ¬ proper_ancestor nm k k.
Proof.
  intros Hlay H.
  apply (tc_edge_measure parents nm rank (layered_parents _ _ _ Hlay)) in H.
  lia.
Qed.

(** A key put where its first placed ancestor stands keeps the order
    dependents-first. *)
Lemma dependents_first_insert rank depth nm res pos k :
  layered rank depth nm ->
  dependents_first nm res ->
  pos ≤ length res ->
  (∀ j x, j < pos -> res !! j = Some x -> ¬ proper_ancestor nm x k) ->
  (pos < length res -> ∃ a, res !! pos = Some a ∧ proper_ancestor nm a k) ->
  dependents_first nm (take pos res ++ k :: drop pos res).
Proof.
  intros Hlay Hsorted Hle Hbefore Hat. unfold dependents_first in *.
  rewrite <- (take_drop pos res) in Hsorted.
  apply StronglySorted_app in Hsorted as (Hcross & Htake & Hdrop).
  apply StronglySorted_app_2; [|exact Htake|].
  - intros x1 x2 H1 H2. apply elem_of_cons in H2 as [->|H2].
    + apply elem_of_take in H1 as (j & Hj & Hlt). exact (Hbefore j x1 Hlt Hj).
    + apply Hcross; assumption.
  - apply StronglySorted_cons. split; [|exact Hdrop].
    apply Forall_forall. intros x Hx Hanc.
    destruct (decide (pos < length res)) as [Hlt|Hge].
    2:{ rewrite drop_ge in Hx by lia. inversion Hx. }
    destruct (Hat Hlt) as (a & Ha & Haanc).
    assert (proper_ancestor nm a x) as Hax.
    { unfold proper_ancestor in *. eapply tc_trans; eassumption. }
    rewrite (drop_S _ _ _ Ha) in Hx, Hdrop.
    apply elem_of_cons in Hx as [->|Hx].
    + exact (no_proper_ancestor_of_itself _ _ _ _ Hlay Hax).
    + apply StronglySorted_cons in Hdrop as [Hall _].
      rewrite Forall_forall in Hall. exact (Hall x Hx Hax).
Qed.

(** The outer loop when nothing cascades. *)
Lemma sort_loop_dependents_first rank depth g new_keys changed_keys ks : ∀ res,
  layered rank depth (node_map g) ->
  new_keys ∪ changed_keys ⊆ dom (node_map g) ->
  nothing_to_cascade (node_map g) new_keys changed_keys ->
  (∀ x, x ∈ ks -> x ∈ new_keys ∪ changed_keys) ->
  dependents_first (node_map g) res ->
  ∃ res',
    for_each (sort_step depth g (new_keys ∪ changed_keys)) ks (res, changed_keys)
      = Ok (res', changed_keys) ∧
    dependents_first (node_map g) res'.
Proof.
  induction ks as [|k ks IH]; intros res Hlay Hdom Hno Hks Hsorted.
  - exists res. split; [reflexivity|exact Hsorted].
  - destruct (sort_step_shape rank depth g (new_keys ∪ changed_keys)
                res changed_keys k Hlay)
      as (pos & casc & E & Q1 & Q2 & Q3 & _ & _ & Hc & Hnot & _).
    { apply Hdom, Hks. left. }
    assert (casc = []) as ->.
    { destruct (decide (k ∈ changed_keys)) as [Hin|Hnin]; [|exact (Hnot Hnin)].
      destruct casc as [|d casc]; [reflexivity|]. exfalso.
      destruct (Hc d) as (Hd & Hall & _); [left|].
      apply Hall. exact (Hno k d Hin Hd). }
    rewrite app_nil_l, list_to_set_nil, union_empty_r_L in E.
    destruct (IH (take pos res ++ k :: drop pos res) Hlay Hdom Hno)
      as (res' & E' & Hs').
    + intros x Hx. apply Hks. right. exact Hx.
    + eapply dependents_first_insert; eassumption.
    + exists res'. cbn [for_each]. rewrite E. cbn [mbind result_bind].
      split; [exact E'|exact Hs'].
Qed.

(** X9: when every construct that depends on a changed one is itself new
    or changed, so that nothing cascades, [sort_sql_changes] leaves
    [changed_keys] as it is and returns an order in which every key stands
    before each of its proper ancestors that is in the order: dependents
    first, foundations last, whatever the iteration order of the set. *)
Theorem sort_sql_changes_puts_dependents_first set_iter rank depth g
    new_keys changed_keys :
  iterates set_iter ->
  layered rank depth (node_map g) ->
  new_keys ∪ changed_keys ⊆ dom (node_map g) ->
  nothing_to_cascade (node_map g) new_keys changed_keys ->
  ∃ result_keys,
    sort_sql_changes set_iter depth g new_keys changed_keys
      = Ok (result_keys, changed_keys) ∧
    ∀ i j a b, result_keys !! i = Some b -> result_keys !! j = Some a ->
               proper_ancestor (node_map g) a b -> i < j.
Proof.
  intros Hit Hlay Hdom Hno. unfold sort_sql_changes.
  destruct (sort_loop_dependents_first rank depth g new_keys changed_keys
              (set_iter (new_keys ∪ changed_keys)) [] Hlay Hdom Hno)
    as (res & E & Hs).
  { intros x. apply iterates_elem_of. exact Hit. }
  { constructor. }
  exists res. split; [exact E|].
  intros i j a b Hi Hj Hanc.
  destruct (decide (i < j)) as [Hlt|Hge]; [exact Hlt|]. exfalso.
  destruct (decide (i = j)) as [->|Hne].
  - assert (a = b) as -> by congruence.
    exact (no_proper_ancestor_of_itself _ _ _ _ Hlay Hanc).
  - exact (StronglySorted_lookup _ _ Hs j i a b Hj Hi ltac:(lia) Hanc).
Qed.

Lemma proper_descendant_registered rank depth nm d k :
  layered rank depth nm -> proper_descendant nm d k -> d ∈ dom nm.
Proof.
  intros Hlay H. unfold proper_descendant in H.
  induction H as [x y H|x y z _ _ IH]; [|exact IH].
  apply elem_of_dom.
  exact (proj1 (edge_measure children nm _ (layered_children _ _ _ Hlay) _ _ H)).
Qed.

Lemma sort_sql_changes_puts_dependents_first_witness :
  iterates elements ∧
  layered Examples.diamond_rank 2 (node_map Examples.diamond_to) ∧
  ({[Examples.rate; Examples.sale]} ∪ {[Examples.kind]} : gset Key)
    ⊆ dom (node_map Examples.diamond_to) ∧
  nothing_to_cascade (node_map Examples.diamond_to)
    {[Examples.rate; Examples.sale]} {[Examples.kind]} ∧
  ∃ result_keys,
    sort_sql_changes elements 2 Examples.diamond_to
      {[Examples.rate; Examples.sale]} {[Examples.kind]}
      = Ok (result_keys, {[Examples.kind]}) ∧
    ∀ i j a b, result_keys !! i = Some b -> result_keys !! j = Some a ->
               proper_ancestor (node_map Examples.diamond_to) a b -> i < j.
Proof.
  assert (layered Examples.diamond_rank 2 (node_map Examples.diamond_to))
    as Hlay by compute_done.
  assert (({[Examples.rate; Examples.sale]} ∪ {[Examples.kind]} : gset Key)
            ⊆ dom (node_map Examples.diamond_to)) as Hdom by compute_done.
  assert (nothing_to_cascade (node_map Examples.diamond_to)
            {[Examples.rate; Examples.sale]} {[Examples.kind]}) as Hno.
  { intros k d _ Hd.
    apply (proper_descendant_registered _ _ _ _ _ Hlay) in Hd.
    revert d Hd. apply (elem_of_subseteq (dom (node_map Examples.diamond_to))).
    compute_done. }
  split; [exact iterates_elements|]. split; [exact Hlay|].
  split; [exact Hdom|]. split; [exact Hno|].
  exact (sort_sql_changes_puts_dependents_first elements Examples.diamond_rank 2
           Examples.diamond_to {[Examples.rate; Examples.sale]} {[Examples.kind]}
           iterates_elements Hlay Hdom Hno).
Defined.

(** The outer loop: the descendants of the changed keys it meets end up in
    the result, and nothing else is added to [changed_keys]. *)
Lemma sort_loop_cascades rank depth g all_keys ks : ∀ res ch,
  layered rank depth (node_map g) -> all_keys ⊆ dom (node_map g) ->
  (∀ x, x ∈ ks -> x ∈ all_keys) ->
  ∃ res' extra,
    for_each (sort_step depth g all_keys) ks (res, ch) = Ok (res', ch ∪ extra) ∧
    (∀ x, x ∈ res' ↔ x ∈ res ∨ x ∈ ks ∨ x ∈ extra) ∧
    (∀ x, x ∈ extra ->
          (x ∉ all_keys) ∧
          ∃ k, k ∈ ks ∧ k ∈ ch ∧ proper_descendant (node_map g) x k) ∧
    (∀ k d, k ∈ ks -> k ∈ ch -> proper_descendant (node_map g) d k ->
            d ∈ all_keys ∨ d ∈ res').
Proof.
  induction ks as [|k ks IH]; intros res ch Hlay Hdom Hks.
  - exists res, ∅. cbn [for_each]. rewrite union_empty_r_L.
    split; [reflexivity|]. split; [|split].
    + intros x. rewrite elem_of_nil. set_solver.
    + intros x Hx. set_solver.
    + intros k d Hk. inversion Hk.
  - assert (k ∈ all_keys) as Hk by (apply Hks; left).
    destruct (sort_step_shape rank depth g all_keys res ch k Hlay)
      as (pos & casc & E & _ & _ & _ & _ & _ & Hc & Hnot & Hch).
    { apply Hdom. exact Hk. }
    assert (take pos res ++ casc ++ k :: drop pos res ≡ₚ (casc ++ [k]) ++ res)
      as Hperm.
    { change (k :: drop pos res) with ([k] ++ drop pos res).
      rewrite (app_assoc casc). apply insert_block_Permutation. }
    destruct (IH (take pos res ++ casc ++ k :: drop pos res)
                 (ch ∪ list_to_set casc) Hlay Hdom)
      as (res' & extra & E' & Hmem & Hex & Hdesc).
    { intros x Hx. apply Hks. right. exact Hx. }
    assert (∀ x, x ∈ ks -> x ∈ ch ∪ list_to_set casc -> x ∈ ch) as Hback.
    { intros x Hx Hin. apply elem_of_union in Hin as [Hin|Hin]; [exact Hin|].
      apply elem_of_list_to_set, Hc in Hin. exfalso.
      destruct Hin as (_ & Hn & _). apply Hn, Hks. right. exact Hx. }
    exists res', (list_to_set casc ∪ extra). cbn [for_each]. rewrite E.
    cbn [mbind result_bind]. rewrite E'.
    split; [f_equal; f_equal; set_solver|]. split; [|split].
    + intros x. rewrite Hmem, Hperm, !elem_of_app, list_elem_of_singleton,
        elem_of_cons, elem_of_union, elem_of_list_to_set. tauto.
    + intros x Hx. apply elem_of_union in Hx as [Hx|Hx].
      * apply elem_of_list_to_set in Hx.
        destruct (Hc x Hx) as (Hd & Hn & _). split; [exact Hn|].
        exists k. split; [left|]. split; [|exact Hd].
        destruct (decide (k ∈ ch)) as [Hin|Hnin]; [exact Hin|].
        rewrite (Hnot Hnin) in Hx. inversion Hx.
      * destruct (Hex x Hx) as (Hn & k' & Hk' & Hin' & Hd).
        split; [exact Hn|]. exists k'. split; [right; exact Hk'|].
        split; [apply Hback; assumption|exact Hd].
    + intros k' d Hk' Hin' Hd.
      destruct (decide (d ∈ all_keys)) as [Hd_all|Hd_all]; [left; exact Hd_all|].
      right. apply elem_of_cons in Hk' as [->|Hk'].
      * apply Hmem. left. rewrite Hperm, !elem_of_app.
        destruct (decide (d ∈ res)) as [Hr|Hr]; [right; exact Hr|].
        left. left.
        destruct (Hch Hin') as (node & dfull & _ & _ & -> & Hall).
        apply list_elem_of_filter. split; [tauto|]. apply Hall. exact Hd.
      * destruct (Hdesc k' d Hk') as [H|H]; [set_solver|exact Hd|tauto|exact H].
Qed.

(** X10: on a layered graph the change set that [sort_sql_changes] leaves
    is closed under dependents: every construct that depends, directly or
    not, on a key of the final [changed_keys] is in the order, as a new key
    or as a changed one; and a key joins [changed_keys] only if it depends
    on a key that was changed to begin with. *)
Theorem sort_sql_changes_cascades_to_all_dependents set_iter rank depth g
    new_keys changed_keys :
  iterates set_iter ->
  layered rank depth (node_map g) ->
  new_keys ∪ changed_keys ⊆ dom (node_map g) ->
  ∃ result_keys grown,
    sort_sql_changes set_iter depth g new_keys changed_keys
      = Ok (result_keys, grown) ∧
    (∀ k d, k ∈ grown -> proper_descendant (node_map g) d k ->
            d ∈ result_keys ∧ d ∈ new_keys ∪ grown) ∧
    (∀ x, x ∈ grown ->
          x ∈ changed_keys ∨
          ((x ∉ new_keys ∪ changed_keys) ∧
           ∃ k, k ∈ changed_keys ∧ proper_descendant (node_map g) x k)).
Proof.
  intros Hit Hlay Hdom. unfold sort_sql_changes.
  destruct (sort_loop_cascades rank depth g (new_keys ∪ changed_keys)
              (set_iter (new_keys ∪ changed_keys)) [] changed_keys Hlay Hdom)
    as (res & extra & E & Hmem & Hex & Hdesc).
  { intros x. apply iterates_elem_of. exact Hit. }
  exists res, (changed_keys ∪ extra). split; [exact E|].
  assert (∀ k d, k ∈ changed_keys -> proper_descendant (node_map g) d k ->
                 d ∈ res) as Hchanged.
  { intros k d Hk Hd.
    destruct (Hdesc k d) as [H|H]; [|exact Hk|exact Hd| |exact H].
    - apply iterates_elem_of; [exact Hit|]. set_solver.
    - apply Hmem. right. left. apply iterates_elem_of; assumption. }
  assert (∀ d, d ∈ res -> d ∈ new_keys ∪ (changed_keys ∪ extra)) as Hres.
  { intros d Hd. apply Hmem in Hd as [Hd|[Hd|Hd]]; [inversion Hd| |set_solver].
    apply (iterates_elem_of _ _ _ Hit) in Hd. set_solver. }
  split.
  - intros k d Hk Hd.
    assert (d ∈ res) as Hin.
    { apply elem_of_union in Hk as [Hk|Hk]; [exact (Hchanged k d Hk Hd)|].
      destruct (Hex k Hk) as (_ & k0 & _ & Hk0 & Hkk0).
      apply (Hchanged k0 d Hk0). unfold proper_descendant in *.
      eapply tc_trans; eassumption. }
    split; [exact Hin|exact (Hres d Hin)].
  - intros x Hx. apply elem_of_union in Hx as [Hx|Hx]; [left; exact Hx|].
    right. destruct (Hex x Hx) as (Hn & k & _ & Hk & Hd).
    split; [exact Hn|]. exists k. tauto.
Qed.

Lemma sort_sql_changes_cascades_to_all_dependents_witness :
  iterates elements ∧
  layered Examples.diamond_rank 2 (node_map Examples.diamond_to) ∧
  ((∅ ∪ {[Examples.kind]} : gset Key) ⊆ dom (node_map Examples.diamond_to)) ∧
  ∃ result_keys grown,
    sort_sql_changes elements 2 Examples.diamond_to ∅ {[Examples.kind]}
      = Ok (result_keys, grown) ∧
    (∀ k d, k ∈ grown ->
            proper_descendant (node_map Examples.diamond_to) d k ->
            d ∈ result_keys ∧ d ∈ (∅ : gset Key) ∪ grown).
Proof.
  assert (layered Examples.diamond_rank 2 (node_map Examples.diamond_to))
    as Hlay by compute_done.
  assert ((∅ ∪ {[Examples.kind]} : gset Key)
            ⊆ dom (node_map Examples.diamond_to)) as Hdom by compute_done.
  split; [exact iterates_elements|]. split; [exact Hlay|]. split; [exact Hdom|].
  destruct (sort_sql_changes_cascades_to_all_dependents elements
              Examples.diamond_rank 2 Examples.diamond_to ∅ {[Examples.kind]}
              iterates_elements Hlay Hdom)
    as (res & grown & E & Hclosed & _).
  exists res, grown. split; [exact E|exact Hclosed].
Defined.

End OrderLaws.

(** ** Further properties of the plan emitter *)

Module PlanLaws.

Import OrderFacts PlanFacts OrderLaws.

Lemma omap_agree {A B} (f g : A -> option B) (l : list A) :
  (∀ x, x ∈ l -> f x = g x) -> omap f l = omap g l.
Proof.
  induction l as [|x l IH]; intros H; [reflexivity|].
  cbn [omap list_omap]. rewrite (H x) by left. rewrite IH; [reflexivity|].
  intros y Hy. apply H. right. exact Hy.
Qed.

Lemma rebuild_step_ok set_iter changed_keys s k new tnode :
  nodes (to_sql_graph s) !! k = Some new ->
  node_map (to_sql_graph s) !! k = Some tnode ->
  rebuild_step set_iter changed_keys s k =
    Ok {| from_sql_graph := from_sql_graph s;
          to_sql_graph :=
            {| nodes := nodes (to_sql_graph s);
               node_map := <[k := add_parent k tnode]> (node_map (to_sql_graph s));
               dependencies := dependencies (to_sql_graph s) |};
          generated_operations :=
            generated_operations s ++
            [mkStep k.1
               (mkOperation (next_id s)
                  (if decide (k ∈ changed_keys) then AlterSQL else CreateSQL)
                  k.2 (sql new) (reverse_sql new) (Some (parents tnode)))
               (map (marker (latest_operations s))
                  (set_iter (parents (add_parent k tnode))))];
          latest_operations :=
            <[k := mkOperation (next_id s)
                     (if decide (k ∈ changed_keys) then AlterSQL else CreateSQL)
                     k.2 (sql new) (reverse_sql new) (Some (parents tnode))]>
              (latest_operations s);
          next_id := S (next_id s) |}.
Proof.
  intros Hn Ht. unfold rebuild_step. destruct k as [app_label sql_name].
  unfold getitem. rewrite Hn, Ht. reflexivity.
Qed.

Lemma delete_step_ok s k old :
  nodes (from_sql_graph s) !! k = Some old ->
  delete_step s k =
    Ok {| from_sql_graph := from_sql_graph s;
          to_sql_graph := to_sql_graph s;
          generated_operations :=
            generated_operations s ++
            [mkStep k.1
               (mkOperation (next_id s) DeleteSQL k.2
                  (reverse_sql old) (sql old) None) []];
          latest_operations := latest_operations s;
          next_id := S (next_id s) |}.
Proof.
  intros Ho. unfold delete_step. destruct k as [app_label sql_name].
  unfold getitem. rewrite Ho. reflexivity.
Qed.

(** The second loop over keys that come once each. *)
Lemma rebuild_pass_shape set_iter changed_keys ks : ∀ s,
  NoDup ks ->
  (∀ k, k ∈ ks -> is_Some (nodes (to_sql_graph s) !! k) ∧
                  is_Some (node_map (to_sql_graph s) !! k)) ->
  ∃ s' emitted,
    for_each (rebuild_step set_iter changed_keys) ks s = Ok s' ∧
    generated_operations s' = generated_operations s ++ emitted ∧
    step_record <$> emitted = omap (rebuild_entry (to_sql_graph s) changed_keys) ks ∧
    length emitted = length ks ∧
    nodes (to_sql_graph s') = nodes (to_sql_graph s) ∧
    dependencies (to_sql_graph s') = dependencies (to_sql_graph s) ∧
    from_sql_graph s' = from_sql_graph s ∧
    (∀ k, k ∉ ks ->
          node_map (to_sql_graph s') !! k = node_map (to_sql_graph s) !! k).
Proof.
  induction ks as [|k ks IH]; intros s ND Hok.
  - exists s, []. cbn [for_each]. rewrite app_nil_r. repeat split.
  - apply NoDup_cons in ND as [Hk ND].
    destruct (Hok k) as [[new Hn] [tnode Ht]]; [left|].
    cbn [for_each]. rewrite (rebuild_step_ok _ _ _ _ new tnode Hn Ht).
    cbn [mbind result_bind].
    match goal with
    | |- context [for_each _ ks ?s1] => set (s1' := s1)
    end.
    assert (∀ x, x ∈ ks ->
              nodes (to_sql_graph s1') !! x = nodes (to_sql_graph s) !! x ∧
              node_map (to_sql_graph s1') !! x = node_map (to_sql_graph s) !! x)
      as Hsame.
    { intros x Hx. subst s1'. simpl. split; [reflexivity|].
      apply lookup_insert_ne. intros <-. exact (Hk Hx). }
    destruct (IH s1' ND) as (s' & em & E & HG & HR & HL & HN & HD & HF & HM).
    { intros x Hx. destruct (Hsame x Hx) as [-> ->]. apply Hok. right. exact Hx. }
    exists s', (mkStep k.1
                  (mkOperation (next_id s)
                     (if decide (k ∈ changed_keys) then AlterSQL else CreateSQL)
                     k.2 (sql new) (reverse_sql new) (Some (parents tnode)))
                  (map (marker (latest_operations s))
                     (set_iter (parents (add_parent k tnode)))) :: em).
    split; [exact E|]. split.
    { rewrite HG. subst s1'. simpl. rewrite <- app_assoc. reflexivity. }
    split.
    { cbn [omap list_omap]. unfold rebuild_entry at 1. rewrite Hn, Ht.
      cbn [mbind option_bind]. rewrite fmap_cons. f_equal. rewrite HR.
      apply omap_agree. intros x Hx. unfold rebuild_entry.
      destruct (Hsame x Hx) as [-> ->]. reflexivity. }
    split; [simpl; rewrite HL; reflexivity|].
    split; [rewrite HN; reflexivity|]. split; [rewrite HD; reflexivity|].
    split; [rewrite HF; reflexivity|].
    intros x Hx. apply not_elem_of_cons in Hx as [Hne Hx].
    rewrite (HM x Hx). subst s1'. simpl. apply lookup_insert_ne. congruence.
Qed.

(** The third loop. *)
Lemma delete_pass_shape ks : ∀ s,
  (∀ k, k ∈ ks -> is_Some (nodes (from_sql_graph s) !! k)) ->
  ∃ s' emitted,
    for_each delete_step ks s = Ok s' ∧
    generated_operations s' = generated_operations s ++ emitted ∧
    step_summary <$> emitted = omap (delete_entry (nodes (from_sql_graph s))) ks ∧
    length emitted = length ks ∧
    Forall (fun st => step_deps st = [] ∧ op_dependencies (step_op st) = None)
      emitted ∧
    from_sql_graph s' = from_sql_graph s ∧
    to_sql_graph s' = to_sql_graph s ∧
    latest_operations s' = latest_operations s.
Proof.
  induction ks as [|k ks IH]; intros s Hok.
  - exists s, []. cbn [for_each]. rewrite app_nil_r. repeat split. constructor.
  - destruct (Hok k) as [old Ho]; [left|].
    cbn [for_each]. rewrite (delete_step_ok _ _ old Ho). cbn [mbind result_bind].
    match goal with
    | |- context [for_each _ ks ?s1] => set (s1' := s1)
    end.
    destruct (IH s1') as (s' & em & E & HG & HS & HL & HA & HF & HT & HO).
    { intros x Hx. subst s1'. simpl. apply Hok. right. exact Hx. }
    subst s1'. simpl in HG, HS, HF, HT, HO.
    exists s', (mkStep k.1
                  (mkOperation (next_id s) DeleteSQL k.2
                     (reverse_sql old) (sql old) None) [] :: em).
    split; [exact E|]. split; [rewrite HG, <- app_assoc; reflexivity|]. split.
    { cbn [omap list_omap]. unfold delete_entry at 1. rewrite Ho.
      cbn [mbind option_bind]. rewrite fmap_cons, HS. reflexivity. }
    split; [simpl; rewrite HL; reflexivity|].
    split; [constructor; [split; reflexivity|exact HA]|].
    split; [exact HF|]. split; [exact HT|exact HO].
Qed.

(** The first loop, as far as the later ones need it. *)
Lemma teardown_pass_shape set_iter changed_keys ks : ∀ s,
  (∀ k, k ∈ ks -> k ∈ changed_keys ->
        is_Some (nodes (from_sql_graph s) !! k) ∧
        is_Some (node_map (from_sql_graph s) !! k)) ->
  ∃ s' emitted,
    for_each (teardown_step set_iter changed_keys) ks s = Ok s' ∧
    generated_operations s' = generated_operations s ++ emitted ∧
    step_summary <$> emitted =
      omap (spec_teardown (nodes (from_sql_graph s)) changed_keys) ks ∧
    nodes (from_sql_graph s') = nodes (from_sql_graph s) ∧
    dependencies (from_sql_graph s') = dependencies (from_sql_graph s) ∧
    to_sql_graph s' = to_sql_graph s.
Proof.
  induction ks as [|k ks IH]; intros s Hok.
  - exists s, []. cbn [for_each]. rewrite app_nil_r. repeat split.
  - cbn [for_each]. destruct (decide (k ∈ changed_keys)) as [Hin|Hk].
    + destruct (Hok k) as [[old Ho] [fnode Hf]]; [left|exact Hin|].
      rewrite (teardown_step_changed _ _ _ _ old fnode Hin Ho Hf).
      cbn [mbind result_bind].
      match goal with
      | |- context [for_each _ ks ?s1] => set (s1' := s1)
      end.
      destruct (IH s1') as (s' & em & E & HG & HS & HN & HD & HT).
      { intros x Hx Hc. subst s1'. simpl.
        destruct (Hok x) as [H1 H2]; [right; exact Hx|exact Hc|].
        split; [exact H1|]. rewrite lookup_insert. case_decide; [eauto|exact H2]. }
      subst s1'. simpl in HG, HS, HN, HD, HT.
      eexists s', (_ ++ em).
      split; [exact E|]. split; [rewrite HG, <- app_assoc; reflexivity|].
      split; [|split; [exact HN|split; [exact HD|exact HT]]].
      rewrite fmap_app, HS. cbn [omap list_omap]. unfold spec_teardown at 2.
      rewrite decide_True by exact Hin. rewrite Ho. cbn [mbind option_bind].
      destruct (truthy (reverse_sql old)); reflexivity.
    + rewrite teardown_step_skip by exact Hk. cbn [mbind result_bind].
      destruct (IH s) as (s' & em & E & HG & HS & HN & HD & HT).
      { intros x Hx. apply Hok. right. exact Hx. }
      exists s', em. split; [exact E|]. split; [exact HG|].
      split; [|split; [exact HN|split; [exact HD|exact HT]]].
      rewrite HS. cbn [omap list_omap]. unfold spec_teardown at 2.
      rewrite decide_False by exact Hk. reflexivity.
Qed.


Lemma chained_construct base first_id s g1 g2 (emit : bool) app cls name fwd bwd
    deps l latest' :
  chained base first_id s ->
  (∀ k o, latest' !! k = Some o ->
          latest_operations s !! k = Some o ∨ op_id o = next_id s) ->
  chained base first_id
    {| from_sql_graph := g1; to_sql_graph := g2;
       generated_operations :=
         generated_operations s ++
         (if emit
          then [mkStep app (mkOperation (next_id s) cls name fwd bwd deps)
                  (map (marker (latest_operations s)) l)]
          else []);
       latest_operations := latest';
       next_id := S (next_id s) |}.
Proof.
  intros (em & G & Hn & HL & HI & HS & HW) Hlat.
  set (x := mkStep app (mkOperation (next_id s) cls name fwd bwd deps)
              (map (marker (latest_operations s)) l)).
  exists (em ++ if emit then [x] else []). simpl.
  split; [rewrite G, app_assoc; reflexivity|]. split; [lia|].
  assert (∀ st, st ∈ (if emit then [x] else []) -> st = x) as Hx.
  { intros st Hst. destruct emit; [|inversion Hst].
    apply list_elem_of_singleton in Hst. exact Hst. }
  split; [|split; [|split]].
  - intros k o Ho. destruct (Hlat k o Ho) as [Ho'|Ho'].
    + apply HL in Ho'. lia.
    + lia.
  - intros st Hst. apply elem_of_app in Hst as [Hst|Hst].
    + apply HI in Hst. lia.
    + apply Hx in Hst. subst st. simpl. lia.
  - intros i j a b Hi Hj Hij.
    apply lookup_app_Some in Hi as [Hi|[Hli Hi]];
      apply lookup_app_Some in Hj as [Hj|[Hlj Hj]].
    + exact (HS i j a b Hi Hj Hij).
    + apply list_elem_of_lookup_2 in Hi, Hj. apply HI in Hi. apply Hx in Hj.
      subst b. simpl. lia.
    + apply lookup_lt_Some in Hj. lia.
    + destruct emit; [|inversion Hi].
      apply list_lookup_singleton_Some in Hi as [Hi _].
      apply list_lookup_singleton_Some in Hj as [Hj _]. lia.
  - intros st d Hst Hd. apply elem_of_app in Hst as [Hst|Hst].
    + exact (HW st d Hst Hd).
    + apply Hx in Hst. subst st. simpl in Hd.
      apply list_elem_of_fmap in Hd as (key & -> & _). split; [reflexivity|].
      intros o Ho. unfold marker in Ho. simpl in Ho.
      destruct (latest_operations s !! key) as [o'|] eqn:Hl; [|discriminate].
      injection Ho as ->. apply HL in Hl. simpl. lia.
Qed.

Lemma latest_insert_chained (latest : gmap Key operation) k op n :
  op_id op = n ->
  ∀ k' o, <[k := op]> latest !! k' = Some o ->
          latest !! k' = Some o ∨ op_id o = n.
Proof.
  intros Hop k' o Ho. rewrite lookup_insert in Ho. case_decide.
  - injection Ho as <-. right. exact Hop.
  - left. exact Ho.
Qed.

Lemma teardown_step_chained base first_id set_iter changed_keys s k s' :
  chained base first_id s ->
  teardown_step set_iter changed_keys s k = Ok s' -> chained base first_id s'.
Proof.
  intros Hs E. unfold teardown_step in E. case_decide.
  - injection E as <-. exact Hs.
  - destruct k as [app_label sql_name].
    destruct (getitem (nodes (from_sql_graph s)) (app_label, sql_name))
      as [old|]; [|discriminate].
    destruct (getitem (node_map (from_sql_graph s)) (app_label, sql_name))
      as [fnode|]; [|discriminate].
    simpl in E. injection E as <-.
    pose proof (chained_construct base first_id s) as Hc.
    destruct (truthy (reverse_sql old)).
    + apply (Hc _ _ true); [exact Hs|]. apply latest_insert_chained. reflexivity.
    + rewrite <- (app_nil_r (generated_operations s)).
      apply (Hc _ _ false app_label ReverseAlterSQL sql_name (reverse_sql old)
               (sql old) None []); [exact Hs|].
      apply latest_insert_chained. reflexivity.
Qed.

Lemma rebuild_step_chained base first_id set_iter changed_keys s k s' :
  chained base first_id s ->
  rebuild_step set_iter changed_keys s k = Ok s' -> chained base first_id s'.
Proof.
  intros Hs E. unfold rebuild_step in E. destruct k as [app_label sql_name].
  destruct (getitem (nodes (to_sql_graph s)) (app_label, sql_name))
    as [new|]; [|discriminate].
  destruct (getitem (node_map (to_sql_graph s)) (app_label, sql_name))
    as [tnode|]; [|discriminate].
  simpl in E. injection E as <-.
  apply (chained_construct base first_id s _ _ true); [exact Hs|].
  apply latest_insert_chained. reflexivity.
Qed.

Lemma delete_step_chained base first_id s k s' :
  chained base first_id s -> delete_step s k = Ok s' -> chained base first_id s'.
Proof.
  intros Hs E. unfold delete_step in E. destruct k as [app_label sql_name].
  destruct (getitem (nodes (from_sql_graph s)) (app_label, sql_name))
    as [old|]; [|discriminate].
  simpl in E. injection E as <-.
  apply (chained_construct base first_id s _ _ true _ _ _ _ _ _ []); [exact Hs|].
  intros k o Ho. left. exact Ho.
Qed.


Lemma iterates_empty set_iter : iterates set_iter -> set_iter ∅ = [].
Proof.
  intros H. apply Permutation_nil_r. rewrite (H ∅), elements_empty. reflexivity.
Qed.

(** X11: when both graphs hold the same keys and every key has the same
    forward statement on both sides, [generate_changed_sql] emits nothing
    and orders nothing, whatever happened to the reverse statements and to
    the edges of the graphs. *)
Theorem equal_forward_statements_plan_nothing set_iter depth s :
  iterates set_iter ->
  dom (nodes (from_sql_graph s)) = dom (nodes (to_sql_graph s)) ->
  (∀ k old_node new_node,
     nodes (from_sql_graph s) !! k = Some old_node ->
     nodes (to_sql_graph s) !! k = Some new_node ->
     py_eq (sql old_node) (sql new_node) = true) ->
  generate_changed_sql set_iter depth s =
    Ok ({| from_sql_graph := from_sql_graph s;
           to_sql_graph := to_sql_graph s;
           generated_operations := generated_operations s;
           latest_operations := ∅;
           next_id := next_id s |}, [], ∅).
Proof.
  intros Hit Hdom Hsame. unfold generate_changed_sql, diff_keys. cbv zeta.
  destruct (changed_loop (from_sql_graph s) (to_sql_graph s)
              (set_iter (dom (nodes (from_sql_graph s)) ∩
                         dom (nodes (to_sql_graph s)))) ∅)
    as (ch & Ech & Hch).
  { intros k Hk. apply (iterates_elem_of _ _ _ Hit) in Hk.
    apply elem_of_intersection in Hk as [H1 H2].
    split; apply elem_of_dom; assumption. }
  assert (ch = ∅) as ->.
  { apply elem_of_equiv_empty_L. intros k Hk. apply Hch in Hk as [Hk|Hk].
    - exact (not_elem_of_empty _ Hk).
    - destruct Hk as (_ & old & new & Ho & Hn & Hne).
      rewrite (Hsame k old new Ho Hn) in Hne. discriminate. }
  rewrite Ech. cbn [mbind result_bind]. unfold sort_sql_changes.
  rewrite Hdom, !difference_diag_L, union_empty_r_L, (iterates_empty _ Hit).
  reflexivity.
Qed.

Lemma equal_forward_statements_plan_nothing_witness :
  iterates elements ∧
  dom (nodes Examples.reverse_only_from) = dom (nodes Examples.reverse_only_to) ∧
  generate_changed_sql elements 1
    (Examples.planning Examples.reverse_only_from Examples.reverse_only_to) =
    Ok (Examples.planning Examples.reverse_only_from Examples.reverse_only_to,
        [], ∅).
Proof.
  split; [exact iterates_elements|]. split; [reflexivity|].
  apply (equal_forward_statements_plan_nothing elements 1
           (Examples.planning Examples.reverse_only_from
              Examples.reverse_only_to) iterates_elements).
  - reflexivity.
  - intros k old_node new_node Ho Hn. simpl in Ho, Hn.
    unfold Examples.reverse_only_from, add_node in Ho.
    unfold Examples.reverse_only_to, add_node in Hn. simpl in Ho, Hn.
    rewrite lookup_insert in Ho. rewrite lookup_insert in Hn.
    case_decide; [|rewrite lookup_empty in Ho; discriminate].
    injection Ho as <-. injection Hn as <-. reflexivity.
Defined.

(** X12: the second loop of [generate_changed_sql], run over keys that come
    once each and are registered in the to graph, emits one step per key in
    the order of the keys: [AlterSQL] for a key of [changed_keys] and
    [CreateSQL] for any other, with the statements of the to graph and, as
    [dependencies], the parents the key had before the loop.  The
    statements of the to graph and the whole from graph stay as they
    were. *)
Theorem rebuild_pass_creates_or_alters_each_key set_iter changed_keys keys s :
  NoDup keys ->
  (∀ k, k ∈ keys -> k ∈ dom (nodes (to_sql_graph s)) ∧
                    k ∈ dom (node_map (to_sql_graph s))) ->
  ∃ s' emitted,
    for_each (rebuild_step set_iter changed_keys) keys s = Ok s' ∧
    generated_operations s' = generated_operations s ++ emitted ∧
    step_record <$> emitted =
      omap (rebuild_entry (to_sql_graph s) changed_keys) keys ∧
    length emitted = length keys ∧
    nodes (to_sql_graph s') = nodes (to_sql_graph s) ∧
    from_sql_graph s' = from_sql_graph s.
Proof.
  intros ND Hreg.
  destruct (rebuild_pass_shape set_iter changed_keys keys s ND)
    as (s' & em & E & HG & HR & HL & HN & _ & HF & _).
  { intros k Hk. destruct (Hreg k Hk) as [H1 H2].
    split; apply elem_of_dom; assumption. }
  exists s', em. repeat split; assumption.
Qed.

Lemma rebuild_pass_creates_or_alters_each_key_witness :
  NoDup [Examples.kind; Examples.rate] ∧
  ∃ s' emitted,
    for_each (rebuild_step elements {[Examples.kind]})
      [Examples.kind; Examples.rate]
      (Examples.planning Examples.diamond_from Examples.diamond_to) = Ok s' ∧
    generated_operations s' = [] ++ emitted ∧
    step_record <$> emitted =
      omap (rebuild_entry Examples.diamond_to {[Examples.kind]})
        [Examples.kind; Examples.rate] ∧
    length emitted = 2.
Proof.
  assert (NoDup [Examples.kind; Examples.rate]) as ND by compute_done.
  split; [exact ND|].
  destruct (rebuild_pass_creates_or_alters_each_key elements {[Examples.kind]}
              [Examples.kind; Examples.rate]
              (Examples.planning Examples.diamond_from Examples.diamond_to) ND)
    as (s' & em & E & HG & HR & HL & _).
  - intros k Hk. split; revert k Hk; apply Forall_forall; compute_done.
  - exists s', em. repeat split; assumption.
Defined.

(** X13: the third loop of [generate_changed_sql], run over keys registered
    in the from graph, emits one [DeleteSQL] step per key in the order of
    the keys.  The step runs the old reverse statement and is undone by the
    old forward statement; it carries no marker and no [dependencies].
    Both graphs and the operations remembered per key stay as they were. *)
Theorem delete_pass_undoes_each_key keys s :
  (∀ k, k ∈ keys -> k ∈ dom (nodes (from_sql_graph s))) ->
  ∃ s' emitted,
    for_each delete_step keys s = Ok s' ∧
    generated_operations s' = generated_operations s ++ emitted ∧
    step_summary <$> emitted = omap (delete_entry (nodes (from_sql_graph s))) keys ∧
    length emitted = length keys ∧
    Forall (fun st => step_deps st = [] ∧ op_dependencies (step_op st) = None)
      emitted ∧
    from_sql_graph s' = from_sql_graph s ∧
    to_sql_graph s' = to_sql_graph s ∧
    latest_operations s' = latest_operations s.
Proof.
  intros Hreg. apply delete_pass_shape.
  intros k Hk. apply elem_of_dom. apply Hreg. exact Hk.
Qed.

Lemma delete_pass_undoes_each_key_witness :
  ∃ s' emitted,
    for_each delete_step [Examples.top_books; Examples.top_authors]
      (Examples.planning Examples.two_books empty_graph) = Ok s' ∧
    generated_operations s' = [] ++ emitted ∧
    step_summary <$> emitted =
      omap (delete_entry (nodes Examples.two_books))
        [Examples.top_books; Examples.top_authors] ∧
    length emitted = 2.
Proof.
  destruct (delete_pass_undoes_each_key
              [Examples.top_books; Examples.top_authors]
              (Examples.planning Examples.two_books empty_graph))
    as (s' & em & E & HG & HS & HL & _).
  - apply Forall_forall. compute_done.
  - exists s', em. repeat split; assumption.
Defined.


(** X14: on a to graph whose edges are layered and whose nodes are all
    registered, and a from graph whose constructs all have a node,
    [generate_changed_sql] raises nothing.  The ordered keys come once each
    and are the new keys and the final changed keys, which are constructs of
    both graphs.  What the run appends is, in this order: the reverse steps
    of the changed keys that have a reverse statement, in the order of the
    keys; one create or alter step per key, in the opposite order; one
    delete step per key of the from graph that the to graph lacks.  The
    statements of both graphs stay as they were. *)
Theorem generate_changed_sql_plans_three_passes set_iter rank depth s :
  iterates set_iter ->
  dom (node_map (to_sql_graph s)) = dom (nodes (to_sql_graph s)) ->
  dom (nodes (from_sql_graph s)) ⊆ dom (node_map (from_sql_graph s)) ->
  layered rank depth (node_map (to_sql_graph s)) ->
  ∃ s' keys changed_keys emitted,
    generate_changed_sql set_iter depth s = Ok (s', keys, changed_keys) ∧
    NoDup keys ∧
    (∀ k, k ∈ keys ↔
          k ∈ dom (nodes (to_sql_graph s)) ∖ dom (nodes (from_sql_graph s)) ∨
          k ∈ changed_keys) ∧
    changed_keys ⊆
      dom (nodes (from_sql_graph s)) ∩ dom (nodes (to_sql_graph s)) ∧
    generated_operations s' = generated_operations s ++ emitted ∧
    step_summary <$> emitted =
      omap (spec_teardown (nodes (from_sql_graph s)) changed_keys) keys ++
      (fst <$> omap (rebuild_entry (to_sql_graph s) changed_keys) (rev keys)) ++
      omap (delete_entry (nodes (from_sql_graph s)))
        (set_iter (dom (nodes (from_sql_graph s)) ∖
                   dom (nodes (to_sql_graph s)))) ∧
    nodes (from_sql_graph s') = nodes (from_sql_graph s) ∧
    nodes (to_sql_graph s') = nodes (to_sql_graph s).
Proof.
  intros Hit Hto Hfrom Hlay. unfold generate_changed_sql, diff_keys. cbv zeta.
  set (nf := nodes (from_sql_graph s)). set (nt := nodes (to_sql_graph s)).
  destruct (changed_loop (from_sql_graph s) (to_sql_graph s)
              (set_iter (dom nf ∩ dom nt)) ∅) as (ch0 & Ech & Hch0).
  { intros k Hk. apply (iterates_elem_of _ _ _ Hit) in Hk.
    apply elem_of_intersection in Hk as [H1 H2].
    split; apply elem_of_dom; assumption. }
  rewrite Ech. cbn [mbind result_bind]. unfold sort_sql_changes. cbv zeta.
  assert (∀ k, k ∈ ch0 -> k ∈ dom nf ∧ k ∈ dom nt) as Hch0_sub.
  { intros k Hk. apply Hch0 in Hk as [Hk|(_ & old & new & Ho & Hn & _)].
    - destruct (not_elem_of_empty _ Hk).
    - split; apply elem_of_dom; eauto. }
  assert (dom nt ∖ dom nf ∪ ch0 ⊆ dom (node_map (to_sql_graph s))) as Hall.
  { rewrite Hto. intros k Hk. apply elem_of_union in Hk as [Hk|Hk].
    - apply elem_of_difference in Hk as [Hk _]. exact Hk.
    - apply Hch0_sub in Hk as [_ Hk]. exact Hk. }
  assert (∀ x, x ∈ set_iter (dom nt ∖ dom nf ∪ ch0) ->
               x ∈ dom nt ∖ dom nf ∪ ch0) as Hiter.
  { intros x Hx. apply (iterates_elem_of _ _ _ Hit) in Hx. exact Hx. }
  destruct (sort_loop_cascades rank depth (to_sql_graph s)
              (dom nt ∖ dom nf ∪ ch0) (set_iter (dom nt ∖ dom nf ∪ ch0))
              [] ch0 Hlay Hall Hiter) as (keys & extra & Es & Hmem & Hex & _).
  destruct (sort_loop_places rank depth (to_sql_graph s)
              (dom nt ∖ dom nf ∪ ch0) (set_iter (dom nt ∖ dom nf ∪ ch0))
              [] ch0 Hlay Hall (iterates_NoDup _ _ Hit) Hiter NoDup_nil_2)
    as (keys' & extra' & Es' & ND & _ & _).
  { intros x _ Hx. inversion Hx. }
  rewrite Es in Es'. injection Es' as <- _.
  rewrite Es. cbn [mbind result_bind].
  set (ch := ch0 ∪ extra).
  assert (∀ k, k ∈ ch -> k ∈ dom nf ∧ k ∈ dom nt) as Hch_sub.
  { intros k Hk. apply elem_of_union in Hk as [Hk|Hk]; [exact (Hch0_sub k Hk)|].
    destruct (Hex k Hk) as (Hnot & k0 & _ & _ & Hdesc).
    apply (proper_descendant_registered rank depth) in Hdesc; [|exact Hlay].
    rewrite Hto in Hdesc. split; [|exact Hdesc].
    destruct (decide (k ∈ dom nf)) as [Hin|Hout]; [exact Hin|].
    destruct Hnot. apply elem_of_union. left.
    apply elem_of_difference. split; assumption. }
  assert (∀ k, k ∈ keys ↔ k ∈ dom nt ∖ dom nf ∨ k ∈ ch) as Hkeys.
  { intros k. rewrite Hmem, (iterates_elem_of _ _ _ Hit). subst ch.
    rewrite !elem_of_union. split.
    - intros [Hk|[[Hk|Hk]|Hk]]; [inversion Hk|tauto..].
    - intros [Hk|[Hk|Hk]]; tauto. }
  assert (∀ k, k ∈ keys -> k ∈ dom nt) as Hkeys_to.
  { intros k Hk. apply Hkeys in Hk as [Hk|Hk].
    - apply elem_of_difference in Hk as [Hk _]. exact Hk.
    - apply Hch_sub in Hk as [_ Hk]. exact Hk. }
  match goal with
  | |- context [for_each (teardown_step _ _) _ ?s0] =>
      destruct (teardown_pass_shape set_iter ch keys s0)
        as (s1 & em1 & E1 & G1 & S1 & N1 & _ & T1)
  end.
  { intros k _ Hk. simpl. apply Hch_sub in Hk as [Hk _].
    split; apply elem_of_dom; [exact Hk|]. apply Hfrom. exact Hk. }
  simpl in G1, S1, N1, T1. rewrite E1. cbn [mbind result_bind].
  destruct (rebuild_pass_shape set_iter ch (rev keys) s1)
    as (s2 & em2 & E2 & G2 & R2 & _ & N2 & _ & F2 & _).
  { rewrite rev_reverse, reverse_Permutation. exact ND. }
  { intros k Hk. rewrite elem_of_rev in Hk. apply Hkeys_to in Hk. rewrite T1.
    split; apply elem_of_dom; [exact Hk|]. rewrite Hto. exact Hk. }
  rewrite T1 in R2, N2. rewrite E2. cbn [mbind result_bind].
  destruct (delete_pass_shape (set_iter (dom nf ∖ dom nt)) s2)
    as (s3 & em3 & E3 & G3 & S3 & _ & _ & F3 & T3 & _).
  { intros k Hk. apply (iterates_elem_of _ _ _ Hit) in Hk.
    apply elem_of_difference in Hk as [Hk _]. rewrite F2, N1.
    apply elem_of_dom. exact Hk. }
  rewrite F2, N1 in S3. rewrite E3. cbn [mbind result_bind].
  exists s3, keys, ch, (em1 ++ em2 ++ em3).
  split; [reflexivity|]. split; [exact ND|]. split; [exact Hkeys|].
  split.
  { intros k Hk. apply Hch_sub in Hk as [H1 H2].
    apply elem_of_intersection. split; assumption. }
  split; [rewrite G3, G2, G1, <- !app_assoc; reflexivity|].
  split.
  { rewrite !fmap_app, S1, S3, <- R2, <- list_fmap_compose. reflexivity. }
  split; [rewrite F3, F2; exact N1|]. rewrite T3. exact N2.
Qed.

Lemma generate_changed_sql_plans_three_passes_witness :
  iterates elements ∧
  dom (node_map Examples.diamond_to) = dom (nodes Examples.diamond_to) ∧
  dom (nodes Examples.diamond_from) ⊆ dom (node_map Examples.diamond_from) ∧
  layered Examples.diamond_rank 2 (node_map Examples.diamond_to) ∧
  ∃ s' keys changed_keys emitted,
    generate_changed_sql elements 2
      (Examples.planning Examples.diamond_from Examples.diamond_to)
      = Ok (s', keys, changed_keys) ∧
    NoDup keys ∧
    generated_operations s' = [] ++ emitted ∧
    step_summary <$> emitted =
      omap (spec_teardown (nodes Examples.diamond_from) changed_keys) keys ++
      (fst <$> omap (rebuild_entry Examples.diamond_to changed_keys) (rev keys)) ++
      omap (delete_entry (nodes Examples.diamond_from))
        (elements (dom (nodes Examples.diamond_from) ∖
                   dom (nodes Examples.diamond_to))).
Proof.
  assert (dom (node_map Examples.diamond_to) = dom (nodes Examples.diamond_to))
    as Hto by compute_done.
  assert (dom (nodes Examples.diamond_from)
            ⊆ dom (node_map Examples.diamond_from)) as Hfrom by compute_done.
  assert (layered Examples.diamond_rank 2 (node_map Examples.diamond_to))
    as Hlay by compute_done.
  split; [exact iterates_elements|]. split; [exact Hto|].
  split; [exact Hfrom|]. split; [exact Hlay|].
  destruct (generate_changed_sql_plans_three_passes elements
              Examples.diamond_rank 2
              (Examples.planning Examples.diamond_from Examples.diamond_to)
              iterates_elements Hto Hfrom Hlay)
    as (s' & keys & ch & em & E & ND & _ & _ & HG & HS & _).
  exists s', keys, ch, em. repeat split; assumption.
Defined.

(** X15: every marker of a step appended by [generate_changed_sql] is of
    the kind of this package, and a step of the plan that
    [check_dependency] accepts for such a marker was appended by the same
    run, before the step that carries the marker: no step waits for itself,
    for a later step, or for a step that was there before. *)
Theorem markers_wait_for_earlier_steps set_iter depth host_check s s' keys
    changed_keys :
  (∀ st, st ∈ generated_operations s -> op_id (step_op st) < next_id s) ->
  generate_changed_sql set_iter depth s = Ok (s', keys, changed_keys) ->
  ∃ emitted,
    generated_operations s' = generated_operations s ++ emitted ∧
    ∀ j a d, emitted !! j = Some a -> d ∈ step_deps a ->
      dep_dom d = SQL_BLOB ∧
      ∀ b, b ∈ generated_operations s' ->
           check_dependency host_check (step_op b) d = true ->
           ∃ i, i < j ∧ emitted !! i = Some b.
Proof.
  intros Hold E. unfold generate_changed_sql in E.
  destruct (diff_keys set_iter (from_sql_graph s) (to_sql_graph s))
    as [[[new_keys deleted_keys] ch0]|]; [|discriminate].
  cbn [mbind result_bind] in E.
  destruct (sort_sql_changes set_iter depth (to_sql_graph s) new_keys ch0)
    as [[ks ch]|]; [|discriminate].
  cbn [mbind result_bind] in E.
  match type of E with
  | context [for_each (teardown_step _ _) _ ?s0] => set (s0' := s0) in E
  end.
  assert (chained (generated_operations s) (next_id s) s0') as H0.
  { exists []. subst s0'. simpl. rewrite app_nil_r.
    split; [reflexivity|]. split; [lia|]. split.
    { intros k o Ho. rewrite lookup_empty in Ho. discriminate. }
    split; [intros st Hst; inversion Hst|].
    split; [intros i j a b Hi; inversion Hi|].
    intros st d Hst. inversion Hst. }
  destruct (for_each (teardown_step set_iter ch) ks s0') as [s1|] eqn:E1;
    [|discriminate].
  cbn [mbind result_bind] in E.
  destruct (for_each (rebuild_step set_iter ch) (rev ks) s1) as [s2|] eqn:E2;
    [|discriminate].
  cbn [mbind result_bind] in E.
  destruct (for_each delete_step (set_iter deleted_keys) s2) as [s3|] eqn:E3;
    [|discriminate].
  cbn [mbind result_bind] in E. injection E as <- <- <-.
  assert (chained (generated_operations s) (next_id s) s1) as Hc1.
  { eapply (for_each_preserves (chained _ _)); [|exact H0|exact E1].
    intros ? ? ?. apply teardown_step_chained. }
  assert (chained (generated_operations s) (next_id s) s2) as Hc2.
  { eapply (for_each_preserves (chained _ _)); [|exact Hc1|exact E2].
    intros ? ? ?. apply rebuild_step_chained. }
  assert (chained (generated_operations s) (next_id s) s3) as Hc.
  { eapply (for_each_preserves (chained _ _)); [|exact Hc2|exact E3].
    intros ? ? ?. apply delete_step_chained. }
  destruct Hc as (em & G & _ & _ & HI & HS & HW).
  exists em. split; [exact G|]. intros j a d Ha Hd.
  destruct (HW a d (list_elem_of_lookup_2 _ _ _ Ha) Hd) as [Hblob Hinfo].
  split; [exact Hblob|]. intros b Hb Hcheck.
  unfold check_dependency in Hcheck. rewrite Hblob in Hcheck.
  destruct (dep_inf d) as [|o|v] eqn:Hi; simpl in Hcheck; try discriminate.
  unfold op_eqb in Hcheck. apply Nat.eqb_eq in Hcheck.
  destruct (Hinfo o eq_refl) as [Hlo Hhi].
  rewrite G in Hb. apply elem_of_app in Hb as [Hb|Hb].
  { apply Hold in Hb. lia. }
  apply list_elem_of_lookup_1 in Hb as [i Hb]. exists i. split; [|exact Hb].
  destruct (decide (i < j)) as [Hlt|Hge]; [exact Hlt|].
  destruct (decide (i = j)) as [->|Hne].
  - rewrite Ha in Hb. injection Hb as <-. lia.
  - pose proof (HS j i a b Ha Hb ltac:(lia)). lia.
Qed.

Lemma markers_wait_for_earlier_steps_witness :
  ∃ s' keys changed_keys emitted,
    generate_changed_sql elements 2
      (Examples.planning Examples.diamond_from Examples.diamond_to)
      = Ok (s', keys, changed_keys) ∧
    generated_operations s' = [] ++ emitted ∧
    ∀ j a d, emitted !! j = Some a -> d ∈ step_deps a ->
      dep_dom d = SQL_BLOB ∧
      ∀ b, b ∈ generated_operations s' ->
           check_dependency (fun _ _ => false) (step_op b) d = true ->
           ∃ i, i < j ∧ emitted !! i = Some b.
Proof.
  destruct (generate_changed_sql elements 2
              (Examples.planning Examples.diamond_from Examples.diamond_to))
    as [[[s' keys] ch]|e] eqn:E; [|vm_compute in E; discriminate E].
  exists s', keys, ch.
  destruct (markers_wait_for_earlier_steps elements 2 (fun _ _ => false)
              (Examples.planning Examples.diamond_from Examples.diamond_to)
              s' keys ch) as (em & HG & HW).
  - intros st Hst. inversion Hst.
  - exact E.
  - exists em. split; [reflexivity|]. split; [exact HG|exact HW].
Defined.


Lemma omap_total {A B C} (f : A -> option B) (h : B -> C) (g : A -> C)
    (l : list A) :
  (∀ x, x ∈ l -> ∃ y, f x = Some y ∧ h y = g x) ->
  h <$> omap f l = g <$> l.
Proof.
  induction l as [|x l IH]; intros H; [reflexivity|].
  destruct (H x) as (y & Hy & Hg); [left|].
  cbn [omap list_omap]. rewrite Hy, !fmap_cons, Hg. f_equal.
  apply IH. intros z Hz. apply H. right. exact Hz.
Qed.

Lemma nothing_to_tear_down from_nodes (ks : list Key) :
  omap (spec_teardown from_nodes ∅) ks = [].
Proof.
  induction ks as [|k ks IH]; [reflexivity|].
  cbn [omap list_omap]. unfold spec_teardown at 1.
  rewrite decide_False by apply not_elem_of_empty. exact IH.
Qed.

(** X16: when no construct kept by the to graph has a new forward
    statement, [generate_changed_sql] on a layered to graph changes nothing
    and reverses nothing: it creates each new construct once, every
    construct after all the constructs it depends on, and then deletes the
    constructs that are gone.  The from graph needs no nodes for this. *)
Theorem additions_are_created_parents_first set_iter rank depth s :
  iterates set_iter ->
  dom (node_map (to_sql_graph s)) = dom (nodes (to_sql_graph s)) ->
  layered rank depth (node_map (to_sql_graph s)) ->
  (∀ k old_node new_node,
     nodes (from_sql_graph s) !! k = Some old_node ->
     nodes (to_sql_graph s) !! k = Some new_node ->
     py_eq (sql old_node) (sql new_node) = true) ->
  ∃ s' created emitted,
    generate_changed_sql set_iter depth s = Ok (s', rev created, ∅) ∧
    created ≡ₚ
      elements (dom (nodes (to_sql_graph s)) ∖ dom (nodes (from_sql_graph s))) ∧
    (∀ i j a b, created !! i = Some a -> created !! j = Some b ->
                proper_ancestor (node_map (to_sql_graph s)) a b -> i < j) ∧
    generated_operations s' = generated_operations s ++ emitted ∧
    (fun st => (step_app st, op_name (step_op st), op_cls (step_op st)))
      <$> emitted =
      ((fun k => (k.1, k.2, CreateSQL)) <$> created) ++
      ((fun k => (k.1, k.2, DeleteSQL)) <$>
         set_iter (dom (nodes (from_sql_graph s)) ∖
                   dom (nodes (to_sql_graph s)))).
Proof.
  intros Hit Hto Hlay Hsame. unfold generate_changed_sql, diff_keys. cbv zeta.
  set (nf := nodes (from_sql_graph s)). set (nt := nodes (to_sql_graph s)).
  destruct (changed_loop (from_sql_graph s) (to_sql_graph s)
              (set_iter (dom nf ∩ dom nt)) ∅) as (ch0 & Ech & Hch0).
  { intros k Hk. apply (iterates_elem_of _ _ _ Hit) in Hk.
    apply elem_of_intersection in Hk as [H1 H2].
    split; apply elem_of_dom; assumption. }
  assert (ch0 = ∅) as ->.
  { apply elem_of_equiv_empty_L. intros k Hk. apply Hch0 in Hk as [Hk|Hk].
    - exact (not_elem_of_empty _ Hk).
    - destruct Hk as (_ & old & new & Ho & Hn & Hne).
      rewrite (Hsame k old new Ho Hn) in Hne. discriminate. }
  rewrite Ech. cbn [mbind result_bind]. unfold sort_sql_changes. cbv zeta.
  assert (dom nt ∖ dom nf ∪ ∅ ⊆ dom (node_map (to_sql_graph s))) as Hall.
  { rewrite Hto, union_empty_r_L. apply subseteq_difference_l. reflexivity. }
  assert (∀ x, x ∈ set_iter (dom nt ∖ dom nf ∪ ∅) ->
               x ∈ dom nt ∖ dom nf ∪ ∅) as Hiter.
  { intros x Hx. apply (iterates_elem_of _ _ _ Hit) in Hx. exact Hx. }
  destruct (sort_loop_dependents_first rank depth (to_sql_graph s)
              (dom nt ∖ dom nf) ∅ (set_iter (dom nt ∖ dom nf ∪ ∅)) []
              Hlay Hall) as (keys & Es & Hs).
  { intros k d Hk. destruct (not_elem_of_empty _ Hk). }
  { exact Hiter. }
  { constructor. }
  destruct (sort_loop_places rank depth (to_sql_graph s)
              (dom nt ∖ dom nf ∪ ∅) (set_iter (dom nt ∖ dom nf ∪ ∅))
              [] ∅ Hlay Hall (iterates_NoDup _ _ Hit) Hiter NoDup_nil_2)
    as (keys' & extra & Es' & ND & Hmem & _).
  { intros x _ Hx. inversion Hx. }
  rewrite Es in Es'. injection Es' as <- Hextra.
  rewrite union_empty_l_L in Hextra. subst extra.
  rewrite Es. cbn [mbind result_bind].
  assert (∀ k, k ∈ keys ↔ k ∈ dom nt ∖ dom nf) as Hkeys.
  { intros k. rewrite Hmem, (iterates_elem_of _ _ _ Hit), union_empty_r_L.
    split.
    - intros [Hk|[Hk|Hk]]; [inversion Hk|exact Hk|].
      destruct (not_elem_of_empty _ Hk).
    - intros Hk. right. left. exact Hk. }
  match goal with
  | |- context [for_each (teardown_step _ _) _ ?s0] =>
      destruct (teardown_pass_shape set_iter ∅ keys s0)
        as (s1 & em1 & E1 & G1 & S1 & N1 & _ & T1)
  end.
  { intros k _ Hk. destruct (not_elem_of_empty _ Hk). }
  simpl in G1, S1, N1, T1. rewrite nothing_to_tear_down in S1.
  apply fmap_nil_inv in S1. subst em1. rewrite app_nil_r in G1.
  rewrite E1. cbn [mbind result_bind].
  destruct (rebuild_pass_shape set_iter ∅ (rev keys) s1)
    as (s2 & em2 & E2 & G2 & R2 & _ & _ & _ & F2 & _).
  { rewrite rev_reverse, reverse_Permutation. exact ND. }
  { intros k Hk. rewrite elem_of_rev in Hk. apply Hkeys in Hk.
    apply elem_of_difference in Hk as [Hk _]. rewrite T1.
    split; apply elem_of_dom; [exact Hk|]. rewrite Hto. exact Hk. }
  rewrite T1 in R2. rewrite E2. cbn [mbind result_bind].
  destruct (delete_pass_shape (set_iter (dom nf ∖ dom nt)) s2)
    as (s3 & em3 & E3 & G3 & S3 & _).
  { intros k Hk. apply (iterates_elem_of _ _ _ Hit) in Hk.
    apply elem_of_difference in Hk as [Hk _]. rewrite F2, N1.
    apply elem_of_dom. exact Hk. }
  rewrite F2, N1 in S3. rewrite E3. cbn [mbind result_bind].
  subst nf nt. exists s3, (rev keys), (em2 ++ em3). rewrite rev_involutive.
  split; [reflexivity|]. split.
  { apply NoDup_Permutation.
    - rewrite rev_reverse, reverse_Permutation. exact ND.
    - apply NoDup_elements.
    - intros x. rewrite elem_of_rev, Hkeys, elem_of_elements. reflexivity. }
  split.
  { intros i j a b Hi Hj Hanc. rewrite rev_reverse in Hi, Hj.
    apply reverse_lookup_Some in Hi as [Hi Hli].
    apply reverse_lookup_Some in Hj as [Hj Hlj].
    destruct (decide (i < j)) as [Hlt|Hge]; [exact Hlt|]. exfalso.
    destruct (decide (i = j)) as [->|Hne].
    - assert (a = b) as -> by congruence.
      exact (no_proper_ancestor_of_itself _ _ _ _ Hlay Hanc).
    - exact (StronglySorted_lookup _ _ Hs _ _ a b Hi Hj ltac:(lia) Hanc). }
  split; [rewrite G3, G2, G1, <- app_assoc; reflexivity|].
  rewrite fmap_app. f_equal.
  - transitivity ((fun y : (string * op_class * string * pyval * pyval) *
                           option (gset Key) =>
                     (y.1.1.1.1.1, y.1.1.1.2, y.1.1.1.1.2))
                    <$> (step_record <$> em2)).
    { rewrite <- list_fmap_compose. reflexivity. }
    rewrite R2. apply omap_total. intros k Hk. rewrite elem_of_rev in Hk.
    apply Hkeys in Hk. apply elem_of_difference in Hk as [Hk _].
    assert (k ∈ dom (node_map (to_sql_graph s))) as Hk' by (rewrite Hto; exact Hk).
    apply elem_of_dom in Hk as [new Hn]. apply elem_of_dom in Hk' as [tn Ht].
    unfold rebuild_entry. rewrite Hn, Ht. cbn [mbind option_bind].
    rewrite decide_False by apply not_elem_of_empty.
    eexists. split; reflexivity.
  - transitivity ((fun y : string * op_class * string * pyval * pyval =>
                     (y.1.1.1.1, y.1.1.2, y.1.1.1.2))
                    <$> (step_summary <$> em3)).
    { rewrite <- list_fmap_compose. reflexivity. }
    rewrite S3. apply omap_total. intros k Hk.
    apply (iterates_elem_of _ _ _ Hit) in Hk.
    apply elem_of_difference in Hk as [Hk _].
    apply elem_of_dom in Hk as [old Ho].
    unfold delete_entry. rewrite Ho. cbn [mbind option_bind].
    eexists. split; reflexivity.
Qed.

Lemma additions_are_created_parents_first_witness :
  iterates elements ∧
  dom (node_map Examples.diamond_to) = dom (nodes Examples.diamond_to) ∧
  layered Examples.diamond_rank 2 (node_map Examples.diamond_to) ∧
  ∃ s' created emitted,
    generate_changed_sql elements 2
      (Examples.planning empty_graph Examples.diamond_to)
      = Ok (s', rev created, ∅) ∧
    created ≡ₚ elements (dom (nodes Examples.diamond_to) ∖
                          dom (nodes empty_graph)) ∧
    (∀ i j a b, created !! i = Some a -> created !! j = Some b ->
                proper_ancestor (node_map Examples.diamond_to) a b -> i < j) ∧
    generated_operations s' = [] ++ emitted ∧
    (fun st => (step_app st, op_name (step_op st), op_cls (step_op st)))
      <$> emitted =
      ((fun k => (k.1, k.2, CreateSQL)) <$> created) ++
      ((fun k => (k.1, k.2, DeleteSQL)) <$>
         elements (dom (nodes empty_graph) ∖ dom (nodes Examples.diamond_to))).
Proof.
  assert (dom (node_map Examples.diamond_to) = dom (nodes Examples.diamond_to))
    as Hto by compute_done.
  assert (layered Examples.diamond_rank 2 (node_map Examples.diamond_to))
    as Hlay by compute_done.
  split; [exact iterates_elements|]. split; [exact Hto|]. split; [exact Hlay|].
  apply (additions_are_created_parents_first elements Examples.diamond_rank 2
           (Examples.planning empty_graph Examples.diamond_to)
           iterates_elements Hto Hlay).
  intros k old_node new_node Ho. simpl in Ho. rewrite lookup_empty in Ho.
  discriminate Ho.
Defined.

End PlanLaws.
